(** * Project CYSTEM chatbot core: chunker, embedding builder, retrieval,
      FAQ matcher, guardrail filter and answer cache.

    Shallow embedding of the chat server (the [/api/chat] handler and its
    helpers), of [scripts/build-rag-embeddings.js] and of the knowledge
    build script (the chunker).

    Conventions of the embedding.
    - A JavaScript string is a list of code units; the code units covered
      are those below 256 ([ascii]).  [length] is the [.length] of the
      source.
    - Token-overlap scores are quotients of two small naturals.  They are
      kept as exact rationals ([Q]): IEEE division is correctly rounded and
      monotone, so for operands below 2^26 the double comparisons of the
      source ([>], [>=], the sign of a difference) agree with the rational
      ones.
    - Cosine similarity works on arbitrary doubles and is embedded with
      the kernel's binary64 numbers ([float]).
    - Calls that leave the process (clock, embedding and completion
      providers, the disk) are explicit arguments. *)

From Stdlib Require Import ZArith QArith Floats Ascii String List Sorted Lia Bool.
From stdpp Require Import base option list gmap strings.
Import ListNotations.

Abbreviation jsstring := (list ascii).

(** String literals of the source, as code-unit lists. *)
Definition js (s : string) : jsstring := list_ascii_of_string s.

(** ** JavaScript string primitives used by the sources *)
Module JsString.

Definition code (c : ascii) : N := N_of_ascii c.

Definition between (lo hi : N) (c : ascii) : bool :=
  (lo <=? code c)%N && (code c <=? hi)%N.

Definition is_lower (c : ascii) : bool := between 97 122 c.
Definition is_upper (c : ascii) : bool := between 65 90 c.
Definition is_digit (c : ascii) : bool := between 48 57 c.

(** [\s] (and the set stripped by [trim]): TAB, LF, VT, FF, CR, space
    and the no-break space. *)
Definition is_space (c : ascii) : bool :=
  between 9 13 c || (code c =? 32)%N || (code c =? 160)%N.

(** [\w] *)
Definition is_word (c : ascii) : bool :=
  is_lower c || is_upper c || is_digit c || (code c =? 95)%N.

(** Line terminators, which [.] does not match. *)
Definition is_line_terminator (c : ascii) : bool :=
  (code c =? 10)%N || (code c =? 13)%N.

Definition space : ascii := " "%char.
Definition LF : ascii := ascii_of_N 10.

(** [toLowerCase] on one code unit: A-Z and the Latin-1 capitals. *)
Definition lower_char (c : ascii) : ascii :=
  if is_upper c then ascii_of_N (code c + 32)
  else if between 192 222 c && negb (code c =? 215)%N
       then ascii_of_N (code c + 32)
       else c.

Definition toLowerCase (s : jsstring) : jsstring := map lower_char s.

(** Canonicalisation of a case-insensitive regular expression without
    the unicode flag, restricted to what can meet an ASCII pattern
    character: only a-z are folded. *)
Definition fold_char (c : ascii) : ascii :=
  if is_lower c then ascii_of_N (code c - 32) else c.

Fixpoint trimStart (s : jsstring) : jsstring :=
  match s with
  | [] => []
  | c :: r => if is_space c then trimStart r else s
  end.

Definition trimEnd (s : jsstring) : jsstring := rev (trimStart (rev s)).

Definition trim (s : jsstring) : jsstring := trimEnd (trimStart s).

(** [s.replace(/\s+/g, ' ')]; [in_run] tells that the previous code unit
    belonged to the run of white space being replaced. *)
Fixpoint collapse_spaces (in_run : bool) (s : jsstring) : jsstring :=
  match s with
  | [] => []
  | c :: r =>
      if is_space c
      then (if in_run then collapse_spaces true r
            else space :: collapse_spaces true r)
      else c :: collapse_spaces false r
  end.

(** [s.split(sep)] for a one-character separator. *)
Fixpoint split_char (sep : ascii) (s : jsstring) : list jsstring :=
  match s with
  | [] => [[]]
  | c :: r =>
      if Ascii.eqb c sep then [] :: split_char sep r
      else match split_char sep r with
           | h :: t => (c :: h) :: t
           | [] => [[c]]
           end
  end.

(** [s.slice(start, end)] for in-range, non-negative arguments. *)
Definition slice (s : jsstring) (start stop : nat) : jsstring :=
  take (stop - start) (drop start s).

(** [s.indexOf(c)]; [None] stands for [-1]. *)
Fixpoint indexOf (c : ascii) (s : jsstring) : option nat :=
  match s with
  | [] => None
  | x :: r => if Ascii.eqb x c then Some 0%nat else S <$> indexOf c r
  end.

End JsString.
Import JsString.

(** ** The chat server *)
Module Server.

(** [normalizeText]: lower-case, replace everything outside
    [[a-z0-9\s]] by a space, collapse white space, trim. *)
Definition keep_alnum_space (c : ascii) : ascii :=
  if is_lower c || is_digit c || is_space c then c else space.

Definition normalizeText (value : jsstring) : jsstring :=
  trim (collapse_spaces false (map keep_alnum_space (toLowerCase value))).

Definition tokenize (value : jsstring) : list jsstring :=
  filter (fun t => (2 < length t)%nat) (split_char space (normalizeText value)).

(** *** Guardrail patterns *)

(** [\b]: exactly one of the two neighbours is a word character; the
    ends of the input count as non-word. *)
Definition word_opt (c : option ascii) : bool :=
  match c with Some x => is_word x | None => false end.

Definition boundary (prev next : option ascii) : bool :=
  xorb (word_opt prev) (word_opt next).

(** The literal [k] matches a prefix of [s], ignoring case. *)
Fixpoint ci_prefix (k s : jsstring) : bool :=
  match k, s with
  | [], _ => true
  | _ :: _, [] => false
  | a :: k', c :: s' =>
      if Ascii.eqb (fold_char a) (fold_char c) then ci_prefix k' s' else false
  end.

(** [\b(k1|k2|...)\b] matches at the head of [s]; [prev] is the code
    unit before it. *)
Definition alt_at (kws : list jsstring) (prev : option ascii) (s : jsstring) : bool :=
  if boundary prev (head s)
  then existsb (fun k =>
                  if ci_prefix k s
                  then boundary (last (take (length k) s)) (head (drop (length k) s))
                  else false)
               kws
  else false.

(** An unanchored pattern is tried at every position. *)
Fixpoint search (p : option ascii -> jsstring -> bool)
         (prev : option ascii) (s : jsstring) : bool :=
  if p prev s then true
  else match s with
       | [] => false
       | c :: r => search p (Some c) r
       end.

(** [.*] followed by [p]: skip any number of code units that are not
    line terminators. *)
Fixpoint dot_star (p : option ascii -> jsstring -> bool)
         (prev : option ascii) (s : jsstring) : bool :=
  if p prev s then true
  else match s with
       | [] => false
       | c :: r => if is_line_terminator c then false else dot_star p (Some c) r
       end.

Definition pattern1_words : list jsstring :=
  [js "dose"; js "dosage"; js "mg"; js "prescribe"; js "prescription";
   js "medication plan"; js "treat me"; js "diagnose me"].

(** [/\b(dose|dosage|mg|prescribe|prescription|medication plan|treat me|diagnose me)\b/i] *)
Definition pattern1 (s : jsstring) : bool :=
  search (alt_at pattern1_words) None s.

(** [/\bhow much\b.*\b(mg|dose)\b/i] *)
Definition how_much_at (prev : option ascii) (s : jsstring) : bool :=
  let k := js "how much" in
  if boundary prev (head s) && ci_prefix k s &&
     boundary (last (take (length k) s)) (head (drop (length k) s))
  then dot_star (alt_at [js "mg"; js "dose"])
                (last (take (length k) s)) (drop (length k) s)
  else false.

Definition pattern2 (s : jsstring) : bool := search how_much_at None s.

Definition blockedMedicalPatterns : list (jsstring -> bool) :=
  [pattern1; pattern2].

Definition isBlockedMedicalQuestion (question : jsstring) : bool :=
  existsb (fun pattern => pattern question) blockedMedicalPatterns.

(** *** Data *)

Record Source := { src_title : jsstring; src_url : jsstring }.

Record Doc := {
  doc_id : jsstring;
  doc_title : jsstring;
  doc_url : jsstring;
  doc_content : jsstring
}.

Record Faq := {
  faq_id : jsstring;
  faq_prompts : list jsstring;
  faq_answer : jsstring;
  faq_sources : list Source
}.

Record CacheItem := {
  item_answer : jsstring;
  item_sources : list Source;
  item_timestamp : Z
}.

(** A score is either a token-overlap ratio or a cosine similarity. *)
Inductive Score :=
| Ratio (q : Q)
| Cosine (f : float).

(** Process constants and the data loaded by [loadChatData]. *)
Record Config := {
  CHATBOT_ENABLED : bool;
  OPENAI_API_KEY : jsstring;
  CHATBOT_CONTEXT_CHUNKS : nat;
  CHATBOT_CACHE_TTL_HOURS : Z;
  ragDocuments : list Doc;
  ragFaqs : list Faq;
  ragEmbeddingsById : option (gmap jsstring (list float))
}.

(** What one request observes of the outside: the clock at the cache
    read and at the cache write, whether the cache file can be written,
    and the two providers ([None]: the call throws). *)
Record Env := {
  now_at_read : Z;
  now_at_write : Z;
  fs_writable : bool;
  getEmbedding : jsstring -> option (list float);
  generateChatAnswer : jsstring -> list (Doc * Score) -> option jsstring
}.

(** The mutable state: the in-memory [chatCache] object and the content
    of [CHAT_CACHE_FILE] ([None]: no file). *)
Record World := {
  chatCache : gmap jsstring CacheItem;
  cacheFile : option (gmap jsstring CacheItem)
}.

(** *** Token sets and overlap *)

Definition tokenSet (value : jsstring) : gset jsstring :=
  list_to_set (tokenize value).

(** [for (const token of qTokens) if (dTokens.has(token)) overlap += 1] *)
Definition count_overlap (qTokens dTokens : gset jsstring) : nat :=
  foldl (fun overlap token =>
           if bool_decide (token ∈ dTokens) then S overlap else overlap)
        0%nat (elements qTokens).

Definition ratio (num den : nat) : Q := Z.of_nat num # Pos.of_nat den.

Definition Qlt_bool (x y : Q) : bool := negb (Qle_bool y x).

(** *** FAQ matcher *)

Definition faq_score (qTokens pTokens : gset jsstring) : Q :=
  ratio (count_overlap qTokens pTokens) (Nat.max (size qTokens) (size pTokens)).

(** Body of the inner loop; the state is [(best, bestScore)]. *)
Definition faq_prompt_step (qTokens : gset jsstring) (faq : Faq)
           (st : option Faq * Q) (prompt : jsstring) : option Faq * Q :=
  let pTokens := tokenSet prompt in
  if (size pTokens =? 0)%nat then st
  else
    let score := faq_score qTokens pTokens in
    if Qlt_bool (snd st) score then (Some faq, score) else st.

Definition faq_scan (qTokens : gset jsstring) (faqs : list Faq)
           (st : option Faq * Q) : option Faq * Q :=
  foldl (fun st faq => foldl (faq_prompt_step qTokens faq) st (faq_prompts faq))
        st faqs.

Definition findFaqAnswer (faqs : list Faq) (question : jsstring) : option Faq :=
  let qTokens := tokenSet question in
  if (size qTokens =? 0)%nat then None
  else
    match faq_scan qTokens faqs (None, 0%Q) with
    | (Some best, bestScore) =>
        if Qle_bool (7 # 10) bestScore then Some best else None
    | (None, _) => None
    end.

(** *** Sorting

    [Array.prototype.sort] is stable (ECMAScript 2019, Node 11 and
    later).  For a consistent comparator its result is the stable
    insertion sort below; [after a b] says that the comparator is
    positive on [(a, b)], so that [a] is placed after [b]. *)
Section Sort.
Context {A : Type} (after : A -> A -> bool).

Fixpoint sort_insert (x : A) (l : list A) : list A :=
  match l with
  | [] => [x]
  | y :: l' => if after x y then y :: sort_insert x l' else x :: l
  end.

Definition js_sort (l : list A) : list A := foldr sort_insert [] l.
End Sort.

(** *** Keyword retrieval *)

Definition sourceText (doc : Doc) : jsstring :=
  doc_title doc ++ [space] ++ doc_content doc.

Definition keyword_score (qTokens : gset jsstring) (doc : Doc) : Q :=
  ratio (count_overlap qTokens (tokenSet (sourceText doc)))
        (Nat.max 1 (size qTokens)).

(** The comparator [(a, b) => b.score - a.score] is positive when
    [a.score < b.score]. *)
Definition after_ratio (a b : Doc * Q) : bool := Qlt_bool (snd a) (snd b).

Definition keyword_candidates (docs : list Doc) (qTokens : gset jsstring)
  : list (Doc * Q) :=
  List.filter (fun item => Qlt_bool 0 (snd item))
              (map (fun doc => (doc, keyword_score qTokens doc)) docs).

Definition retrieveByKeyword (docs : list Doc) (question : jsstring) (limit : nat)
  : list (Doc * Q) :=
  let qTokens := tokenSet question in
  if (size qTokens =? 0)%nat then []
  else take limit (js_sort after_ratio (keyword_candidates docs qTokens)).

(** *** Cosine similarity *)

Open Scope float_scope.

Fixpoint cosine_loop (a b : list float) (acc : float * float * float)
  : float * float * float :=
  match a, b with
  | x :: a', y :: b' =>
      let '(dot, normA, normB) := acc in
      cosine_loop a' b' (dot + x * y, normA + x * x, normB + y * y)
  | _, _ => acc
  end.

(** [!x] on a number: zero and NaN are falsy. *)
Definition falsy (x : float) : bool := PrimFloat.eqb x 0 || PrimFloat.is_nan x.

Definition cosineSimilarity (a b : list float) : float :=
  if negb (length a =? length b)%nat || (length a =? 0)%nat then -1
  else
    let '(dot, normA, normB) := cosine_loop a b (0, 0, 0) in
    if falsy normA || falsy normB then -1
    else dot / (PrimFloat.sqrt normA * PrimFloat.sqrt normB).

(** *** Retrieval *)

Definition after_cosine (a b : Doc * float) : bool :=
  PrimFloat.ltb 0 (snd b - snd a).

Definition vector_scored (docs : list Doc) (emb : gmap jsstring (list float))
           (queryEmbedding : list float) : list (Doc * float) :=
  flat_map (fun doc =>
              match emb !! doc_id doc with
              | None => []
              | Some vector =>
                  let score := cosineSimilarity queryEmbedding vector in
                  if PrimFloat.ltb 0 score then [(doc, score)] else []
              end) docs.

Close Scope float_scope.

Definition keyword_items (docs : list Doc) (question : jsstring) (limit : nat)
  : list (Doc * Score) :=
  map (fun item => (fst item, Ratio (snd item))) (retrieveByKeyword docs question limit).

Definition truthy (s : jsstring) : bool := negb (length s =? 0)%nat.

Definition vector_mode (cfg : Config) : option (gmap jsstring (list float)) :=
  if truthy (OPENAI_API_KEY cfg) then
    match ragEmbeddingsById cfg with
    | Some emb => if (size emb =? 0)%nat then None else Some emb
    | None => None
    end
  else None.

Definition retrieveContext (cfg : Config) (env : Env) (question : jsstring)
           (limit : nat) : list (Doc * Score) :=
  if (length (ragDocuments cfg) =? 0)%nat then []
  else
    let keyword := keyword_items (ragDocuments cfg) question limit in
    match vector_mode cfg with
    | Some emb =>
        match getEmbedding env question with
        | Some queryEmbedding =>
            let scored :=
              js_sort after_cosine
                      (vector_scored (ragDocuments cfg) emb queryEmbedding) in
            if (length scored =? 0)%nat then keyword
            else map (fun item => (fst item, Cosine (snd item))) (take limit scored)
        | None => keyword
        end
    | None => keyword
    end.

(** [buildSourceList]: one source per URL, first occurrence kept. *)
Fixpoint buildSourceList_from (seen : list jsstring) (items : list (Doc * Score))
  : list Source :=
  match items with
  | [] => []
  | (doc, _) :: rest =>
      if bool_decide (doc_url doc ∈ seen) then buildSourceList_from seen rest
      else {| src_title := doc_title doc; src_url := doc_url doc |}
             :: buildSourceList_from (doc_url doc :: seen) rest
  end.

Definition buildSourceList (items : list (Doc * Score)) : list Source :=
  buildSourceList_from [] items.

(** *** Answer cache *)

Definition saveChatCache (env : Env) (w : World) : World :=
  if fs_writable env
  then {| chatCache := chatCache w; cacheFile := Some (chatCache w) |}
  else w.

Definition ttlMs (cfg : Config) : Z := CHATBOT_CACHE_TTL_HOURS cfg * 60 * 60 * 1000.

Definition getCachedAnswer (cfg : Config) (env : Env) (w : World)
           (cacheKey : jsstring) : option CacheItem * World :=
  match chatCache w !! cacheKey with
  | None => (None, w)
  | Some item =>
      if (ttlMs cfg <? now_at_read env - item_timestamp item)%Z
      then (None,
            saveChatCache env {| chatCache := delete cacheKey (chatCache w);
                                 cacheFile := cacheFile w |})
      else (Some item, w)
  end.

Definition setCachedAnswer (env : Env) (w : World) (cacheKey : jsstring)
           (answer : jsstring) (sources : list Source) : World :=
  saveChatCache env
    {| chatCache := <[cacheKey :=
                        {| item_answer := answer; item_sources := sources;
                           item_timestamp := now_at_write env |}]> (chatCache w);
       cacheFile := cacheFile w |}.

(** *** The [/api/chat] handler *)

Inductive Response :=
| Answer (answer : jsstring) (sources : list Source) (cached : bool)
| Failure (status : nat) (error : jsstring).

Definition refusalAnswer : jsstring :=
  js "I can share general educational information, but I cannot provide diagnosis, prescriptions, or dosage advice. Please consult a licensed clinician for personal medical guidance.".

Definition noDataAnswer : jsstring :=
  js "I do not have enough trusted information in the current knowledge base to answer that. Please contact a licensed clinician or use our trusted resource links.".

Definition faqSuffix : jsstring :=
  [LF; LF] ++ js "This is educational information, not medical advice.".

Definition answerSuffix : jsstring :=
  [LF; LF] ++ js "This is educational information and not medical advice.".

Definition lengthError : Response :=
  Failure 400 (js "Please send a question between 4 and 800 characters.").

Definition notConfigured : Response :=
  Failure 503 (js "Chatbot is not configured yet (missing OPENAI_API_KEY).").

Definition chat (cfg : Config) (env : Env) (w : World) (body_question : jsstring)
  : Response * World :=
  if negb (CHATBOT_ENABLED cfg)
  then (Failure 503 (js "Chatbot is currently disabled."), w)
  else
    let question := trim body_question in
    if (length question <? 4)%nat || (800 <? length question)%nat
    then (lengthError, w)
    else if isBlockedMedicalQuestion question
    then (Answer refusalAnswer [] false, w)
    else
      match findFaqAnswer (ragFaqs cfg) question with
      | Some faqHit =>
          (Answer (faq_answer faqHit ++ faqSuffix) (faq_sources faqHit) false, w)
      | None =>
          let cacheKey := normalizeText question in
          match getCachedAnswer cfg env w cacheKey with
          | (Some cached, w1) =>
              (Answer (item_answer cached) (item_sources cached) true, w1)
          | (None, w1) =>
              if negb (truthy (OPENAI_API_KEY cfg)) then (notConfigured, w1)
              else
                let contextItems :=
                  retrieveContext cfg env question (CHATBOT_CONTEXT_CHUNKS cfg) in
                if (length contextItems =? 0)%nat
                then (Answer noDataAnswer [] false,
                      setCachedAnswer env w1 cacheKey noDataAnswer [])
                else
                  match generateChatAnswer env question contextItems with
                  | None =>
                      (Failure 500 (js "Chat assistant is temporarily unavailable."), w1)
                  | Some answer =>
                      let sources := buildSourceList contextItems in
                      let finalAnswer := answer ++ answerSuffix in
                      (Answer finalAnswer sources false,
                       setCachedAnswer env w1 cacheKey finalAnswer sources)
                  end
          end
      end.

End Server.

(** ** [scripts/build-rag-embeddings.js] *)
Module EmbeddingBuilder.

Record Doc := { id : jsstring; title : jsstring; content : jsstring }.

(** An entry of [embeddings.json]. *)
Record Item := {
  item_id : jsstring;
  item_hash : jsstring;
  item_embedding : list float
}.

Record Payload := { model : jsstring; items : list Item }.

(** A document waiting for its embedding. *)
Record Pending := { p_id : jsstring; p_inputText : jsstring; p_hash : jsstring }.

(** What [getEmbeddings] yields: the request fails, [data.data] is not
    an array, or an array whose entries carry an [embedding] array or
    not. *)
Inductive ApiResult :=
| Throws
| NotArray
| Data (entries : list (option (list float))).

(** The two files the script touches ([None]: the file does not exist). *)
Record Disk := {
  docsFile : option (list Doc);
  outFile : option Payload
}.

Inductive Outcome :=
| Saved
| Error (message : jsstring).

Section Builder.
(** [contentHash]: the SHA-256 hex digest, left abstract. *)
Variable contentHash : jsstring -> jsstring.
Variable OPENAI_API_KEY : jsstring.
Variable MODEL : jsstring.
(** The parsed value of [KB_EMBED_BATCH_SIZE]. *)
Variable KB_EMBED_BATCH_SIZE : nat.
Definition BATCH_SIZE : nat := Nat.max 1 KB_EMBED_BATCH_SIZE.
(** The provider, by call number and request. *)
Variable getEmbeddings : nat -> list jsstring -> ApiResult.

Definition inputText (doc : Doc) : jsstring := title doc ++ [LF] ++ content doc.

(** [new Map(...)] filled by successive [set]: the last entry of an id wins. *)
Definition index_by_id (l : list Item) : gmap jsstring Item :=
  foldl (fun m item => <[item_id item := item]> m) ∅ l.

(** First loop of [main]: reuse or queue, one document at a time. *)
Fixpoint split_cached (existingMap : gmap jsstring Item) (docs : list Doc)
  : list Item * list Pending :=
  match docs with
  | [] => ([], [])
  | doc :: rest =>
      let '(reused, pendingDocs) := split_cached existingMap rest in
      let hash := contentHash (inputText doc) in
      match existingMap !! id doc with
      | Some cached =>
          if bool_decide (item_hash cached = hash)
          then ({| item_id := id doc; item_hash := hash;
                   item_embedding := item_embedding cached |} :: reused,
                pendingDocs)
          else (reused,
                {| p_id := id doc; p_inputText := inputText doc; p_hash := hash |}
                  :: pendingDocs)
      | None =>
          (reused,
           {| p_id := id doc; p_inputText := inputText doc; p_hash := hash |}
             :: pendingDocs)
      end
  end.

(** Inner loop over one batch: the first missing embedding throws. *)
Fixpoint collect (batch : list Pending) (entries : list (option (list float)))
  : jsstring + list Item :=
  match batch, entries with
  | [], _ => inr []
  | d :: batch', Some embedding :: entries' =>
      match collect batch' entries' with
      | inr l => inr ({| item_id := p_id d; item_hash := p_hash d;
                         item_embedding := embedding |} :: l)
      | inl e => inl e
      end
  | d :: _, _ => inl (js "Failed to get embedding for doc id=" ++ p_id d)
  end.

Definition shapeError : jsstring :=
  js "Embedding API returned unexpected batch response shape.".

Definition embed_batch (response : ApiResult) (batch : list Pending)
  : jsstring + list Item :=
  match response with
  | Throws => inl (js "request failed")
  | NotArray => inl shapeError
  | Data entries =>
      if negb (length entries =? length batch)%nat then inl shapeError
      else collect batch entries
  end.

(** The batch loop; [call] counts the requests made so far.  One unit
    of [fuel] is spent per batch; [length pendingDocs] is enough since
    a batch holds at least one document. *)
Fixpoint embed_all (fuel call : nat) (pendingDocs : list Pending) (acc : list Item)
  : jsstring + list Item :=
  match pendingDocs with
  | [] => inr acc
  | _ :: _ =>
      match fuel with
      | O => inr acc
      | S fuel' =>
          let batch := take BATCH_SIZE pendingDocs in
          match embed_batch (getEmbeddings call (map p_inputText batch)) batch with
          | inl e => inl e
          | inr embedded =>
              embed_all fuel' (S call) (drop BATCH_SIZE pendingDocs) (acc ++ embedded)
          end
      end
  end.

Definition main (disk : Disk) : Outcome * Disk :=
  if (length OPENAI_API_KEY =? 0)%nat
  then (Error (js "OPENAI_API_KEY is required."), disk)
  else
    match docsFile disk with
    | None => (Error (js "Missing file: rag/documents.json"), disk)
    | Some [] =>
        (Error (js "rag/documents.json must contain at least one document."), disk)
    | Some docs =>
        let existing :=
          match outFile disk with
          | Some payload => payload
          | None => {| model := MODEL; items := [] |}
          end in
        let existingMap := index_by_id (items existing) in
        let '(reused, pendingDocs) := split_cached existingMap docs in
        match embed_all (length pendingDocs) 0 pendingDocs reused with
        | inl e => (Error e, disk)
        | inr all =>
            let byId := index_by_id all in
            let orderedItems := omap (fun doc => byId !! id doc) docs in
            (Saved,
             {| docsFile := docsFile disk;
                outFile := Some {| model := MODEL; items := orderedItems |} |})
        end
    end.

End Builder.

End EmbeddingBuilder.

(** ** The knowledge build script: chunking *)
Module Chunker.

Definition normalizeWhitespace (text : jsstring) : jsstring :=
  trim (collapse_spaces false text).

Definition getTailAtWordBoundary (text : jsstring) (maxChars : nat) : jsstring :=
  if (length text <=? maxChars)%nat then text
  else
    let start := (length text - maxChars)%nat in
    let tail := drop start text in
    match indexOf space tail with
    | None => tail
    | Some firstSpace => drop (firstSpace + 1) tail
    end.

(** [text.split(/\n{2,}/)].  [newlines] counts the line feeds read since
    the last other code unit, [cur] is the piece being read, reversed. *)
Fixpoint split_blank_lines (newlines : nat) (cur : jsstring) (text : jsstring)
  : list jsstring :=
  match text with
  | [] =>
      match newlines with
      | O => [rev cur]
      | 1%nat => [rev (LF :: cur)]
      | _ => [rev cur; []]
      end
  | c :: r =>
      if Ascii.eqb c LF then split_blank_lines (S newlines) cur r
      else
        match newlines with
        | O => split_blank_lines 0 (c :: cur) r
        | 1%nat => split_blank_lines 0 (c :: LF :: cur) r
        | _ => rev cur :: split_blank_lines 0 [c] r
        end
  end.

Definition nonempty (s : jsstring) : bool := negb (length s =? 0)%nat.

Definition paragraphs_of (text : jsstring) : list jsstring :=
  List.filter nonempty (map normalizeWhitespace (split_blank_lines 0 [] text)).

Definition blank_line : jsstring := [LF; LF].

(** The [while] loop that slices an oversized paragraph.  [None]: the
    fuel ran out. *)
Fixpoint slice_loop (fuel : nat) (paragraph : jsstring)
         (maxChars overlapChars start : nat) (chunks : list jsstring)
  : option (list jsstring) :=
  match fuel with
  | O => None
  | S fuel' =>
      if negb (start <? length paragraph)%nat then Some chunks
      else
        let stop := Nat.min (start + maxChars) (length paragraph) in
        let segment := trim (slice paragraph start stop) in
        let chunks' := if nonempty segment then chunks ++ [segment] else chunks in
        if (length paragraph <=? stop)%nat then Some chunks'
        else slice_loop fuel' paragraph maxChars overlapChars
                        (stop - overlapChars) chunks'
  end.

(** Body of the [for] loop over the paragraphs; the state is
    [(chunks, current)]. *)
Definition chunk_step (maxChars overlapChars : nat)
           (st : list jsstring * jsstring) (paragraph : jsstring)
  : option (list jsstring * jsstring) :=
  let '(chunks, current) := st in
  let candidate :=
    if nonempty current then current ++ blank_line ++ paragraph else paragraph in
  if (length candidate <=? maxChars)%nat then Some (chunks, candidate)
  else
    let chunks1 := if nonempty current then chunks ++ [current] else chunks in
    if (maxChars <? length paragraph)%nat
    then
      match slice_loop (S (length paragraph)) paragraph maxChars overlapChars 0 chunks1 with
      | Some chunks2 => Some (chunks2, [])
      | None => None
      end
    else
      let overlap :=
        match last chunks1 with
        | Some previous => getTailAtWordBoundary previous overlapChars
        | None => []
        end in
      Some (chunks1,
            if nonempty overlap then overlap ++ blank_line ++ paragraph else paragraph).

Fixpoint chunk_loop (maxChars overlapChars : nat)
         (st : list jsstring * jsstring) (paragraphs : list jsstring)
  : option (list jsstring * jsstring) :=
  match paragraphs with
  | [] => Some st
  | paragraph :: rest =>
      match chunk_step maxChars overlapChars st paragraph with
      | Some st' => chunk_loop maxChars overlapChars st' rest
      | None => None
      end
  end.

(** [chunkText]; [None] when a slicing loop does not finish. *)
Definition chunkText (text : jsstring) (maxChars overlapChars : nat)
  : option (list jsstring) :=
  match chunk_loop maxChars overlapChars ([], []) (paragraphs_of text) with
  | Some (chunks, current) =>
      let chunks' := if nonempty current then chunks ++ [current] else chunks in
      Some (List.filter nonempty (map trim chunks'))
  | None => None
  end.

End Chunker.

(** ** The contact form handler and its helpers *)
Module Contact.

Definition AMP : ascii := "&"%char.
Definition LT : ascii := "<"%char.
Definition GT : ascii := ">"%char.
Definition QUOT : ascii := ascii_of_N 34.
Definition APOS : ascii := "'"%char.
Definition AT : ascii := "@"%char.
Definition DOT : ascii := "."%char.

(** The replacement table of [escapeHtml]; other characters stay. *)
Definition escape_char (c : ascii) : jsstring :=
  if Ascii.eqb c AMP then js "&amp;"
  else if Ascii.eqb c LT then js "&lt;"
  else if Ascii.eqb c GT then js "&gt;"
  else if Ascii.eqb c QUOT then js "&quot;"
  else if Ascii.eqb c APOS then js "&#039;"
  else [c].

(** [escapeHtml]: every ampersand, angle bracket, double quote and
    apostrophe is replaced by its entity. *)
Definition escapeHtml (text : jsstring) : jsstring := flat_map escape_char text.

(** [[^\s@]] *)
Definition email_char (c : ascii) : bool := negb (is_space c) && negb (Ascii.eqb c AT).

(** [cls+] followed by the rest [k] of the pattern: after each further
    character of the class the rest is tried. *)
Fixpoint plus_then (cls : ascii -> bool) (k : jsstring -> bool) (s : jsstring) : bool :=
  match s with
  | [] => false
  | c :: r => if cls c then (if k r then true else plus_then cls k r) else false
  end.

(** One literal character followed by [k]. *)
Definition lit_then (c : ascii) (k : jsstring -> bool) (s : jsstring) : bool :=
  match s with
  | x :: r => if Ascii.eqb x c then k r else false
  | [] => false
  end.

(** [$] *)
Definition at_end (s : jsstring) : bool :=
  match s with
  | [] => true
  | _ :: _ => false
  end.

(** [/^[^\s@]+@[^\s@]+\.[^\s@]+$/.test(email)] *)
Definition emailRegex (email : jsstring) : bool :=
  plus_then email_char
    (lit_then AT
       (plus_then email_char
          (lit_then DOT (plus_then email_char at_end))))
    email.

(** *** The handler of [POST /contact]

    The form fields are strings, as the site's form posts them; a field
    that is missing is the empty string, which the handler treats alike.
    The rate limiter in front of the handler and the debug logging are
    left out. *)

Record Form := {
  form_name : jsstring;
  form_email : jsstring;
  form_message : jsstring;
  form_captchaToken : jsstring;      (* g-recaptcha-response *)
  form_hp_contact : jsstring
}.

(** The environment variables the handler reads; unset is empty. *)
Record Settings := {
  RECAPTCHA_PROJECT_ID : jsstring;
  RECAPTCHA_API_KEY : jsstring;
  RECAPTCHA_SITE_KEY : jsstring;
  MAIL_FROM : jsstring;
  SMTP_USER : jsstring;
  MAIL_TO : jsstring;
  SEND_CONFIRMATION_EMAIL : bool
}.

Record AssessmentRequest := {
  req_project : jsstring;
  req_key : jsstring;
  req_token : jsstring;
  req_siteKey : jsstring;
  req_expectedAction : jsstring;
  req_userIpAddress : jsstring
}.

(** What the handler reads of an assessment: [tokenProperties.valid === true],
    [tokenProperties.action] when it is a string, [riskAnalysis.score]
    when it is a number. *)
Record Assessment := {
  token_valid : bool;
  token_action : option jsstring;
  risk_score : option float
}.

Record Mail := {
  mail_from : jsstring;
  mail_to : jsstring;
  envelope_from : jsstring;
  envelope_to : jsstring;
  mail_replyTo : option jsstring;
  mail_subject : jsstring;
  mail_html : jsstring
}.

(** The outside world: the assessment request fails ([None]) or answers;
    a mail is accepted or [sendMail] throws; the clock gives the ISO
    time stamp. *)
Record Services := {
  createAssessment : AssessmentRequest -> option Assessment;
  sendMail : Mail -> bool;
  now_iso : jsstring
}.

(** A request made to the outside world. *)
Inductive Effect :=
| Assess (request : AssessmentRequest)
| SendMail (mail : Mail).

Inductive Reply :=
| Error (status : nat) (error : jsstring)
| Success (message : jsstring).

Definition RECAPTCHA_EXPECTED_ACTION : jsstring := js "CONTACT_FORM_SUBMIT".
Definition RECAPTCHA_MIN_SCORE : float := 0.5%float.

Definition submissionFailed : jsstring := js "Submission failed. Please try again.".
Definition fillAllFields : jsstring := js "Please fill in all fields.".
Definition invalidEmail : jsstring := js "Please enter a valid email address.".
Definition messageLength : jsstring :=
  js "Message must be between 10 and 5000 characters.".
Definition captchaFailed : jsstring :=
  js "reCAPTCHA verification failed. Please try again.".
Definition configurationError : jsstring :=
  js "Server configuration error. Please try again later.".
Definition genericError : jsstring := js "An error occurred. Please try again later.".
Definition sentMessage : jsstring := js "Your message has been sent successfully!".
Definition defaultMailTo : jsstring := js "projectcystem@gmail.com".

(** [!s] for a string. *)
Definition blank (s : jsstring) : bool :=
  match s with
  | [] => true
  | _ :: _ => false
  end.

(** [a || b] for strings. *)
Definition or_else (a b : jsstring) : jsstring := if blank a then b else a.

(** [s.replace(/^<(.+)>$/, '$1')] *)
Definition strip_angle (s : jsstring) : jsstring :=
  match s with
  | c :: r =>
      if Ascii.eqb c LT
      then match rev r with
           | d :: inner_rev =>
               if Ascii.eqb d GT
               then (if blank inner_rev then s
                     else if forallb (fun x => negb (is_line_terminator x)) inner_rev
                          then rev inner_rev
                          else s)
               else s
           | [] => s
           end
      else s
  | [] => s
  end.

(** [s.replace(/\n/g, '<br>')] *)
Definition breaks (s : jsstring) : jsstring :=
  flat_map (fun c => if Ascii.eqb c LF then js "<br>" else [c]) s.

(** One line of a template literal, with its indentation. *)
Definition html_line (s : jsstring) : jsstring := LF :: js "        " ++ s.

Definition html_close : jsstring := LF :: js "      ".

Definition mailOptions (cfg : Settings) (svc : Services) (clientIp mailFrom : jsstring)
           (form : Form) : Mail :=
  {| mail_from := [QUOT] ++ js "Project CYSTEM Contact" ++ [QUOT] ++ js " <"
                  ++ mailFrom ++ js ">";
     mail_to := or_else (MAIL_TO cfg) defaultMailTo;
     envelope_from := mailFrom;
     envelope_to := or_else (MAIL_TO cfg) defaultMailTo;
     mail_replyTo := Some (form_email form);
     mail_subject := js "New Contact Form Message from " ++ form_name form;
     mail_html :=
       html_line (js "<h2>New Contact Form Submission</h2>")
       ++ html_line (js "<p><strong>Name:</strong> " ++ escapeHtml (form_name form)
                     ++ js "</p>")
       ++ html_line (js "<p><strong>Email:</strong> " ++ escapeHtml (form_email form)
                     ++ js "</p>")
       ++ html_line (js "<p><strong>Message:</strong></p>")
       ++ html_line (js "<p>" ++ breaks (escapeHtml (form_message form)) ++ js "</p>")
       ++ html_line (js "<hr>")
       ++ html_line (js "<p><small>Submitted from: " ++ escapeHtml clientIp
                     ++ js " at " ++ now_iso svc ++ js "</small></p>")
       ++ html_close |}.

Definition confirmationMailOptions (mailFrom : jsstring) (form : Form) : Mail :=
  {| mail_from := [QUOT] ++ js "Project CYSTEM" ++ [QUOT] ++ js " <"
                  ++ mailFrom ++ js ">";
     mail_to := form_email form;
     envelope_from := mailFrom;
     envelope_to := form_email form;
     mail_replyTo := None;
     mail_subject := js "We received your message";
     mail_html :=
       html_line (js "<h2>Thank you for reaching out!</h2>")
       ++ html_line (js "<p>Hi " ++ escapeHtml (form_name form) ++ js ",</p>")
       ++ html_line (js "<p>We have received your message and will get back to you as soon as possible.</p>")
       ++ html_line (js "<p><strong>Your message:</strong></p>")
       ++ html_line (js "<p>" ++ breaks (escapeHtml (form_message form)) ++ js "</p>")
       ++ html_line (js "<hr>")
       ++ html_line (js "<p>Best regards,<br>Project CYSTEM Team</p>")
       ++ html_close |}.

Definition assessmentRequest (cfg : Settings) (clientIp : jsstring) (form : Form)
  : AssessmentRequest :=
  {| req_project := RECAPTCHA_PROJECT_ID cfg;
     req_key := RECAPTCHA_API_KEY cfg;
     req_token := form_captchaToken form;
     req_siteKey := RECAPTCHA_SITE_KEY cfg;
     req_expectedAction := RECAPTCHA_EXPECTED_ACTION;
     req_userIpAddress := clientIp |}.

Definition hasActionMismatch (a : Assessment) : bool :=
  match token_action a with
  | Some action => negb (bool_decide (action = RECAPTCHA_EXPECTED_ACTION))
  | None => false
  end.

Definition hasLowScore (a : Assessment) : bool :=
  match risk_score a with
  | Some score => PrimFloat.ltb score RECAPTCHA_MIN_SCORE
  | None => false
  end.

(** [rawMailFrom.trim().replace(/^<(.+)>$/, '$1')] *)
Definition normalizedMailFrom (cfg : Settings) : jsstring :=
  strip_angle (trim (or_else (MAIL_FROM cfg) (or_else (SMTP_USER cfg) []))).

(** The handler: the reply and the requests made, in order.  Whatever
    throws inside ends in the handler's [catch]. *)
Definition contact (cfg : Settings) (svc : Services) (clientIp : jsstring) (form : Form)
  : Reply * list Effect :=
  if negb (blank (form_hp_contact form)) then (Error 400 submissionFailed, [])
  else if blank (form_name form) || blank (form_email form) || blank (form_message form)
  then (Error 400 fillAllFields, [])
  else if negb (emailRegex (form_email form)) then (Error 400 invalidEmail, [])
  else if (N.of_nat (length (trim (form_message form))) <? 10)%N
          || (5000 <? N.of_nat (length (trim (form_message form))))%N
  then (Error 400 messageLength, [])
  else if blank (form_captchaToken form) then (Error 400 captchaFailed, [])
  else if blank (RECAPTCHA_PROJECT_ID cfg) || blank (RECAPTCHA_API_KEY cfg)
          || blank (RECAPTCHA_SITE_KEY cfg)
  then (Error 500 configurationError, [])
  else
    let request := assessmentRequest cfg clientIp form in
    match createAssessment svc request with
    | None => (Error 500 genericError, [Assess request])
    | Some assessment =>
        if negb (token_valid assessment) || hasActionMismatch assessment
           || hasLowScore assessment
        then (Error 400 captchaFailed, [Assess request])
        else
          let mailFrom := normalizedMailFrom cfg in
          if blank mailFrom || negb (emailRegex mailFrom)
          then (Error 500 configurationError, [Assess request])
          else
            let admin := mailOptions cfg svc clientIp mailFrom form in
            let confirmation := confirmationMailOptions mailFrom form in
            if sendMail svc admin
            then (Success sentMessage,
                  if SEND_CONFIRMATION_EMAIL cfg
                  then [Assess request; SendMail admin; SendMail confirmation]
                  else [Assess request; SendMail admin])
            else (Error 500 genericError, [Assess request; SendMail admin])
    end.

End Contact.

(** ** The knowledge build script: identifiers *)
Module Knowledge.

(** [/[^a-z0-9]+/g] replaced by a dash: [in_run] tells that the previous
    code unit belonged to the run being replaced. *)
Fixpoint dash_runs (in_run : bool) (s : jsstring) : jsstring :=
  match s with
  | [] => []
  | c :: r =>
      if is_lower c || is_digit c then c :: dash_runs false r
      else if in_run then dash_runs true r
           else "-"%char :: dash_runs true r
  end.

(** [/^-+|-+$/g] replaced by the empty string. *)
Fixpoint strip_dashes_start (s : jsstring) : jsstring :=
  match s with
  | [] => []
  | c :: r => if Ascii.eqb c "-"%char then strip_dashes_start r else s
  end.

Definition strip_dashes (s : jsstring) : jsstring :=
  rev (strip_dashes_start (rev (strip_dashes_start s))).

Definition slugify (value : jsstring) : jsstring :=
  strip_dashes (dash_runs false (toLowerCase value)).

End Knowledge.

(** * Notions used to state the properties

    Scores and candidate lists in the words of the specification, the
    invariants of the loops, and the concrete inputs of the examples. *)

Import Server.

(** ** Request validation and cache age *)

(** The lengths the handler accepts for the trimmed question. *)
Definition in_range (question : jsstring) : Prop :=
  (4 <= length question <= 800)%nat.

(** [Date.now() - item.timestamp] at the cache read. *)
Definition age (env : Env) (item : CacheItem) : Z :=
  now_at_read env - item_timestamp item.

(** ** FAQ matcher *)

(** The score of a query against a prompt, in the words of the
    specification: shared tokens over the size of the larger token set. *)
Definition spec_faq_score (query prompt : jsstring) : Q :=
  ratio (size (tokenSet query ∩ tokenSet prompt))
        (Nat.max (size (tokenSet query)) (size (tokenSet prompt))).

(** The (entry, prompt) pairs in the order the two loops visit them. *)
Definition faq_pairs (faqs : list Faq) : list (Faq * jsstring) :=
  flat_map (fun faq => map (fun prompt => (faq, prompt)) (faq_prompts faq)) faqs.

(** One turn of the inner loop, on a pair. *)
Definition pair_step (qTokens : gset jsstring) (st : option Faq * Q)
           (fp : Faq * jsstring) : option Faq * Q :=
  faq_prompt_step qTokens (fst fp) st (snd fp).

(** What the two loops maintain: [bestScore] bounds every score seen, and
    [best] is an entry that reached it. *)
Definition scan_invariant (query : jsstring) (seen : list (Faq * jsstring))
           (st : option Faq * Q) : Prop :=
  (0 <= snd st)%Q /\
  (forall fp, fp ∈ seen -> (spec_faq_score query (snd fp) <= snd st)%Q) /\
  match fst st with
  | Some best =>
      exists prompt, (best, prompt) ∈ seen /\
                     snd st = spec_faq_score query prompt /\ (0 < snd st)%Q
  | None => snd st = 0%Q
  end.

(** ** Keyword retrieval *)

(** The characters a token is made of. *)
Definition lower_alnum (c : ascii) : bool := is_lower c || is_digit c.

(** The keyword score in the words of the specification. *)
Definition spec_keyword_score (query : jsstring) (doc : Doc) : Q :=
  ratio (size (tokenSet query ∩ tokenSet (sourceText doc)))
        (Nat.max 1 (size (tokenSet query))).

(** The documents with a positive score, in document order. *)
Definition spec_keyword_candidates (docs : list Doc) (query : jsstring) : list (Doc * Q) :=
  List.filter (fun item => Qlt_bool 0 (snd item))
              (map (fun doc => (doc, spec_keyword_score query doc)) docs).

(** Order and ties of a list ranked by a rational key: [after_key] is
    the comparator of the source on the keys, [descending] the order of
    the result, [same_key] selects the entries of one key. *)
Section KeyOrder.
Context {A : Type} (key : A -> Q).

Definition after_key (a b : A) : bool := Qlt_bool (key a) (key b).

Definition descending (a b : A) : Prop := (key b <= key a)%Q.

Definition same_key (s : Q) (a : A) : bool := Qeq_bool (key a) s.

End KeyOrder.

(** ** Cosine similarity *)

Section CosineNotions.
Local Open Scope float_scope.

(** The squared norm and the dot product, as the loop accumulates them. *)
Definition sum_squares (acc : float) (v : list float) : float :=
  foldl (fun s x => s + x * x) acc v.

Definition norm2 (v : list float) : float := sum_squares 0 v.

Fixpoint dot_from (acc : float) (a b : list float) : float :=
  match a, b with
  | x :: a', y :: b' => dot_from (acc + x * y) a' b'
  | _, _ => acc
  end.

(** A double that is neither zero, nor infinite, nor NaN. *)
Definition finite_nonzero (x : float) : bool :=
  match Prim2SF x with
  | S754_finite _ _ _ => true
  | _ => false
  end.

(** Exchange of the two norm accumulators. *)
Definition swap_norms (acc : float * float * float) : float * float * float :=
  let '(dot, normA, normB) := acc in (dot, normB, normA).

End CosineNotions.

(** ** Embedding builder *)

Section BuilderNotions.
Import EmbeddingBuilder.
Variable contentHash : jsstring -> jsstring.
Variable KB_EMBED_BATCH_SIZE : nat.

(** The documents left to embed, given what [embeddings.json] holds. *)
Definition pending_of (disk : Disk) (docs : list Doc) : list Pending :=
  snd (split_cached contentHash
         (index_by_id (match outFile disk with
                       | Some payload => items payload
                       | None => []
                       end)) docs).

(** The [k]-th batch of the run. *)
Definition batch_at (k : nat) (pendingDocs : list Pending) : list Pending :=
  take (BATCH_SIZE KB_EMBED_BATCH_SIZE)
       (drop (k * BATCH_SIZE KB_EMBED_BATCH_SIZE) pendingDocs).

(** A response the script rejects: the request failed, the payload is not
    an array, the count differs from the request, or an entry has no
    embedding. *)
Definition bad_response (response : ApiResult) (batch : list Pending) : Prop :=
  match response with
  | Throws | NotArray => True
  | Data entries =>
      length entries <> length batch \/
      exists j, (j < length batch)%nat /\ entries !! j = Some None
  end.

End BuilderNotions.

(** ** Chunker *)

(** A chunk of at most [bound] characters. *)
Definition within (bound : nat) (chunk : jsstring) : Prop := (length chunk <= bound)%nat.

(** ** Concrete inputs of the examples *)

(** No provider answers, the clock reads 0, the cache file is writable. *)
Definition env0 : Env :=
  {| now_at_read := 0; now_at_write := 0; fs_writable := true;
     getEmbedding := fun _ => None;
     generateChatAnswer := fun _ _ => None |}.

(** The same with the clock at [now]. *)
Definition env_at (now : Z) : Env :=
  {| now_at_read := now; now_at_write := now; fs_writable := true;
     getEmbedding := fun _ => None;
     generateChatAnswer := fun _ _ => None |}.

(** An empty cache, no cache file yet. *)
Definition world0 : World := {| chatCache := ∅; cacheFile := None |}.

Definition pcos_doc : Doc :=
  {| doc_id := js "overview-1"; doc_title := js "PCOS overview";
     doc_url := js "https://example.org/pcos";
     doc_content := js "PCOS is a common hormonal condition." |}.

(** One document, no FAQ, no embedding index; TTL of 168 hours. *)
Definition cfg0 : Config :=
  {| CHATBOT_ENABLED := true; OPENAI_API_KEY := js "sk-test";
     CHATBOT_CONTEXT_CHUNKS := 2; CHATBOT_CACHE_TTL_HOURS := 168;
     ragDocuments := [pcos_doc]; ragFaqs := []; ragEmbeddingsById := None |}.

(** The same without an API key. *)
Definition cfg_no_key : Config :=
  {| CHATBOT_ENABLED := true; OPENAI_API_KEY := [];
     CHATBOT_CONTEXT_CHUNKS := 2; CHATBOT_CACHE_TTL_HOURS := 168;
     ragDocuments := [pcos_doc]; ragFaqs := []; ragEmbeddingsById := None |}.

(** The same with a one-vector embedding index. *)
Definition cfg_vectors : Config :=
  {| CHATBOT_ENABLED := true; OPENAI_API_KEY := js "sk-test";
     CHATBOT_CONTEXT_CHUNKS := 2; CHATBOT_CACHE_TTL_HOURS := 168;
     ragDocuments := [pcos_doc]; ragFaqs := [];
     ragEmbeddingsById := Some {[ js "overview-1" := [1%float; 0%float] ]} |}.

(** The provider answers with a vector orthogonal to the indexed one. *)
Definition env_orthogonal : Env :=
  {| now_at_read := 0; now_at_write := 0; fs_writable := true;
     getEmbedding := fun _ => Some [0%float; 1%float];
     generateChatAnswer := fun _ _ => None |}.

(** A question of 805 characters that matches the first pattern. *)
Definition long_dose_question : jsstring := js "dose " ++ repeat "x"%char 800.

(** An entry written at time 1000, and a cache that holds it. *)
Definition week_old_item : CacheItem :=
  {| item_answer := js "PCOS is common."; item_sources := []; item_timestamp := 1000 |}.

Definition world1 : World :=
  {| chatCache := {[ js "what is pcos" := week_old_item ]}; cacheFile := None |}.

(** A query of ten tokens; a prompt sharing seven of them, and one
    sharing two of three. *)
Definition ten_word_query : jsstring :=
  js "alpha bravo charlie delta echoes foxtrot golfing hotel india juliet".

Definition faq_seven : Faq :=
  {| faq_id := js "seven";
     faq_prompts := [js "Alpha, bravo, charlie; delta echoes foxtrot golfing?"];
     faq_answer := js "Seven of ten."; faq_sources := [] |}.

Definition faq_two : Faq :=
  {| faq_id := js "two";
     faq_prompts := [js "alpha bravo zulu"];
     faq_answer := js "Two of three."; faq_sources := [] |}.

(** Four documents for the query "Insulin & exercise?". *)
Definition doc_a : Doc :=
  {| doc_id := js "a-1"; doc_title := js "Insulin"; doc_url := js "u1";
     doc_content := js "Insulin resistance and weight." |}.
Definition doc_b : Doc :=
  {| doc_id := js "b-1"; doc_title := js "Sleep"; doc_url := js "u2";
     doc_content := js "Sleep, insulin and exercise habits matter." |}.
Definition doc_c : Doc :=
  {| doc_id := js "c-1"; doc_title := js "Exercise"; doc_url := js "u3";
     doc_content := js "Exercise and movement." |}.
Definition doc_d : Doc :=
  {| doc_id := js "d-1"; doc_title := js "Cycle"; doc_url := js "u4";
     doc_content := js "Cycle tracking." |}.

(** A run on two documents with batches of one document. *)
Definition build_docs : list EmbeddingBuilder.Doc :=
  [ {| EmbeddingBuilder.id := js "overview-1"; EmbeddingBuilder.title := js "Overview";
       EmbeddingBuilder.content := js "PCOS is common." |};
    {| EmbeddingBuilder.id := js "lifestyle-1"; EmbeddingBuilder.title := js "Lifestyle";
       EmbeddingBuilder.content := js "Sleep matters." |} ].

Definition build_disk : EmbeddingBuilder.Disk :=
  {| EmbeddingBuilder.docsFile := Some build_docs;
     EmbeddingBuilder.outFile :=
       Some {| EmbeddingBuilder.model := js "old-model";
               EmbeddingBuilder.items :=
                 [ {| EmbeddingBuilder.item_id := js "lifestyle-1";
                      EmbeddingBuilder.item_hash := js "stale";
                      EmbeddingBuilder.item_embedding := [1%float] |} ] |} |}.

(** The first request is answered in full, the second with no entry. *)
Definition short_provider (call : nat) (inputs : list jsstring) : EmbeddingBuilder.ApiResult :=
  match call with
  | O => EmbeddingBuilder.Data (map (fun _ => Some [2%float]) inputs)
  | _ => EmbeddingBuilder.Data []
  end.

(** Every request is answered in full. *)
Definition full_provider (call : nat) (inputs : list jsstring) : EmbeddingBuilder.ApiResult :=
  EmbeddingBuilder.Data (map (fun _ => Some [2%float]) inputs).

(** Two paragraphs of 1501 and 1700 characters. *)
Definition first_paragraph : jsstring :=
  repeat "a"%char 1000 ++ [space] ++ repeat "b"%char 500.

Definition second_paragraph : jsstring := repeat "c"%char 1700.

(** The two paragraphs, separated by a blank line. *)
Definition two_paragraphs : jsstring :=
  first_paragraph ++ Chunker.blank_line ++ second_paragraph.

(** ** Strings *)

(** Removal of the leading characters that satisfy [p], and of those at
    both ends; [trim] and the dash stripping of [slugify] are instances. *)
Fixpoint drop_while (p : ascii -> bool) (s : jsstring) : jsstring :=
  match s with
  | [] => []
  | c :: r => if p c then drop_while p r else s
  end.

Definition strip_both (p : ascii -> bool) (s : jsstring) : jsstring :=
  rev (drop_while p (rev (drop_while p s))).

(** Neither the first nor the last character satisfies [p]. *)
Definition clean_ends (p : ascii -> bool) (s : jsstring) : Prop :=
  (forall c, head s = Some c -> p c = false) /\
  (forall c, last s = Some c -> p c = false).

(** No two neighbours both satisfy [p]. *)
Fixpoint no_double (p : ascii -> bool) (s : jsstring) : Prop :=
  match s with
  | x :: (y :: _) as r => (p x = true -> p y = false) /\ no_double p r
  | _ => True
  end.

(** The shape of a normalized text: lower-case letters, digits and
    single spaces, no space at either end. *)
Definition normalized (s : jsstring) : Prop :=
  Forall (fun c => lower_alnum c = true \/ c = space) s /\
  clean_ends is_space s /\
  no_double is_space s.

(** ** The paths of the chat handler *)

(** The cache key of a request. *)
Definition cache_key (body_question : jsstring) : jsstring :=
  normalizeText (trim body_question).

(** The entry [setCachedAnswer] stores. *)
Definition stored_item (env : Env) (answer : jsstring) (sources : list Source) : CacheItem :=
  {| item_answer := answer; item_sources := sources; item_timestamp := now_at_write env |}.

(** One constructor per [return] of the handler, with the tests that
    lead to it. *)
Inductive chat_path (cfg : Config) (env : Env) (w : World) (q : jsstring)
  : Response * World -> Prop :=
| path_disabled :
    CHATBOT_ENABLED cfg = false ->
    chat_path cfg env w q (Failure 503 (js "Chatbot is currently disabled."), w)
| path_length :
    CHATBOT_ENABLED cfg = true -> ~ in_range (trim q) ->
    chat_path cfg env w q (lengthError, w)
| path_blocked :
    CHATBOT_ENABLED cfg = true -> in_range (trim q) ->
    isBlockedMedicalQuestion (trim q) = true ->
    chat_path cfg env w q (Answer refusalAnswer [] false, w)
| path_faq (faqHit : Faq) :
    CHATBOT_ENABLED cfg = true -> in_range (trim q) ->
    isBlockedMedicalQuestion (trim q) = false ->
    findFaqAnswer (ragFaqs cfg) (trim q) = Some faqHit ->
    chat_path cfg env w q
      (Answer (faq_answer faqHit ++ faqSuffix) (faq_sources faqHit) false, w)
| path_cached (cached : CacheItem) (w1 : World) :
    CHATBOT_ENABLED cfg = true -> in_range (trim q) ->
    isBlockedMedicalQuestion (trim q) = false ->
    findFaqAnswer (ragFaqs cfg) (trim q) = None ->
    getCachedAnswer cfg env w (cache_key q) = (Some cached, w1) ->
    chat_path cfg env w q (Answer (item_answer cached) (item_sources cached) true, w1)
| path_not_configured (w1 : World) :
    CHATBOT_ENABLED cfg = true -> in_range (trim q) ->
    isBlockedMedicalQuestion (trim q) = false ->
    findFaqAnswer (ragFaqs cfg) (trim q) = None ->
    getCachedAnswer cfg env w (cache_key q) = (None, w1) ->
    OPENAI_API_KEY cfg = [] ->
    chat_path cfg env w q (notConfigured, w1)
| path_no_data (w1 : World) :
    CHATBOT_ENABLED cfg = true -> in_range (trim q) ->
    isBlockedMedicalQuestion (trim q) = false ->
    findFaqAnswer (ragFaqs cfg) (trim q) = None ->
    getCachedAnswer cfg env w (cache_key q) = (None, w1) ->
    OPENAI_API_KEY cfg <> [] ->
    retrieveContext cfg env (trim q) (CHATBOT_CONTEXT_CHUNKS cfg) = [] ->
    chat_path cfg env w q
      (Answer noDataAnswer [] false,
       setCachedAnswer env w1 (cache_key q) noDataAnswer [])
| path_generation_failed (w1 : World) :
    CHATBOT_ENABLED cfg = true -> in_range (trim q) ->
    isBlockedMedicalQuestion (trim q) = false ->
    findFaqAnswer (ragFaqs cfg) (trim q) = None ->
    getCachedAnswer cfg env w (cache_key q) = (None, w1) ->
    OPENAI_API_KEY cfg <> [] ->
    retrieveContext cfg env (trim q) (CHATBOT_CONTEXT_CHUNKS cfg) <> [] ->
    generateChatAnswer env (trim q)
      (retrieveContext cfg env (trim q) (CHATBOT_CONTEXT_CHUNKS cfg)) = None ->
    chat_path cfg env w q
      (Failure 500 (js "Chat assistant is temporarily unavailable."), w1)
| path_generated (w1 : World) (answer : jsstring) :
    CHATBOT_ENABLED cfg = true -> in_range (trim q) ->
    isBlockedMedicalQuestion (trim q) = false ->
    findFaqAnswer (ragFaqs cfg) (trim q) = None ->
    getCachedAnswer cfg env w (cache_key q) = (None, w1) ->
    OPENAI_API_KEY cfg <> [] ->
    retrieveContext cfg env (trim q) (CHATBOT_CONTEXT_CHUNKS cfg) <> [] ->
    generateChatAnswer env (trim q)
      (retrieveContext cfg env (trim q) (CHATBOT_CONTEXT_CHUNKS cfg)) = Some answer ->
    chat_path cfg env w q
      (Answer (answer ++ answerSuffix)
              (buildSourceList
                 (retrieveContext cfg env (trim q) (CHATBOT_CONTEXT_CHUNKS cfg)))
              false,
       setCachedAnswer env w1 (cache_key q) (answer ++ answerSuffix)
         (buildSourceList
            (retrieveContext cfg env (trim q) (CHATBOT_CONTEXT_CHUNKS cfg)))).

(** ** Retrieval results *)

(** A score that passed the [score > 0] filter. *)
Definition positive_score (score : Score) : Prop :=
  match score with
  | Ratio q => (0 < q)%Q
  | Cosine f => PrimFloat.ltb 0 f = true
  end.

(** The source entry made from a document. *)
Definition source_of (doc : Doc) : Source :=
  {| src_title := doc_title doc; src_url := doc_url doc |}.

(** ** Contact form *)

(** The five characters [escapeHtml] replaces. *)
Definition html_special (c : ascii) : bool :=
  Ascii.eqb c Contact.AMP || Ascii.eqb c Contact.LT || Ascii.eqb c Contact.GT ||
  Ascii.eqb c Contact.QUOT || Ascii.eqb c Contact.APOS.

(** The characters that can open or close markup or an attribute value. *)
Definition html_markup (c : ascii) : bool :=
  Ascii.eqb c Contact.LT || Ascii.eqb c Contact.GT ||
  Ascii.eqb c Contact.QUOT || Ascii.eqb c Contact.APOS.

(** ** Slugs *)

Definition DASH : ascii := "-"%char.

Definition is_dash (c : ascii) : bool := Ascii.eqb c DASH.

(** The shape of a slug: lower-case letters, digits and single dashes,
    no dash at either end. *)
Definition slug_shaped (s : jsstring) : Prop :=
  Forall (fun c => lower_alnum c = true \/ c = DASH) s /\
  clean_ends is_dash s /\
  no_double is_dash s.

(** ** Chunks *)

(** Paragraphs joined by blank lines, as the buffer accumulates them. *)
Definition join_paragraphs (paragraphs : list jsstring) : jsstring :=
  match paragraphs with
  | [] => []
  | first :: rest =>
      foldl (fun buffer paragraph => buffer ++ Chunker.blank_line ++ paragraph) first rest
  end.

(** ** Embedding index *)

Section IndexNotions.
Import EmbeddingBuilder.
Variable contentHash : jsstring -> jsstring.

(** The record belongs to the document and carries the hash of its
    current title and content. *)
Definition record_of (doc : Doc) (item : Item) : Prop :=
  item_id item = id doc /\ item_hash item = contentHash (inputText doc).

(** An index that is up to date for the documents: one record per
    document, in the order of the documents. *)
Definition up_to_date (docs : list Doc) (records : list Item) : Prop :=
  Forall2 record_of docs records.

(** A queued document stands for a document of the list. *)
Definition queued_as (doc : Doc) (p : Pending) : Prop :=
  p_id p = id doc /\ p_hash p = contentHash (inputText doc).

End IndexNotions.

(** What the example run with [full_provider] leaves on disk. *)
Definition built_disk : EmbeddingBuilder.Disk :=
  snd (EmbeddingBuilder.main (fun text => text) (js "sk-test")
         (js "text-embedding-3-small") 1 full_provider build_disk).

Definition built_records : list EmbeddingBuilder.Item :=
  match EmbeddingBuilder.outFile built_disk with
  | Some payload => EmbeddingBuilder.items payload
  | None => []
  end.

(** The code unit before a position: the last one of the text skipped
    so far, or the one before the text when nothing was skipped. *)
Definition unit_before (prev : option ascii) (skipped : jsstring) : option ascii :=
  match last skipped with Some c => Some c | None => prev end.

(** The pattern [p] matches somewhere in [s]. *)
Definition occurs (p : option ascii -> jsstring -> bool)
           (prev : option ascii) (s : jsstring) : Prop :=
  exists skipped rest,
    s = skipped ++ rest /\ p (unit_before prev skipped) rest = true.

(** The checks the contact handler makes on the form itself. *)
Definition well_formed (form : Contact.Form) : bool :=
  Contact.blank (Contact.form_hp_contact form)
  && negb (Contact.blank (Contact.form_name form))
  && negb (Contact.blank (Contact.form_email form))
  && negb (Contact.blank (Contact.form_message form))
  && Contact.emailRegex (Contact.form_email form)
  && (10 <=? N.of_nat (length (trim (Contact.form_message form))))%N
  && (N.of_nat (length (trim (Contact.form_message form))) <=? 5000)%N
  && negb (Contact.blank (Contact.form_captchaToken form)).

(** An assessment the handler lets through. *)
Definition passed (a : Contact.Assessment) : Prop :=
  Contact.token_valid a = true /\
  (forall action, Contact.token_action a = Some action ->
                  action = Contact.RECAPTCHA_EXPECTED_ACTION) /\
  (forall score, Contact.risk_score a = Some score ->
                 PrimFloat.ltb score Contact.RECAPTCHA_MIN_SCORE = false).

Definition contact_settings : Contact.Settings :=
  {| Contact.RECAPTCHA_PROJECT_ID := js "cystem";
     Contact.RECAPTCHA_API_KEY := js "key";
     Contact.RECAPTCHA_SITE_KEY := js "site";
     Contact.MAIL_FROM := js " <noreply@projectcystem.org> ";
     Contact.SMTP_USER := [];
     Contact.MAIL_TO := [];
     Contact.SEND_CONFIRMATION_EMAIL := true |}.

Definition contact_services : Contact.Services :=
  {| Contact.createAssessment := fun _ =>
       Some {| Contact.token_valid := true;
               Contact.token_action := Some Contact.RECAPTCHA_EXPECTED_ACTION;
               Contact.risk_score := Some 0.75%float |};
     Contact.sendMail := fun _ => true;
     Contact.now_iso := js "2026-01-01T00:00:00.000Z" |}.

Definition contact_form : Contact.Form :=
  {| Contact.form_name := js "Ada";
     Contact.form_email := js "ada@example.org";
     Contact.form_message := js "What is insulin resistance?";
     Contact.form_captchaToken := js "token";
     Contact.form_hp_contact := [] |}.

Definition contact_form_bot : Contact.Form :=
  {| Contact.form_name := js "Ada";
     Contact.form_email := js "ada@example.org";
     Contact.form_message := js "What is insulin resistance?";
     Contact.form_captchaToken := js "token";
     Contact.form_hp_contact := js "http://spam.example" |}.

(** * Properties *)

Example blocked_metformin :
  isBlockedMedicalQuestion (js "What dosage of metformin should I take?") = true.
Proof. vm_compute. reflexivity. Qed.

Example not_blocked_inside_word :
  isBlockedMedicalQuestion (js "What is a megadose?") = false.
Proof. vm_compute. reflexivity. Qed.

Example blocked_second_pattern :
  pattern2 (js "How Much of it, in MG?") = true.
Proof. vm_compute. reflexivity. Qed.

Example tokenize_example :
  tokenize (js "  Hello, World!! it's a-b  PCOS 42x ")
  = [js "hello"; js "world"; js "pcos"; js "42x"].
Proof. vm_compute. reflexivity. Qed.

(** ** Guardrail and request validation *)

Lemma length_check_false (question : jsstring) :
  in_range question ->
  ((length question <? 4)%nat || (800 <? length question)%nat) = false.
Proof.
  intros [H1 H2]. apply orb_false_intro.
  - apply Nat.ltb_ge. exact H1.
  - apply Nat.ltb_ge. exact H2.
Qed.

Lemma length_check_true (question : jsstring) :
  (length question < 4 \/ 800 < length question)%nat ->
  ((length question <? 4)%nat || (800 <? length question)%nat) = true.
Proof.
  intros [H | H]; apply orb_true_iff; [left | right]; apply Nat.ltb_lt; exact H.
Qed.

(** The handler, one early return at a time. *)
Lemma chat_disabled (cfg : Config) (env : Env) (w : World) (q : jsstring) :
  CHATBOT_ENABLED cfg = false ->
  chat cfg env w q = (Failure 503 (js "Chatbot is currently disabled."), w).
Proof. intros Hen. unfold chat. rewrite Hen. reflexivity. Qed.

Lemma chat_length_error (cfg : Config) (env : Env) (w : World) (q : jsstring) :
  CHATBOT_ENABLED cfg = true ->
  (length (trim q) < 4 \/ 800 < length (trim q))%nat ->
  chat cfg env w q = (lengthError, w).
Proof.
  intros Hen Hlen. unfold chat.
  rewrite Hen, (length_check_true _ Hlen). reflexivity.
Qed.

Lemma chat_blocked (cfg : Config) (env : Env) (w : World) (q : jsstring) :
  CHATBOT_ENABLED cfg = true -> in_range (trim q) ->
  isBlockedMedicalQuestion (trim q) = true ->
  chat cfg env w q = (Answer refusalAnswer [] false, w).
Proof.
  intros Hen Hr Hb. unfold chat.
  rewrite Hen, (length_check_false _ Hr), Hb. reflexivity.
Qed.

Lemma chat_faq_hit (cfg : Config) (env : Env) (w : World) (q : jsstring) (faqHit : Faq) :
  CHATBOT_ENABLED cfg = true -> in_range (trim q) ->
  isBlockedMedicalQuestion (trim q) = false ->
  findFaqAnswer (ragFaqs cfg) (trim q) = Some faqHit ->
  chat cfg env w q
  = (Answer (faq_answer faqHit ++ faqSuffix) (faq_sources faqHit) false, w).
Proof.
  intros Hen Hr Hb Hf. unfold chat.
  rewrite Hen, (length_check_false _ Hr), Hb, Hf. reflexivity.
Qed.

Lemma chat_cache_hit (cfg : Config) (env : Env) (w w1 : World) (q : jsstring)
      (cached : CacheItem) :
  CHATBOT_ENABLED cfg = true -> in_range (trim q) ->
  isBlockedMedicalQuestion (trim q) = false ->
  findFaqAnswer (ragFaqs cfg) (trim q) = None ->
  getCachedAnswer cfg env w (normalizeText (trim q)) = (Some cached, w1) ->
  chat cfg env w q = (Answer (item_answer cached) (item_sources cached) true, w1).
Proof.
  intros Hen Hr Hb Hf Hc. unfold chat.
  rewrite Hen, (length_check_false _ Hr), Hb, Hf. cbn [negb]. cbv zeta.
  rewrite Hc. reflexivity.
Qed.

Lemma chat_not_configured (cfg : Config) (env : Env) (w w1 : World) (q : jsstring) :
  CHATBOT_ENABLED cfg = true -> in_range (trim q) ->
  isBlockedMedicalQuestion (trim q) = false ->
  findFaqAnswer (ragFaqs cfg) (trim q) = None ->
  getCachedAnswer cfg env w (normalizeText (trim q)) = (None, w1) ->
  OPENAI_API_KEY cfg = [] ->
  chat cfg env w q = (notConfigured, w1).
Proof.
  intros Hen Hr Hb Hf Hc Hkey. unfold chat.
  rewrite Hen, (length_check_false _ Hr), Hb, Hf. cbn [negb]. cbv zeta.
  rewrite Hc, Hkey. reflexivity.
Qed.

(** C1, as amended: a question whose trimmed text matches a guardrail
    pattern never changes the cache (neither the object in memory nor the
    file); when the chatbot is enabled and the trimmed text has between 4
    and 800 characters the response is the fixed refusal with an empty
    source list, whatever the cache and the indices hold. *)
Theorem guardrail_refusal_frame (cfg : Config) (env : Env) (w : World) (q : jsstring) :
  isBlockedMedicalQuestion (trim q) = true ->
  snd (chat cfg env w q) = w /\
  (CHATBOT_ENABLED cfg = true -> in_range (trim q) ->
   fst (chat cfg env w q) = Answer refusalAnswer [] false).
Proof.
  intros Hblocked. split.
  - destruct (CHATBOT_ENABLED cfg) eqn:Hen.
    + destruct (le_lt_dec 4 (length (trim q))) as [H4 | H4];
        [destruct (le_lt_dec (length (trim q)) 800) as [H8 | H8] |].
      * rewrite chat_blocked; [reflexivity | exact Hen | split; assumption | exact Hblocked].
      * rewrite chat_length_error; [reflexivity | exact Hen | right; exact H8].
      * rewrite chat_length_error; [reflexivity | exact Hen | left; exact H4].
    + rewrite chat_disabled; [reflexivity | exact Hen].
  - intros Hen Hr. rewrite chat_blocked; [reflexivity | assumption..].
Qed.

Lemma guardrail_refusal_frame_witness :
  chat cfg0 env0 world0 (js "What dosage of metformin should I take?")
  = (Answer refusalAnswer [] false, world0).
Proof.
  pose proof (guardrail_refusal_frame cfg0 env0 world0
                (js "What dosage of metformin should I take?")) as H.
  destruct H as [Hw Hr]; [vm_compute; reflexivity |].
  rewrite (surjective_pairing (chat _ _ _ _)).
  rewrite Hw, Hr; [reflexivity | reflexivity | vm_compute; split; lia].
Defined.

(** C1, as stated, fails: the two-character question "mg" matches the
    first pattern and is answered with the length error. *)
Lemma guardrail_short_question_counterexample :
  isBlockedMedicalQuestion (js "mg") = true /\
  fst (chat cfg0 env0 world0 (js "mg")) <> Answer refusalAnswer [] false.
Proof.
  split; [vm_compute; reflexivity |].
  vm_compute. intros H. discriminate H.
Qed.



(** ** Answer cache *)

Lemma saveChatCache_cache (env : Env) (w : World) :
  chatCache (saveChatCache env w) = chatCache w.
Proof. unfold saveChatCache. destruct (fs_writable env); reflexivity. Qed.

Lemma saveChatCache_file (env : Env) (w : World) :
  cacheFile (saveChatCache env w)
  = if fs_writable env then Some (chatCache w) else cacheFile w.
Proof. unfold saveChatCache. destruct (fs_writable env); reflexivity. Qed.

Lemma getCachedAnswer_fresh (cfg : Config) (env : Env) (w : World)
      (key : jsstring) (item : CacheItem) :
  chatCache w !! key = Some item ->
  (age env item <= ttlMs cfg)%Z ->
  getCachedAnswer cfg env w key = (Some item, w).
Proof.
  intros Hlook Hage. unfold getCachedAnswer. rewrite Hlook.
  fold (age env item).
  destruct (Z.ltb_spec (ttlMs cfg) (age env item)) as [Hlt | _]; [lia | reflexivity].
Qed.

Lemma getCachedAnswer_stale (cfg : Config) (env : Env) (w : World)
      (key : jsstring) (item : CacheItem) :
  chatCache w !! key = Some item ->
  (ttlMs cfg < age env item)%Z ->
  getCachedAnswer cfg env w key
  = (None, saveChatCache env {| chatCache := delete key (chatCache w);
                                cacheFile := cacheFile w |}).
Proof.
  intros Hlook Hage. unfold getCachedAnswer. rewrite Hlook.
  fold (age env item).
  destruct (Z.ltb_spec (ttlMs cfg) (age env item)) as [_ | Hge]; [reflexivity | lia].
Qed.

(** C2, as amended: an entry is returned by the cache read exactly when
    [now - timestamp <= TTL] (an entry aged exactly TTL is still served),
    and the handler then answers with it marked [cached: true]; an entry
    with [now - timestamp > TTL] is deleted from the cache object, the
    read reports the key as absent, and the cache without the entry is
    written to the cache file when that file can be written.  An entry
    written at T0 is returned at T0 + TTL - 1 and absent at T0 + TTL + 1. *)
Theorem cache_read_ttl (cfg : Config) (env : Env) (w : World)
        (key : jsstring) (item : CacheItem) :
  chatCache w !! key = Some item ->
  (fst (getCachedAnswer cfg env w key) = Some item <-> (age env item <= ttlMs cfg)%Z) /\
  ((age env item <= ttlMs cfg)%Z ->
   getCachedAnswer cfg env w key = (Some item, w) /\
   forall q, CHATBOT_ENABLED cfg = true -> in_range (trim q) ->
             isBlockedMedicalQuestion (trim q) = false ->
             findFaqAnswer (ragFaqs cfg) (trim q) = None ->
             normalizeText (trim q) = key ->
             chat cfg env w q = (Answer (item_answer item) (item_sources item) true, w)) /\
  ((ttlMs cfg < age env item)%Z ->
   let w' := snd (getCachedAnswer cfg env w key) in
   fst (getCachedAnswer cfg env w key) = None /\
   chatCache w' = delete key (chatCache w) /\
   chatCache w' !! key = None /\
   cacheFile w' = if fs_writable env then Some (delete key (chatCache w))
                  else cacheFile w) /\
  (now_at_read env = item_timestamp item + ttlMs cfg - 1 ->
   fst (getCachedAnswer cfg env w key) = Some item)%Z /\
  (now_at_read env = item_timestamp item + ttlMs cfg + 1 ->
   fst (getCachedAnswer cfg env w key) = None)%Z.
Proof.
  intros Hlook.
  assert (Hfresh : (age env item <= ttlMs cfg)%Z ->
                   getCachedAnswer cfg env w key = (Some item, w))
    by (apply getCachedAnswer_fresh; exact Hlook).
  assert (Hstale : (ttlMs cfg < age env item)%Z ->
                   fst (getCachedAnswer cfg env w key) = None)
    by (intros H; rewrite (getCachedAnswer_stale _ _ _ _ _ Hlook H); reflexivity).
  split; [| split; [| split; [| split]]].
  - split.
    + intros Hsome. destruct (Z.le_gt_cases (age env item) (ttlMs cfg)) as [H | H];
        [exact H |]. rewrite (Hstale H) in Hsome. discriminate.
    + intros H. rewrite (Hfresh H). reflexivity.
  - intros H. split; [exact (Hfresh H) |].
    intros q Hen Hr Hb Hf Hk.
    apply chat_cache_hit; try assumption. rewrite Hk. exact (Hfresh H).
  - intros H. cbv zeta. rewrite (getCachedAnswer_stale _ _ _ _ _ Hlook H).
    cbn [fst snd]. rewrite saveChatCache_cache, saveChatCache_file. cbn.
    split; [reflexivity |]. split; [reflexivity |].
    split; [apply lookup_delete_eq | reflexivity].
  - intros Hnow. rewrite Hfresh; [reflexivity |]. unfold age. lia.
  - intros Hnow. apply Hstale. unfold age. lia.
Qed.

Lemma cache_read_ttl_witness :
  fst (getCachedAnswer cfg0 (env_at 604800999) world1 (js "what is pcos"))
  = Some week_old_item /\
  fst (getCachedAnswer cfg0 (env_at 604801001) world1 (js "what is pcos")) = None.
Proof.
  split.
  - apply (cache_read_ttl cfg0 (env_at 604800999) world1 (js "what is pcos") week_old_item);
      [vm_compute; reflexivity | vm_compute; reflexivity].
  - apply (cache_read_ttl cfg0 (env_at 604801001) world1 (js "what is pcos") week_old_item);
      [vm_compute; reflexivity | vm_compute; reflexivity].
Defined.

(** C2, as stated, fails at the boundary: an entry whose age is exactly
    the TTL (so [now - timestamp < TTL] is false) is still returned. *)
Lemma cache_read_at_ttl_counterexample :
  ~ (age (env_at 604801000) week_old_item < ttlMs cfg0)%Z /\
  getCachedAnswer cfg0 (env_at 604801000) world1 (js "what is pcos")
  = (Some week_old_item, world1).
Proof.
  split; [vm_compute; intros H; discriminate H |].
  vm_compute. reflexivity.
Qed.

(** ** Retrieval mode selection *)

Lemma js_sort_nil {A : Type} (after : A -> A -> bool) : js_sort after [] = [].
Proof. reflexivity. Qed.

Lemma keyword_items_no_docs (q : jsstring) (limit : nat) : keyword_items [] q limit = [].
Proof.
  unfold keyword_items, retrieveByKeyword.
  destruct (size (tokenSet q) =? 0)%nat; [reflexivity |].
  unfold keyword_candidates. simpl. destruct limit; reflexivity.
Qed.

Lemma vector_scored_none (docs : list Doc) (emb : gmap jsstring (list float))
      (qe : list float) :
  (forall doc vector, doc ∈ docs -> emb !! doc_id doc = Some vector ->
                      PrimFloat.ltb 0 (cosineSimilarity qe vector) = false) ->
  vector_scored docs emb qe = [].
Proof.
  intros Hnone. unfold vector_scored.
  induction docs as [| doc docs IH]; [reflexivity |].
  simpl. rewrite IH.
  - destruct (emb !! doc_id doc) as [vector |] eqn:Hv; [| reflexivity].
    rewrite (Hnone doc vector); [reflexivity | left | exact Hv].
  - intros d v Hd. apply Hnone. right. exact Hd.
Qed.

Lemma retrieveContext_without_key (cfg : Config) (env : Env) (q : jsstring) (limit : nat) :
  OPENAI_API_KEY cfg = [] ->
  retrieveContext cfg env q limit = keyword_items (ragDocuments cfg) q limit.
Proof.
  intros Hkey. unfold retrieveContext, vector_mode. rewrite Hkey. simpl.
  destruct (ragDocuments cfg) as [| d docs] eqn:Hdocs; simpl.
  - symmetry. apply keyword_items_no_docs.
  - reflexivity.
Qed.

(** C10: with an API key and a non-empty embedding index, when the query
    embedding is obtained and no indexed document scores above 0, the
    result of [retrieveContext] is the keyword retrieval of the question. *)
Theorem vector_pass_empty_falls_back (cfg : Config) (env : Env) (q : jsstring)
        (limit : nat) (emb : gmap jsstring (list float)) (qe : list float) :
  OPENAI_API_KEY cfg <> [] ->
  ragEmbeddingsById cfg = Some emb ->
  size emb <> 0%nat ->
  getEmbedding env q = Some qe ->
  (forall doc vector, doc ∈ ragDocuments cfg -> emb !! doc_id doc = Some vector ->
                      PrimFloat.ltb 0 (cosineSimilarity qe vector) = false) ->
  retrieveContext cfg env q limit = keyword_items (ragDocuments cfg) q limit.
Proof.
  intros Hkey Hemb Hsize Hq Hnone. unfold retrieveContext.
  destruct (length (ragDocuments cfg) =? 0)%nat eqn:Hdocs.
  - apply Nat.eqb_eq in Hdocs. apply nil_length_inv in Hdocs. rewrite Hdocs.
    symmetry. apply keyword_items_no_docs.
  - unfold vector_mode, truthy. rewrite Hemb.
    destruct (OPENAI_API_KEY cfg) as [| c k]; [contradiction |]. simpl.
    destruct (size emb =? 0)%nat eqn:Hs; [apply Nat.eqb_eq in Hs; contradiction |].
    rewrite Hq, (vector_scored_none _ _ _ Hnone). reflexivity.
Qed.

Lemma vector_pass_empty_falls_back_witness :
  retrieveContext cfg_vectors env_orthogonal (js "what is pcos") 2
  = [(pcos_doc, Ratio (1 # 2))].
Proof.
  rewrite (vector_pass_empty_falls_back cfg_vectors env_orthogonal (js "what is pcos") 2
             {[ js "overview-1" := [1%float; 0%float] ]} [0%float; 1%float]).
  - vm_compute. reflexivity.
  - vm_compute. intros H. discriminate H.
  - reflexivity.
  - vm_compute. intros H. discriminate H.
  - reflexivity.
  - intros doc vector Hdoc Hv.
    apply list_elem_of_singleton in Hdoc. subst doc.
    vm_compute in Hv. injection Hv as <-. vm_compute. reflexivity.
Defined.

(** ** Missing provider credentials *)

(** C4, as amended: without an API key the guardrail refusal, the FAQ
    shortcut and the cache read still answer, and [retrieveContext] itself
    reduces to keyword retrieval; but a question that misses guardrail,
    FAQ and cache is answered with the 503 configuration error, before any
    retrieval, and nothing is written to the cache. *)
Theorem no_key_paths (cfg : Config) (env : Env) (w : World) (q : jsstring) :
  OPENAI_API_KEY cfg = [] ->
  CHATBOT_ENABLED cfg = true ->
  in_range (trim q) ->
  (isBlockedMedicalQuestion (trim q) = true ->
   chat cfg env w q = (Answer refusalAnswer [] false, w)) /\
  (forall faqHit,
      isBlockedMedicalQuestion (trim q) = false ->
      findFaqAnswer (ragFaqs cfg) (trim q) = Some faqHit ->
      chat cfg env w q
      = (Answer (faq_answer faqHit ++ faqSuffix) (faq_sources faqHit) false, w)) /\
  (forall cached w1,
      isBlockedMedicalQuestion (trim q) = false ->
      findFaqAnswer (ragFaqs cfg) (trim q) = None ->
      getCachedAnswer cfg env w (normalizeText (trim q)) = (Some cached, w1) ->
      chat cfg env w q = (Answer (item_answer cached) (item_sources cached) true, w1)) /\
  (forall w1,
      isBlockedMedicalQuestion (trim q) = false ->
      findFaqAnswer (ragFaqs cfg) (trim q) = None ->
      getCachedAnswer cfg env w (normalizeText (trim q)) = (None, w1) ->
      chat cfg env w q = (notConfigured, w1)) /\
  (forall limit,
      retrieveContext cfg env (trim q) limit
      = keyword_items (ragDocuments cfg) (trim q) limit).
Proof.
  intros Hkey Hen Hr.
  split; [intros Hb; apply chat_blocked; assumption |].
  split; [intros faqHit Hb Hf; apply chat_faq_hit; assumption |].
  split; [intros cached w1 Hb Hf Hc; apply chat_cache_hit; assumption |].
  split; [intros w1 Hb Hf Hc; apply chat_not_configured; assumption |].
  intros limit. apply retrieveContext_without_key. exact Hkey.
Qed.

Lemma no_key_paths_witness :
  chat cfg_no_key env0 world0 (js "What dosage of metformin should I take?")
  = (Answer refusalAnswer [] false, world0).
Proof.
  apply (no_key_paths cfg_no_key env0 world0 (js "What dosage of metformin should I take?")).
  - reflexivity.
  - reflexivity.
  - vm_compute. split; lia.
  - vm_compute. reflexivity.
Defined.

(** C4, as stated, fails: without an API key the question "what is pcos"
    misses guardrail, FAQ and cache, keyword retrieval would find a
    document for it, and the handler answers with the configuration error. *)
Lemma no_key_configuration_error_counterexample :
  isBlockedMedicalQuestion (js "what is pcos") = false /\
  findFaqAnswer (ragFaqs cfg_no_key) (js "what is pcos") = None /\
  fst (getCachedAnswer cfg_no_key env0 world0 (normalizeText (js "what is pcos"))) = None /\
  retrieveByKeyword (ragDocuments cfg_no_key) (js "what is pcos") 2 = [(pcos_doc, 1 # 2)] /\
  chat cfg_no_key env0 world0 (js "what is pcos") = (notConfigured, world0).
Proof.
  repeat split; vm_compute; reflexivity.
Qed.

(** ** Cosine similarity *)

Section Cosine.
Local Open Scope float_scope.

Lemma float_mul_comm (x y : float) : x * y = y * x.
Proof.
  apply Prim2SF_inj. rewrite !mul_spec. unfold SF64mul.
  destruct (Prim2SF x) as [sx | sx | | sx mx ex], (Prim2SF y) as [sy | sy | | sy my ey];
    simpl; try reflexivity; try (rewrite xorb_comm; reflexivity).
  rewrite xorb_comm, Pos.mul_comm, Z.add_comm. reflexivity.
Qed.

Lemma float_div_self (x : float) : finite_nonzero x = true -> x / x = 1.
Proof.
  unfold finite_nonzero. intros Hfin.
  apply Prim2SF_inj. rewrite div_spec. unfold SF64div.
  destruct (Prim2SF x) as [| | | s m e]; try discriminate Hfin.
  unfold SFdiv, SFdiv_core_binary.
  rewrite !Z.sub_diag.
  change (Z.min (fexp prec emax 0) 0) with (-53)%Z.
  change (0 - -53)%Z with 53%Z. cbv iota.
  rewrite Z.shiftl_mul_pow2 by discriminate.
  pose proof (Z.div_mul (2 ^ 53) (Z.pos m)) as Hq.
  pose proof (Z.mod_mul (2 ^ 53) (Z.pos m)) as Hr.
  unfold Z.div, Z.modulo in Hq, Hr.
  rewrite (Z.mul_comm (Z.pos m) (2 ^ 53)).
  destruct (Z.div_eucl (2 ^ 53 * Z.pos m) (Z.pos m)) as [q r].
  cbn [fst snd] in Hq, Hr.
  rewrite Hq, Hr by discriminate.
  assert (Hloc : new_location (Z.pos m) 0 = loc_Exact).
  { unfold new_location, new_location_even, new_location_odd.
    destruct (Z.even (Z.pos m)); reflexivity. }
  rewrite Hloc. destruct s; vm_compute; reflexivity.
Qed.

Lemma finite_nonzero_truthy (x : float) : finite_nonzero x = true -> falsy x = false.
Proof.
  unfold finite_nonzero, falsy, PrimFloat.is_nan. intros Hfin.
  rewrite !FloatAxioms.eqb_spec.
  change (Prim2SF 0) with (S754_zero false).
  destruct (Prim2SF x) as [| | | s m e]; try discriminate Hfin.
  unfold SFeqb, SFcompare.
  destruct s; rewrite Z.compare_refl, Pos.compare_cont_refl; reflexivity.
Qed.

Lemma cosine_loop_swap (a b : list float) (acc : float * float * float) :
  cosine_loop b a (swap_norms acc) = swap_norms (cosine_loop a b acc).
Proof.
  revert b acc. induction a as [| x a IH]; intros [| y b] [[d na] nb]; try reflexivity.
  cbn [cosine_loop]. rewrite <- IH. cbn [swap_norms].
  rewrite (float_mul_comm y x). reflexivity.
Qed.

Lemma cosine_loop_spec (a b : list float) (d na nb : float) :
  length a = length b ->
  cosine_loop a b (d, na, nb) = (dot_from d a b, sum_squares na a, sum_squares nb b).
Proof.
  revert b d na nb. induction a as [| x a IH]; intros [| y b] d na nb Hlen;
    try discriminate Hlen; [reflexivity |].
  cbn [cosine_loop]. rewrite IH by (injection Hlen as Hlen; exact Hlen).
  reflexivity.
Qed.

Lemma cosine_loop_self (a : list float) (acc : float) :
  cosine_loop a a (acc, acc, acc)
  = (sum_squares acc a, sum_squares acc a, sum_squares acc a).
Proof.
  revert acc. induction a as [| x a IH]; intros acc; [reflexivity |].
  cbn [cosine_loop]. rewrite IH. reflexivity.
Qed.

Lemma cosineSimilarity_comm (a b : list float) :
  cosineSimilarity a b = cosineSimilarity b a.
Proof.
  unfold cosineSimilarity.
  rewrite (Nat.eqb_sym (length b) (length a)).
  destruct (length a =? length b)%nat eqn:Hlen; [| reflexivity].
  apply Nat.eqb_eq in Hlen. rewrite <- Hlen. cbn [negb orb].
  destruct (length a =? 0)%nat; [reflexivity |].
  change (0, 0, 0) with (swap_norms (0, 0, 0)) at 2.
  rewrite cosine_loop_swap.
  destruct (cosine_loop a b (0, 0, 0)) as [[d na] nb]. cbn [swap_norms].
  rewrite (orb_comm (falsy nb)), (float_mul_comm (PrimFloat.sqrt nb)). reflexivity.
Qed.

Lemma cosineSimilarity_degenerate (a b : list float) :
  length a <> length b \/ a = [] \/ b = [] \/
  falsy (norm2 a) = true \/ falsy (norm2 b) = true ->
  cosineSimilarity a b = -1.
Proof.
  intros H. unfold cosineSimilarity.
  destruct (length a =? length b)%nat eqn:Hlen; [| reflexivity].
  apply Nat.eqb_eq in Hlen. cbn [negb orb].
  destruct (length a =? 0)%nat eqn:Ha; [reflexivity |].
  apply Nat.eqb_neq in Ha.
  rewrite (cosine_loop_spec a b 0 0 0 Hlen). fold (norm2 a) (norm2 b).
  destruct H as [H | [H | [H | [H | H]]]].
  - contradiction.
  - subst a. contradiction.
  - subst b. simpl in Hlen. contradiction.
  - rewrite H. reflexivity.
  - rewrite H, orb_true_r. reflexivity.
Qed.

Lemma cosineSimilarity_self (a : list float) :
  a <> [] -> falsy (norm2 a) = false ->
  cosineSimilarity a a
  = norm2 a / (PrimFloat.sqrt (norm2 a) * PrimFloat.sqrt (norm2 a)).
Proof.
  intros Ha Hn. unfold cosineSimilarity.
  rewrite Nat.eqb_refl. cbn [negb orb].
  destruct (length a =? 0)%nat eqn:Hl.
  - apply Nat.eqb_eq, nil_length_inv in Hl. contradiction.
  - rewrite cosine_loop_self. fold (norm2 a). rewrite Hn. reflexivity.
Qed.

End Cosine.




(** ** Token overlap *)

Lemma count_overlap_from (d : gset jsstring) (l : list jsstring) (n : nat) :
  foldl (fun overlap token =>
           if bool_decide (token ∈ d) then S overlap else overlap) n l
  = (n + length (filter (fun token => token ∈ d) l))%nat.
Proof.
  revert n. induction l as [| t l IH]; intros n; simpl.
  - lia.
  - rewrite IH. rewrite filter_cons.
    destruct (decide (t ∈ d)) as [Hin | Hout].
    + rewrite bool_decide_eq_true_2 by exact Hin. simpl. lia.
    + rewrite bool_decide_eq_false_2 by exact Hout. reflexivity.
Qed.

(** The counting loop computes the size of the intersection. *)
Lemma count_overlap_size (q d : gset jsstring) : count_overlap q d = size (q ∩ d).
Proof.
  unfold count_overlap. rewrite count_overlap_from. simpl.
  unfold size, set_size. simpl.
  apply Permutation_length, NoDup_Permutation.
  - apply NoDup_filter, NoDup_elements.
  - apply NoDup_elements.
  - intros t. rewrite list_elem_of_filter, !elem_of_elements, elem_of_intersection.
    tauto.
Qed.

Lemma ratio_zero (den : nat) : (ratio 0 den == 0)%Q.
Proof. unfold ratio. reflexivity. Qed.

Lemma ratio_nonneg (num den : nat) : (0 <= ratio num den)%Q.
Proof. unfold ratio, Qle. simpl. lia. Qed.

Lemma Qlt_bool_iff (x y : Q) : Qlt_bool x y = true <-> (x < y)%Q.
Proof.
  unfold Qlt_bool. rewrite negb_true_iff. split.
  - intros H. apply Qnot_le_lt. intros Hle.
    apply Qle_bool_iff in Hle. congruence.
  - intros H. destruct (Qle_bool y x) eqn:Hle; [| reflexivity].
    apply Qle_bool_iff in Hle. exfalso. exact (Qlt_not_le _ _ H Hle).
Qed.

Lemma Qlt_bool_false_iff (x y : Q) : Qlt_bool x y = false <-> (y <= x)%Q.
Proof.
  unfold Qlt_bool. rewrite negb_false_iff. apply Qle_bool_iff.
Qed.

(** ** FAQ matcher *)

Lemma faq_score_spec (query prompt : jsstring) :
  faq_score (tokenSet query) (tokenSet prompt) = spec_faq_score query prompt.
Proof. unfold faq_score, spec_faq_score. rewrite count_overlap_size. reflexivity. Qed.

Lemma spec_faq_score_no_tokens (query prompt : jsstring) :
  size (tokenSet query) = 0%nat \/ size (tokenSet prompt) = 0%nat ->
  (spec_faq_score query prompt == 0)%Q.
Proof.
  intros H. unfold spec_faq_score.
  assert (Hz : size (tokenSet query ∩ tokenSet prompt) = 0%nat).
  { apply size_empty_iff, elem_of_equiv_empty. intros t Ht.
    apply elem_of_intersection in Ht as [Hq Hp].
    destruct H as [H | H]; apply size_empty_iff in H;
      rewrite elem_of_equiv_empty in H.
    - exact (H t Hq).
    - exact (H t Hp). }
  rewrite Hz. apply ratio_zero.
Qed.

Lemma faq_scan_pairs (qTokens : gset jsstring) (faqs : list Faq) (st : option Faq * Q) :
  faq_scan qTokens faqs st = foldl (pair_step qTokens) st (faq_pairs faqs).
Proof.
  unfold faq_scan. revert st. induction faqs as [| faq faqs IH]; intros st; [reflexivity |].
  simpl. rewrite foldl_app, IH. f_equal.
  generalize (faq_prompts faq) as prompts. clear.
  intros prompts. revert st. induction prompts as [| p prompts IH]; intros st;
    [reflexivity | simpl; rewrite IH; reflexivity].
Qed.

Lemma elem_of_faq_pairs (faqs : list Faq) (faq : Faq) (prompt : jsstring) :
  (faq, prompt) ∈ faq_pairs faqs <-> faq ∈ faqs /\ prompt ∈ faq_prompts faq.
Proof.
  unfold faq_pairs. rewrite !list_elem_of_In, in_flat_map. split.
  - intros (f & Hf & Hp). apply in_map_iff in Hp as (p & Heq & Hp).
    injection Heq as Hfaq Hprompt. subst f p.
    split; assumption.
  - intros [Hf Hp]. exists faq.
    split; [exact Hf |]. apply in_map_iff. eauto.
Qed.

Lemma pair_step_invariant (query : jsstring) (seen : list (Faq * jsstring))
      (st : option Faq * Q) (fp : Faq * jsstring) :
  scan_invariant query seen st ->
  scan_invariant query (seen ++ [fp]) (pair_step (tokenSet query) st fp).
Proof.
  intros (Hpos & Hmax & Hbest). destruct fp as [faq prompt].
  unfold pair_step, faq_prompt_step. cbn [fst snd]. rewrite faq_score_spec.
  assert (Hkeep : (spec_faq_score query prompt <= snd st)%Q ->
                  scan_invariant query (seen ++ [(faq, prompt)]) st).
  { intros Hle. split; [exact Hpos |]. split.
    - intros fp Hin. apply elem_of_app in Hin as [Hin | Hin]; [auto |].
      apply list_elem_of_singleton in Hin. subst fp. exact Hle.
    - destruct (fst st) as [best |]; [| exact Hbest].
      destruct Hbest as (p & Hin & Hrest). exists p.
      split; [apply elem_of_app; left; exact Hin | exact Hrest]. }
  destruct (size (tokenSet prompt) =? 0)%nat eqn:Hsize.
  - apply Hkeep. apply Nat.eqb_eq in Hsize.
    rewrite (spec_faq_score_no_tokens query prompt) by (right; exact Hsize).
    exact Hpos.
  - destruct (Qlt_bool (snd st) (spec_faq_score query prompt)) eqn:Hlt.
    + apply Qlt_bool_iff in Hlt. split; [| split]; cbn [fst snd].
      * apply Qlt_le_weak, (Qle_lt_trans _ _ _ Hpos Hlt).
      * intros fp Hin. apply elem_of_app in Hin as [Hin | Hin].
        -- apply Qlt_le_weak, (Qle_lt_trans _ (snd st)); auto.
        -- apply list_elem_of_singleton in Hin. subst fp. apply Qle_refl.
      * exists prompt. split; [apply elem_of_app; right; left |].
        split; [reflexivity | exact (Qle_lt_trans _ _ _ Hpos Hlt)].
    + apply Hkeep. apply Qlt_bool_false_iff. exact Hlt.
Qed.

Lemma foldl_pair_step_invariant (query : jsstring) (todo seen : list (Faq * jsstring))
      (st : option Faq * Q) :
  scan_invariant query seen st ->
  scan_invariant query (seen ++ todo) (foldl (pair_step (tokenSet query)) st todo).
Proof.
  revert seen st. induction todo as [| fp todo IH]; intros seen st Hinv; simpl.
  - rewrite app_nil_r. exact Hinv.
  - replace (seen ++ fp :: todo) with ((seen ++ [fp]) ++ todo)
      by (rewrite <- app_assoc; reflexivity).
    apply IH, pair_step_invariant, Hinv.
Qed.

Lemma faq_scan_invariant (query : jsstring) (faqs : list Faq) :
  scan_invariant query (faq_pairs faqs) (faq_scan (tokenSet query) faqs (None, 0%Q)).
Proof.
  rewrite faq_scan_pairs.
  apply (foldl_pair_step_invariant query (faq_pairs faqs) [] (None, 0%Q)).
  split; [apply Qle_refl |]. split; [| reflexivity].
  intros fp Hin. inversion Hin.
Qed.

Lemma findFaqAnswer_some (faqs : list Faq) (query : jsstring) (best : Faq) :
  findFaqAnswer faqs query = Some best ->
  best ∈ faqs /\
  exists prompt, prompt ∈ faq_prompts best /\
    (7 # 10 <= spec_faq_score query prompt)%Q /\
    forall faq p, faq ∈ faqs -> p ∈ faq_prompts faq ->
                  (spec_faq_score query p <= spec_faq_score query prompt)%Q.
Proof.
  unfold findFaqAnswer. intros Hfind.
  destruct (size (tokenSet query) =? 0)%nat; [discriminate |].
  pose proof (faq_scan_invariant query faqs) as (_ & Hmax & Hbest).
  destruct (faq_scan (tokenSet query) faqs (None, 0%Q)) as [[b |] bestScore];
    [| discriminate].
  cbn [fst snd] in *.
  destruct (Qle_bool (7 # 10) bestScore) eqn:Hle; [| discriminate].
  injection Hfind as ->. apply Qle_bool_iff in Hle.
  destruct Hbest as (prompt & Hin & Hscore & _).
  apply elem_of_faq_pairs in Hin as [Hf Hp].
  split; [exact Hf |]. exists prompt. split; [exact Hp |].
  rewrite <- Hscore. split; [exact Hle |].
  intros faq p Hfaq Hprompt.
  apply (Hmax (faq, p)). apply elem_of_faq_pairs. auto.
Qed.

Lemma findFaqAnswer_none (faqs : list Faq) (query : jsstring) :
  findFaqAnswer faqs query = None <->
  forall faq p, faq ∈ faqs -> p ∈ faq_prompts faq ->
                (spec_faq_score query p < 7 # 10)%Q.
Proof.
  split.
  - unfold findFaqAnswer. intros Hfind faq p Hfaq Hprompt.
    destruct (size (tokenSet query) =? 0)%nat eqn:Hsize.
    { apply Nat.eqb_eq in Hsize.
      rewrite (spec_faq_score_no_tokens query p) by (left; exact Hsize).
      reflexivity. }
    pose proof (faq_scan_invariant query faqs) as (_ & Hmax & Hbest).
    assert (Hle := Hmax (faq, p) (proj2 (elem_of_faq_pairs _ _ _) (conj Hfaq Hprompt))).
    destruct (faq_scan (tokenSet query) faqs (None, 0%Q)) as [[b |] bestScore];
      cbn [fst snd] in *.
    + destruct (Qle_bool (7 # 10) bestScore) eqn:Hb; [discriminate |].
      apply (Qle_lt_trans _ _ _ Hle). apply Qlt_bool_iff.
      unfold Qlt_bool. rewrite Hb. reflexivity.
    + subst bestScore. apply (Qle_lt_trans _ _ _ Hle). reflexivity.
  - intros Hall. destruct (findFaqAnswer faqs query) as [best |] eqn:Hfind;
      [| reflexivity].
    apply findFaqAnswer_some in Hfind as (Hf & prompt & Hp & Hle & _).
    exfalso. exact (Qlt_not_le _ _ (Hall best prompt Hf Hp) Hle).
Qed.

(** C5: the score the matcher computes for a query and a prompt is the
    number of shared tokens over the size of the larger token set; the
    entry it returns has a prompt whose score is at least 0.7 and is the
    best score over all entries and prompts (so a best score of exactly
    0.7 is accepted); and it returns nothing exactly when every score is
    below 0.7. *)
Theorem faq_matcher_threshold (faqs : list Faq) (query : jsstring) :
  (forall prompt,
      faq_score (tokenSet query) (tokenSet prompt) = spec_faq_score query prompt) /\
  (forall best,
      findFaqAnswer faqs query = Some best ->
      best ∈ faqs /\
      exists prompt, prompt ∈ faq_prompts best /\
        (7 # 10 <= spec_faq_score query prompt)%Q /\
        forall faq p, faq ∈ faqs -> p ∈ faq_prompts faq ->
                      (spec_faq_score query p <= spec_faq_score query prompt)%Q) /\
  (findFaqAnswer faqs query = None <->
   forall faq p, faq ∈ faqs -> p ∈ faq_prompts faq ->
                 (spec_faq_score query p < 7 # 10)%Q).
Proof.
  split; [intros prompt; apply faq_score_spec |].
  split; [intros best; apply findFaqAnswer_some | apply findFaqAnswer_none].
Qed.

Lemma faq_matcher_threshold_witness :
  findFaqAnswer [faq_two; faq_seven] ten_word_query = Some faq_seven /\
  exists prompt, prompt ∈ faq_prompts faq_seven /\
                 (7 # 10 <= spec_faq_score ten_word_query prompt)%Q.
Proof.
  assert (H : findFaqAnswer [faq_two; faq_seven] ten_word_query = Some faq_seven)
    by (vm_compute; reflexivity).
  split; [exact H |].
  destruct (faq_matcher_threshold [faq_two; faq_seven] ten_word_query) as (_ & Hsome & _).
  destruct (Hsome faq_seven H) as (_ & prompt & Hp & Hle & _).
  exists prompt. split; assumption.
Defined.

Example faq_exactly_seven_tenths :
  spec_faq_score ten_word_query (js "Alpha, bravo, charlie; delta echoes foxtrot golfing?")
  = 7 # 10.
Proof. vm_compute. reflexivity. Qed.

Example faq_two_thirds_rejected :
  spec_faq_score (js "alpha bravo charlie") (js "alpha bravo zulu") = 2 # 3 /\
  findFaqAnswer [faq_two] (js "alpha bravo charlie") = None.
Proof. split; vm_compute; reflexivity. Qed.

(** ** Sorting by a rational key *)

Section KeySort.
Context {A : Type} (key : A -> Q).

Local Abbreviation after := (after_key key).
Local Abbreviation ordered := (descending key).
Local Abbreviation same := (same_key key).

Lemma sort_insert_perm (x : A) (l : list A) : sort_insert after x l ≡ₚ x :: l.
Proof.
  induction l as [| y l IH]; simpl; [reflexivity |].
  destruct (after x y); [| reflexivity].
  rewrite IH. apply Permutation_swap.
Qed.

Lemma js_sort_perm (l : list A) : js_sort after l ≡ₚ l.
Proof.
  induction l as [| x l IH]; simpl; [reflexivity |].
  rewrite sort_insert_perm, IH. reflexivity.
Qed.

Lemma sort_insert_HdRel (x y : A) (l : list A) :
  ordered y x -> HdRel ordered y l -> HdRel ordered y (sort_insert after x l).
Proof.
  intros Hyx Hhd. destruct l as [| z l]; simpl; [constructor; exact Hyx |].
  destruct (after x z).
  - constructor. inversion Hhd; assumption.
  - constructor. exact Hyx.
Qed.

Lemma sort_insert_sorted (x : A) (l : list A) :
  Sorted ordered l -> Sorted ordered (sort_insert after x l).
Proof.
  induction l as [| y l IH]; intros Hs; simpl.
  - constructor; constructor.
  - inversion Hs as [| ? ? Hl Hhd]; subst.
    destruct (after x y) eqn:Hxy.
    + constructor; [apply IH; exact Hl |].
      apply sort_insert_HdRel; [| exact Hhd].
      apply Qlt_le_weak, Qlt_bool_iff. exact Hxy.
    + constructor; [exact Hs |]. constructor.
      apply Qlt_bool_false_iff. exact Hxy.
Qed.

Lemma js_sort_sorted (l : list A) : StronglySorted ordered (js_sort after l).
Proof.
  apply Sorted_StronglySorted.
  - intros a b c Hab Hbc. unfold descending in *. exact (Qle_trans _ _ _ Hbc Hab).
  - induction l as [| x l IH]; simpl; [constructor |].
    apply sort_insert_sorted, IH.
Qed.

(** Stability: the elements of any one key keep their relative order. *)
Lemma sort_insert_stable (s : Q) (x : A) (l : list A) :
  List.filter (same s) (sort_insert after x l)
  = List.filter (same s) (x :: l).
Proof.
  induction l as [| y l IH]; [reflexivity |].
  cbn [sort_insert]. destruct (after x y) eqn:Hxy; [| reflexivity].
  cbn [List.filter] in *. rewrite IH.
  destruct (same s x) eqn:Hx, (same s y) eqn:Hy; try reflexivity.
  exfalso. apply Qlt_bool_iff in Hxy.
  apply Qeq_bool_iff in Hx, Hy. rewrite Hx, Hy in Hxy.
  exact (Qlt_irrefl _ Hxy).
Qed.

Lemma js_sort_stable (s : Q) (l : list A) :
  List.filter (same s) (js_sort after l) = List.filter (same s) l.
Proof.
  induction l as [| x l IH]; [reflexivity |].
  cbn [js_sort foldr]. fold (js_sort after l).
  rewrite sort_insert_stable. cbn [List.filter]. rewrite IH. reflexivity.
Qed.

End KeySort.

(** ** Tokens *)

Lemma space_is_space : is_space space = true.
Proof. reflexivity. Qed.

Lemma split_char_elem (sep c : ascii) (s piece : jsstring) :
  piece ∈ split_char sep s -> c ∈ piece -> c ∈ s /\ c <> sep.
Proof.
  revert piece. induction s as [| x s IH]; intros piece Hpiece Hc; simpl in Hpiece.
  - apply list_elem_of_singleton in Hpiece. subst piece. inversion Hc.
  - destruct (Ascii.eqb x sep) eqn:Hx.
    + apply elem_of_cons in Hpiece as [-> | Hpiece]; [inversion Hc |].
      destruct (IH piece Hpiece Hc) as [Hin Hne]. split; [right; exact Hin | exact Hne].
    + apply Ascii.eqb_neq in Hx.
      destruct (split_char sep s) as [| h t] eqn:Hsplit.
      * apply list_elem_of_singleton in Hpiece. subst piece.
        apply list_elem_of_singleton in Hc. subst c. split; [left | exact Hx].
      * apply elem_of_cons in Hpiece as [-> | Hpiece].
        -- apply elem_of_cons in Hc as [-> | Hc]; [split; [left | exact Hx] |].
           destruct (IH h (ltac:(left)) Hc) as [Hin Hne].
           split; [right; exact Hin | exact Hne].
        -- destruct (IH piece (ltac:(right; exact Hpiece)) Hc) as [Hin Hne].
           split; [right; exact Hin | exact Hne].
Qed.

Lemma collapse_spaces_elem (in_run : bool) (c : ascii) (s : jsstring) :
  c ∈ collapse_spaces in_run s -> c = space \/ (c ∈ s /\ is_space c = false).
Proof.
  revert in_run. induction s as [| x s IH]; intros in_run Hc; simpl in Hc.
  - inversion Hc.
  - assert (Hrec : forall b, c ∈ collapse_spaces b s ->
                             c = space \/ (c ∈ x :: s /\ is_space c = false)).
    { intros b Hb. destruct (IH b Hb) as [H | [H1 H2]]; [left; exact H |].
      right. split; [right; exact H1 | exact H2]. }
    destruct (is_space x) eqn:Hx.
    + destruct in_run; [exact (Hrec _ Hc) |].
      apply elem_of_cons in Hc as [-> | Hc]; [left; reflexivity | exact (Hrec _ Hc)].
    + apply elem_of_cons in Hc as [-> | Hc]; [| exact (Hrec _ Hc)].
      right. split; [left | exact Hx].
Qed.

Lemma trimStart_elem (c : ascii) (s : jsstring) : c ∈ trimStart s -> c ∈ s.
Proof.
  induction s as [| x s IH]; simpl; [trivial |].
  destruct (is_space x); [intros H; right; exact (IH H) | trivial].
Qed.

Lemma trim_elem (c : ascii) (s : jsstring) : c ∈ trim s -> c ∈ s.
Proof.
  unfold trim, trimEnd. intros H.
  apply list_elem_of_In, in_rev, list_elem_of_In, trimStart_elem in H.
  apply list_elem_of_In, in_rev, list_elem_of_In in H.
  apply trimStart_elem. exact H.
Qed.

Lemma keep_alnum_space_class (c : ascii) :
  keep_alnum_space c = space \/ lower_alnum (keep_alnum_space c) = true \/
  is_space (keep_alnum_space c) = true.
Proof.
  unfold keep_alnum_space.
  destruct (is_lower c || is_digit c || is_space c) eqn:H; [| left; reflexivity].
  right. unfold lower_alnum.
  apply orb_true_iff in H as [H | H]; [left; exact H | right; exact H].
Qed.

Lemma normalizeText_elem (c : ascii) (value : jsstring) :
  c ∈ normalizeText value -> c = space \/ lower_alnum c = true.
Proof.
  unfold normalizeText. intros H. apply trim_elem, collapse_spaces_elem in H.
  destruct H as [H | [Hin Hspace]]; [left; exact H |].
  apply list_elem_of_fmap in Hin as (x & -> & _).
  destruct (keep_alnum_space_class x) as [H | [H | H]].
  - left. exact H.
  - right. exact H.
  - rewrite H in Hspace. discriminate.
Qed.

Lemma tokenize_tokens (value token : jsstring) :
  token ∈ tokenize value ->
  (2 < length token)%nat /\ Forall (fun c => lower_alnum c = true) token.
Proof.
  unfold tokenize. intros H. apply list_elem_of_filter in H as [Hlen Hsplit].
  split; [exact Hlen |]. apply Forall_forall. intros c Hc.
  destruct (split_char_elem space c _ _ Hsplit Hc) as [Hin Hne].
  destruct (normalizeText_elem c value Hin) as [H | H]; [contradiction | exact H].
Qed.

(** ** Keyword retrieval *)

Lemma keyword_score_spec (query : jsstring) (doc : Doc) :
  keyword_score (tokenSet query) doc = spec_keyword_score query doc.
Proof. unfold keyword_score, spec_keyword_score. rewrite count_overlap_size. reflexivity. Qed.

Lemma keyword_candidates_spec (docs : list Doc) (query : jsstring) :
  keyword_candidates docs (tokenSet query) = spec_keyword_candidates docs query.
Proof.
  unfold keyword_candidates, spec_keyword_candidates. f_equal.
  apply map_ext. intros doc. rewrite keyword_score_spec. reflexivity.
Qed.

Lemma spec_keyword_candidates_no_tokens (docs : list Doc) (query : jsstring) :
  size (tokenSet query) = 0%nat -> spec_keyword_candidates docs query = [].
Proof.
  intros Hsize. unfold spec_keyword_candidates.
  induction docs as [| doc docs IH]; [reflexivity |].
  cbn [map List.filter snd]. rewrite IH.
  assert (Hz : size (tokenSet query ∩ tokenSet (sourceText doc)) = 0%nat).
  { apply size_empty_iff, elem_of_equiv_empty. intros t Ht.
    apply elem_of_intersection in Ht as [Hq _].
    apply size_empty_iff in Hsize. rewrite elem_of_equiv_empty in Hsize.
    exact (Hsize t Hq). }
  unfold spec_keyword_score. rewrite Hz. reflexivity.
Qed.


(** [doc_b] matches both query tokens and comes first; [doc_a] and
    [doc_c] tie and keep the order of the document list; [doc_d] has no
    shared token and is dropped. *)
Example keyword_ranking_example :
  retrieveByKeyword [doc_a; doc_b; doc_c; doc_d] (js "Insulin & exercise?") 3
  = [(doc_b, 2 # 2); (doc_a, 1 # 2); (doc_c, 1 # 2)] /\
  retrieveByKeyword [doc_c; doc_b; doc_a; doc_d] (js "Insulin & exercise?") 2
  = [(doc_b, 2 # 2); (doc_c, 1 # 2)].
Proof. split; vm_compute; reflexivity. Qed.

(** ** Embedding builder *)

Section BuilderFacts.
Import EmbeddingBuilder.

Variable contentHash : jsstring -> jsstring.
Variable API_KEY : jsstring.
Variable MODEL : jsstring.
Variable KB_EMBED_BATCH_SIZE : nat.
Variable getEmbeddings : nat -> list jsstring -> ApiResult.

Local Abbreviation B := (BATCH_SIZE KB_EMBED_BATCH_SIZE).
Local Abbreviation run :=
  (main contentHash API_KEY MODEL KB_EMBED_BATCH_SIZE getEmbeddings).
Local Abbreviation embed := (embed_all KB_EMBED_BATCH_SIZE getEmbeddings).
Local Abbreviation pending := (pending_of contentHash).
Local Abbreviation batch := (batch_at KB_EMBED_BATCH_SIZE).

Lemma BATCH_SIZE_pos : (1 <= B)%nat.
Proof. unfold BATCH_SIZE. lia. Qed.

Lemma collect_missing (batch : list Pending) (entries : list (option (list float))) (j : nat) :
  (j < length batch)%nat -> entries !! j = Some None ->
  exists e, collect batch entries = inl e.
Proof.
  revert entries j. induction batch as [| d batch IH]; intros entries j Hj Hentry.
  - simpl in Hj. lia.
  - destruct entries as [| [embedding |] entries]; simpl; eauto.
    destruct j as [| j]; [discriminate Hentry |].
    destruct (IH entries j) as [e He]; [simpl in Hj; lia | exact Hentry |].
    rewrite He. eauto.
Qed.

Lemma embed_batch_bad (response : ApiResult) (batch : list Pending) :
  bad_response response batch -> exists e, embed_batch response batch = inl e.
Proof.
  destruct response as [| | entries]; simpl; eauto.
  intros Hbad. destruct (length entries =? length batch)%nat eqn:Hlen; simpl; eauto.
  apply Nat.eqb_eq in Hlen. destruct Hbad as [Hne | (j & Hj & Hentry)]; [contradiction |].
  exact (collect_missing batch entries j Hj Hentry).
Qed.

Lemma collect_ids (batch : list Pending) (entries : list (option (list float)))
      (l : list Item) :
  collect batch entries = inr l -> map item_id l = map p_id batch.
Proof.
  revert entries l. induction batch as [| d batch IH]; intros entries l Hc; simpl in Hc.
  - injection Hc as <-. reflexivity.
  - destruct entries as [| [embedding |] entries]; try discriminate Hc.
    destruct (collect batch entries) as [e | l'] eqn:Hrec; [discriminate Hc |].
    injection Hc as <-. simpl. rewrite (IH entries l' Hrec). reflexivity.
Qed.

Lemma embed_batch_ids (response : ApiResult) (batch : list Pending) (l : list Item) :
  embed_batch response batch = inr l -> map item_id l = map p_id batch.
Proof.
  destruct response as [| | entries]; simpl; try discriminate.
  destruct (length entries =? length batch)%nat; simpl; [| discriminate].
  apply collect_ids.
Qed.

Lemma length_drop_batch (pendingDocs : list Pending) (fuel : nat) :
  pendingDocs <> [] -> (length pendingDocs <= S fuel)%nat ->
  (length (drop B pendingDocs) <= fuel)%nat.
Proof.
  intros Hne Hlen. rewrite length_drop. pose proof BATCH_SIZE_pos.
  destruct pendingDocs; [contradiction | simpl in *; lia].
Qed.

(** A rejected response for any batch makes the batch loop fail. *)
Lemma embed_all_bad (fuel call k : nat) (pendingDocs : list Pending) (acc : list Item) :
  (length pendingDocs <= fuel)%nat ->
  (k * B < length pendingDocs)%nat ->
  bad_response (getEmbeddings (call + k) (map p_inputText (batch k pendingDocs)))
               (batch k pendingDocs) ->
  exists e, embed fuel call pendingDocs acc = inl e.
Proof.
  revert fuel call pendingDocs acc.
  induction k as [| k IH]; intros fuel call pendingDocs acc Hfuel Hk Hbad.
  - destruct pendingDocs as [| d rest]; [simpl in Hk; lia |].
    destruct fuel as [| fuel]; [simpl in Hfuel; lia |].
    unfold batch_at in Hbad. rewrite Nat.add_0_r in Hbad. cbn [Nat.mul drop] in Hbad.
    cbn [embed_all].
    destruct (embed_batch_bad _ _ Hbad) as [e He]. rewrite He. eauto.
  - destruct pendingDocs as [| d rest]; [simpl in Hk; lia |].
    destruct fuel as [| fuel]; [simpl in Hfuel; lia |].
    cbn [embed_all].
    destruct (embed_batch _ _) as [e | embedded]; [eauto |].
    apply IH.
    + apply length_drop_batch; [discriminate | exact Hfuel].
    + rewrite length_drop. rewrite Nat.mul_succ_l in Hk.
      pose proof BATCH_SIZE_pos. lia.
    + unfold batch_at in *. rewrite drop_drop.
      replace (S call + k)%nat with (call + S k)%nat by lia.
      replace (B + k * B)%nat with (S k * B)%nat by lia.
      exact Hbad.
Qed.

(** When the batch loop succeeds, every pending document got its item,
    in order. *)
Lemma embed_all_ids (fuel call : nat) (pendingDocs : list Pending) (acc all : list Item) :
  (length pendingDocs <= fuel)%nat ->
  embed fuel call pendingDocs acc = inr all ->
  exists embedded, all = acc ++ embedded /\ map item_id embedded = map p_id pendingDocs.
Proof.
  revert call pendingDocs acc.
  induction fuel as [| fuel IH]; intros call pendingDocs acc Hfuel Hrun.
  - destruct pendingDocs; [| simpl in Hfuel; lia].
    simpl in Hrun. injection Hrun as <-. exists []. rewrite app_nil_r. auto.
  - destruct pendingDocs as [| d rest].
    { simpl in Hrun. injection Hrun as <-. exists []. rewrite app_nil_r. auto. }
    cbn [embed_all] in Hrun.
    destruct (embed_batch _ _) as [e | embedded] eqn:Hbatch; [discriminate Hrun |].
    apply IH in Hrun as (more & -> & Hids).
    + exists (embedded ++ more). rewrite app_assoc. split; [reflexivity |].
      rewrite map_app, Hids, (embed_batch_ids _ _ _ Hbatch), <- map_app, take_drop.
      reflexivity.
    + apply length_drop_batch; [discriminate | exact Hfuel].
Qed.

Lemma split_cached_ids (existingMap : gmap jsstring Item) (docs : list Doc) (doc : Doc) :
  doc ∈ docs ->
  let '(reused, pendingDocs) := split_cached contentHash existingMap docs in
  id doc ∈ map item_id reused \/ id doc ∈ map p_id pendingDocs.
Proof.
  induction docs as [| d docs IH]; intros Hin; [inversion Hin |].
  cbn [split_cached].
  destruct (split_cached contentHash existingMap docs) as [reused pendingDocs].
  assert (Hrest : doc ∈ docs ->
                  id doc ∈ map item_id reused \/ id doc ∈ map p_id pendingDocs)
    by exact IH.
  apply elem_of_cons in Hin as [-> | Hin].
  - destruct (existingMap !! id d) as [cached |];
      [destruct (bool_decide _) |]; cbn [map item_id p_id];
      [left | right | right]; left.
  - destruct (Hrest Hin) as [H | H];
      destruct (existingMap !! id d) as [cached |];
      try destruct (bool_decide _); cbn [map];
      solve [left; try right; exact H | right; try right; exact H].
Qed.

Lemma index_by_id_from (l : list Item) (m : gmap jsstring Item) (i : jsstring) :
  (forall k item, m !! k = Some item -> item_id item = k) ->
  (i ∈ map item_id l \/ is_Some (m !! i)) ->
  exists item,
    foldl (fun m item => <[item_id item := item]> m) m l !! i = Some item /\
    item_id item = i.
Proof.
  revert m. induction l as [| x l IH]; intros m Hkeys Hin; simpl.
  - destruct Hin as [Hin | [item Hitem]]; [inversion Hin |].
    exists item. split; [exact Hitem | exact (Hkeys _ _ Hitem)].
  - apply IH.
    + intros k item. rewrite lookup_insert. case_decide as Hk.
      * intros [= <-]. exact Hk.
      * apply Hkeys.
    + destruct Hin as [Hin | Hsome].
      * simpl in Hin. apply elem_of_cons in Hin as [-> | Hin]; [right | left; exact Hin].
        rewrite lookup_insert_eq. eauto.
      * right. rewrite lookup_insert. case_decide; [eauto | exact Hsome].
Qed.

Lemma index_by_id_lookup (l : list Item) (i : jsstring) :
  i ∈ map item_id l ->
  exists item, index_by_id l !! i = Some item /\ item_id item = i.
Proof.
  intros Hin. apply index_by_id_from; [| left; exact Hin].
  intros k item Hlook. rewrite lookup_empty in Hlook. discriminate.
Qed.

Lemma ordered_ids (byId : gmap jsstring Item) (docs : list Doc) :
  (forall doc, doc ∈ docs ->
               exists item, byId !! id doc = Some item /\ item_id item = id doc) ->
  map item_id (omap (fun doc => byId !! id doc) docs) = map id docs.
Proof.
  induction docs as [| d docs IH]; intros Hall; [reflexivity |].
  destruct (Hall d) as (item & Hlook & Hid); [left |].
  simpl. rewrite Hlook. simpl. rewrite Hid. f_equal.
  apply IH. intros doc Hdoc. apply Hall. right. exact Hdoc.
Qed.

(** C7: a run that ends in an error leaves both files as they were; a
    run in which some batch gets a response whose count differs from the
    request, or in which an embedding is missing, ends in an error; and a
    run that saves writes an index whose records follow the order of the
    documents file. *)
Theorem embedding_build_fail_fast (disk : Disk) :
  (forall e disk', run disk = (Error e, disk') -> disk' = disk) /\
  (forall docs k,
      API_KEY <> [] -> docsFile disk = Some docs ->
      (k * B < length (pending disk docs))%nat ->
      bad_response
        (getEmbeddings k (map p_inputText (batch k (pending disk docs))))
        (batch k (pending disk docs)) ->
      exists e, run disk = (Error e, disk)) /\
  (forall disk',
      run disk = (Saved, disk') ->
      exists docs ordered,
        docsFile disk = Some docs /\
        disk' = {| docsFile := docsFile disk;
                   outFile := Some {| model := MODEL; items := ordered |} |} /\
        map item_id ordered = map id docs).
Proof.
  split; [| split].
  - intros e disk'. unfold main.
    destruct (length API_KEY =? 0)%nat; [intros [= _ <-]; reflexivity |].
    destruct (docsFile disk) as [[| d docs] |]; try (intros [= _ <-]; reflexivity).
    destruct (split_cached _ _ _) as [reused pendingDocs].
    destruct (embed_all _ _ _ _ _ _) as [e' | all]; [| discriminate].
    intros [= _ <-]. reflexivity.
  - intros docs k Hkey Hdocs Hk Hbad. unfold main.
    destruct API_KEY as [| c key] eqn:HK; [contradiction |]. cbn [length Nat.eqb].
    rewrite Hdocs. unfold pending_of in *.
    destruct docs as [| d docs]; [simpl in Hk; lia |].
    assert (Hitems : match outFile disk with
                     | Some payload => items payload
                     | None => []
                     end
                     = items match outFile disk with
                             | Some payload => payload
                             | None => {| model := MODEL; items := [] |}
                             end)
      by (destruct (outFile disk); reflexivity).
    rewrite Hitems in Hk, Hbad.
    destruct (split_cached _ _ _) as [reused pendingDocs]. cbn [snd] in Hk, Hbad.
    destruct (embed_all_bad (length pendingDocs) 0 k pendingDocs reused) as [e He];
      [lia | exact Hk | exact Hbad |].
    rewrite He. eauto.
  - intros disk'. unfold main.
    destruct (length API_KEY =? 0)%nat; [discriminate |].
    destruct (docsFile disk) as [[| d docs] |]; try discriminate.
    pose proof (split_cached_ids
                  (index_by_id (items match outFile disk with
                                      | Some payload => payload
                                      | None => {| model := MODEL; items := [] |}
                                      end)) (d :: docs)) as Hsplit.
    destruct (split_cached _ _ _) as [reused pendingDocs].
    destruct (embed_all _ _ _ _ _ _) as [e' | all] eqn:Hrun; [discriminate |].
    intros [= <-]. eexists (d :: docs), _. split; [reflexivity |]. split; [reflexivity |].
    apply embed_all_ids in Hrun as (embedded & -> & Hids); [| lia].
    apply (ordered_ids (index_by_id (reused ++ embedded)) (d :: docs)).
    intros doc Hdoc. apply index_by_id_lookup.
    rewrite map_app, elem_of_app. rewrite <- Hids in Hsplit. exact (Hsplit doc Hdoc).
Qed.

End BuilderFacts.

Lemma embedding_build_fail_fast_witness :
  exists e,
    EmbeddingBuilder.main (fun text => text) (js "sk-test") (js "text-embedding-3-small")
                          1 short_provider build_disk
    = (EmbeddingBuilder.Error e, build_disk).
Proof.
  apply (proj1 (proj2 (embedding_build_fail_fast
                         (fun text => text) (js "sk-test") (js "text-embedding-3-small")
                         1 short_provider build_disk)) build_docs 1%nat).
  - intros H. discriminate H.
  - reflexivity.
  - vm_compute. lia.
  - vm_compute. left. intros H. discriminate H.
Defined.

Example embedding_build_saves_in_document_order :
  EmbeddingBuilder.main (fun text => text) (js "sk-test") (js "text-embedding-3-small")
                        1 full_provider build_disk
  = (EmbeddingBuilder.Saved,
     {| EmbeddingBuilder.docsFile := Some build_docs;
        EmbeddingBuilder.outFile :=
          Some {| EmbeddingBuilder.model := js "text-embedding-3-small";
                  EmbeddingBuilder.items :=
                    [ {| EmbeddingBuilder.item_id := js "overview-1";
                         EmbeddingBuilder.item_hash :=
                           js "Overview" ++ [LF] ++ js "PCOS is common.";
                         EmbeddingBuilder.item_embedding := [2%float] |};
                      {| EmbeddingBuilder.item_id := js "lifestyle-1";
                         EmbeddingBuilder.item_hash :=
                           js "Lifestyle" ++ [LF] ++ js "Sleep matters.";
                         EmbeddingBuilder.item_embedding := [2%float] |} ] |} |}).
Proof. vm_compute. reflexivity. Qed.

(** ** Chunker *)

(** C3, on the code: with the default sizes (1800 and 260) the second
    chunk is the 260-character tail of the first chunk, a blank line and
    the 1700-character paragraph, 1962 characters in all. *)
Theorem chunk_exceeds_max_chars :
  Chunker.chunkText two_paragraphs 1800 260
  = Some [first_paragraph;
          repeat "b"%char 260 ++ Chunker.blank_line ++ second_paragraph] /\
  length (repeat "b"%char 260 ++ Chunker.blank_line ++ second_paragraph) = 1962%nat /\
  ~ Forall (fun chunk => (length chunk <= 1800)%nat)
      [first_paragraph; repeat "b"%char 260 ++ Chunker.blank_line ++ second_paragraph].
Proof.
  split; [vm_compute; reflexivity |].
  split; [vm_compute; reflexivity |].
  intros H. inversion H as [| ? ? _ H2]; subst.
  inversion H2 as [| ? ? Hlen _]; subst.
  apply Nat.leb_le in Hlen. vm_compute in Hlen. discriminate Hlen.
Qed.

(** The same on a small scale: sizes 10 and 5. *)
Example chunk_exceeds_small :
  Chunker.chunkText (js "aaaa bbbb" ++ Chunker.blank_line ++ js "cccccccccc") 10 5
  = Some [js "aaaa bbbb"; js "bbbb" ++ Chunker.blank_line ++ js "cccccccccc"].
Proof. vm_compute. reflexivity. Qed.

(** An oversized paragraph is cut into windows of at most 10 characters
    that step back by 5. *)
Example chunk_hard_slice :
  Chunker.chunkText (js "abcdefghijklmnopqrstuvwx") 10 5
  = Some [js "abcdefghij"; js "fghijklmno"; js "klmnopqrst"; js "pqrstuvwx"].
Proof. vm_compute. reflexivity. Qed.

(** With an overlap as large as the window the slicing loop never ends. *)
Example chunk_hard_slice_diverges :
  Chunker.chunkText (js "abcdefghijklmnopqrstuvwx") 5 5 = None.
Proof. vm_compute. reflexivity. Qed.

(** *** What the chunker does guarantee *)

Lemma length_trimStart (s : jsstring) : (length (trimStart s) <= length s)%nat.
Proof.
  induction s as [| c s IH]; simpl; [lia |].
  destruct (is_space c); simpl; lia.
Qed.

Lemma length_trim (s : jsstring) : (length (trim s) <= length s)%nat.
Proof.
  unfold trim, trimEnd. rewrite length_rev.
  etransitivity; [apply length_trimStart |].
  rewrite length_rev. apply length_trimStart.
Qed.

Lemma length_getTailAtWordBoundary (text : jsstring) (maxChars : nat) :
  (length (Chunker.getTailAtWordBoundary text maxChars) <= maxChars)%nat.
Proof.
  unfold Chunker.getTailAtWordBoundary.
  destruct (length text <=? maxChars)%nat eqn:Hlen.
  - apply Nat.leb_le. exact Hlen.
  - apply Nat.leb_gt in Hlen.
    destruct (indexOf space _) as [firstSpace |]; rewrite ?length_drop; lia.
Qed.

Lemma Forall_snoc_if {A : Type} (P : A -> Prop) (b : bool) (l : list A) (x : A) :
  Forall P l -> (b = true -> P x) -> Forall P (if b then l ++ [x] else l).
Proof.
  intros Hl Hx. destruct b; [| exact Hl].
  apply Forall_app. split; [exact Hl |]. constructor; [auto | constructor].
Qed.

(** Every window cut from an oversized paragraph has at most [maxChars]
    characters. *)
Lemma slice_loop_windows (fuel : nat) (paragraph : jsstring)
      (maxChars overlapChars start : nat) (chunks result : list jsstring) :
  Chunker.slice_loop fuel paragraph maxChars overlapChars start chunks = Some result ->
  exists windows,
    result = chunks ++ windows /\
    Forall (fun window => (length window <= maxChars)%nat) windows.
Proof.
  revert start chunks result.
  induction fuel as [| fuel IH]; intros start chunks result Hrun; [discriminate Hrun |].
  cbn [Chunker.slice_loop] in Hrun.
  destruct (negb (start <? length paragraph)%nat).
  { injection Hrun as <-. exists []. rewrite app_nil_r. split; [reflexivity | constructor]. }
  set (stop := Nat.min (start + maxChars) (length paragraph)) in *.
  set (segment := trim (slice paragraph start stop)) in *.
  assert (Hseg : (length segment <= maxChars)%nat).
  { subst segment. etransitivity; [apply length_trim |].
    unfold slice. rewrite length_take. subst stop. lia. }
  destruct (Chunker.nonempty segment).
  - assert (Hdone : forall rest,
               Forall (fun window => (length window <= maxChars)%nat) rest ->
               exists windows,
                 (chunks ++ [segment]) ++ rest = chunks ++ windows /\
                 Forall (fun window => (length window <= maxChars)%nat) windows).
    { intros rest Hrest. exists (segment :: rest).
      rewrite <- app_assoc. split; [reflexivity |]. constructor; assumption. }
    destruct (length paragraph <=? stop)%nat.
    + injection Hrun as <-.
      destruct (Hdone [] (List.Forall_nil _)) as (windows & Heq & Hall).
      rewrite app_nil_r in Heq. eauto.
    + apply IH in Hrun as (rest & -> & Hrest). apply Hdone. exact Hrest.
  - destruct (length paragraph <=? stop)%nat.
    + injection Hrun as <-. exists []. rewrite app_nil_r. split; [reflexivity | constructor].
    + apply IH in Hrun. exact Hrun.
Qed.

(** The slicing loop finishes when the overlap is smaller than the window. *)
Lemma slice_loop_terminates (fuel : nat) (paragraph : jsstring)
      (maxChars overlapChars start : nat) (chunks : list jsstring) :
  (overlapChars < maxChars)%nat ->
  (length paragraph - start < fuel)%nat ->
  exists result,
    Chunker.slice_loop fuel paragraph maxChars overlapChars start chunks = Some result.
Proof.
  intros Hoverlap. revert start chunks.
  induction fuel as [| fuel IH]; intros start chunks Hfuel; [lia |].
  cbn [Chunker.slice_loop].
  destruct (start <? length paragraph)%nat eqn:Hstart; cbn [negb]; [| eauto].
  apply Nat.ltb_lt in Hstart.
  destruct (length paragraph <=? Nat.min (start + maxChars) (length paragraph))%nat
    eqn:Hstop; [eauto |].
  apply Nat.leb_gt in Hstop. apply IH. lia.
Qed.

Lemma within_weaken (small large : nat) (l : list jsstring) :
  (small <= large)%nat -> Forall (within small) l -> Forall (within large) l.
Proof.
  intros Hle Hall. apply (List.Forall_impl (within large)) with (2 := Hall).
  intros chunk Hc. unfold within in *. lia.
Qed.

Lemma length_blank_line_join (a b : jsstring) :
  length (a ++ Chunker.blank_line ++ b) = (length a + 2 + length b)%nat.
Proof. rewrite !length_app. simpl. lia. Qed.

Lemma chunk_step_bound (maxChars overlapChars : nat)
      (chunks chunks' : list jsstring) (current current' paragraph : jsstring) :
  let bound := (maxChars + overlapChars + 2)%nat in
  Forall (within bound) chunks -> within bound current ->
  Chunker.chunk_step maxChars overlapChars (chunks, current) paragraph
  = Some (chunks', current') ->
  Forall (within bound) chunks' /\ within bound current'.
Proof.
  intros bound Hchunks Hcurrent. unfold Chunker.chunk_step.
  set (candidate := if Chunker.nonempty current
                    then current ++ Chunker.blank_line ++ paragraph else paragraph).
  set (chunks1 := if Chunker.nonempty current then chunks ++ [current] else chunks).
  set (overlap := match last chunks1 with
                  | Some previous => Chunker.getTailAtWordBoundary previous overlapChars
                  | None => []
                  end).
  set (seeded := if Chunker.nonempty overlap
                 then overlap ++ Chunker.blank_line ++ paragraph else paragraph).
  assert (Hpushed : Forall (within bound) chunks1)
    by (apply Forall_snoc_if; auto).
  assert (Hoverlap : (length overlap <= overlapChars)%nat).
  { subst overlap. destruct (last chunks1) as [previous |]; [| simpl; lia].
    apply length_getTailAtWordBoundary. }
  destruct (length candidate <=? maxChars)%nat eqn:Hfit.
  { apply Nat.leb_le in Hfit. intros Heq.
    assert (chunks' = chunks /\ current' = candidate) as [-> ->]
      by (split; congruence).
    split; [exact Hchunks | unfold within, bound; lia]. }
  destruct (maxChars <? length paragraph)%nat eqn:Hbig.
  - destruct (Chunker.slice_loop _ _ _ _ _ _) as [chunks2 |] eqn:Hslice; [| discriminate].
    intros Heq.
    assert (chunks' = chunks2 /\ current' = []) as [-> ->] by (split; congruence).
    apply slice_loop_windows in Hslice as (windows & -> & Hwin).
    split; [| unfold within; simpl; lia].
    apply Forall_app. split; [exact Hpushed |].
    apply (within_weaken maxChars); [unfold bound; lia | exact Hwin].
  - apply Nat.ltb_ge in Hbig. intros Heq.
    assert (chunks' = chunks1 /\ current' = seeded) as [-> ->] by (split; congruence).
    split; [exact Hpushed |].
    unfold within, bound. subst seeded.
    destruct (Chunker.nonempty overlap); [| lia].
    rewrite length_blank_line_join. lia.
Qed.

Lemma chunk_loop_bound (maxChars overlapChars : nat) (paragraphs : list jsstring)
      (chunks chunks' : list jsstring) (current current' : jsstring) :
  let bound := (maxChars + overlapChars + 2)%nat in
  Forall (within bound) chunks -> within bound current ->
  Chunker.chunk_loop maxChars overlapChars (chunks, current) paragraphs
  = Some (chunks', current') ->
  Forall (within bound) chunks' /\ within bound current'.
Proof.
  intros bound. revert chunks current.
  induction paragraphs as [| paragraph rest IH]; intros chunks current Hc Hcur Hrun;
    cbn [Chunker.chunk_loop] in Hrun.
  - injection Hrun as <- <-. auto.
  - destruct (Chunker.chunk_step _ _ _ _) as [[chunks1 current1] |] eqn:Hstep;
      [| discriminate].
    destruct (chunk_step_bound _ _ _ _ _ _ _ Hc Hcur Hstep) as [Hc1 Hcur1].
    exact (IH _ _ Hc1 Hcur1 Hrun).
Qed.

(** Every chunk has at most [maxChars + overlapChars + 2] characters: a
    seeded buffer is a tail of at most [overlapChars] characters, a blank
    line and a paragraph of at most [maxChars] characters. *)
Lemma chunkText_length_bound (text : jsstring) (maxChars overlapChars : nat)
      (chunks : list jsstring) :
  Chunker.chunkText text maxChars overlapChars = Some chunks ->
  Forall (within (maxChars + overlapChars + 2)) chunks.
Proof.
  unfold Chunker.chunkText.
  destruct (Chunker.chunk_loop _ _ _ _) as [[chunks1 current] |] eqn:Hloop;
    [| discriminate].
  intros [= <-].
  assert (Hnil : within (maxChars + overlapChars + 2) [])
    by (unfold within; simpl; lia).
  destruct (chunk_loop_bound maxChars overlapChars _ [] _ [] _
              (List.Forall_nil _) Hnil Hloop) as [Hc Hcur].
  apply List.Forall_forall. intros chunk Hin.
  apply filter_In in Hin as [Hin _]. apply in_map_iff in Hin as (raw & <- & Hraw).
  assert (Hall : Forall (within (maxChars + overlapChars + 2))
                   (if Chunker.nonempty current then chunks1 ++ [current] else chunks1))
    by (apply Forall_snoc_if; auto).
  rewrite List.Forall_forall in Hall. specialize (Hall raw Hraw).
  unfold within in *. pose proof (length_trim raw). lia.
Qed.

(** With an overlap smaller than the window, [chunkText] returns. *)
Lemma chunkText_terminates (text : jsstring) (maxChars overlapChars : nat) :
  (overlapChars < maxChars)%nat ->
  exists chunks, Chunker.chunkText text maxChars overlapChars = Some chunks.
Proof.
  intros Hoverlap. unfold Chunker.chunkText.
  assert (Hloop : forall paragraphs st,
             exists st', Chunker.chunk_loop maxChars overlapChars st paragraphs = Some st').
  { induction paragraphs as [| paragraph rest IH]; intros st; cbn [Chunker.chunk_loop];
      [eauto |].
    assert (Hstep : exists st1,
               Chunker.chunk_step maxChars overlapChars st paragraph = Some st1).
    { destruct st as [chunks current]. unfold Chunker.chunk_step.
      destruct (length _ <=? maxChars)%nat; [eauto |].
      destruct (maxChars <? length paragraph)%nat; [| eauto].
      destruct (slice_loop_terminates (S (length paragraph)) paragraph maxChars
                  overlapChars 0
                  (if Chunker.nonempty current then chunks ++ [current] else chunks)
                  Hoverlap) as [result Hres]; [lia |].
      rewrite Hres. eauto. }
    destruct Hstep as [st1 Hst1]. rewrite Hst1. apply IH. }
  destruct (Hloop (Chunker.paragraphs_of text) ([], [])) as [[chunks current] Hrun].
  rewrite Hrun. eauto.
Qed.

(** * Further properties of the code *)

(** ** Stripping characters at the ends *)

Section Strip.
Variable p : ascii -> bool.

Lemma drop_while_split (s : jsstring) :
  exists pre, s = pre ++ drop_while p s /\ Forall (fun c => p c = true) pre.
Proof.
  induction s as [| c s (pre & Heq & Hpre)]; simpl.
  - exists []. split; [reflexivity | constructor].
  - destruct (p c) eqn:Hc.
    + exists (c :: pre). split; [simpl; f_equal; exact Heq |].
      constructor; assumption.
    + exists []. split; [reflexivity | constructor].
Qed.

Lemma drop_while_head (s : jsstring) (c : ascii) :
  head (drop_while p s) = Some c -> p c = false.
Proof.
  induction s as [| x s IH]; simpl; [discriminate |].
  destruct (p x) eqn:Hx; [exact IH |].
  simpl. intros [= <-]. exact Hx.
Qed.

Lemma drop_while_id (s : jsstring) :
  (forall c, head s = Some c -> p c = false) -> drop_while p s = s.
Proof.
  destruct s as [| x s]; simpl; [reflexivity |].
  intros H. rewrite (H x eq_refl). reflexivity.
Qed.

Lemma head_rev (s : jsstring) : head (rev s) = last s.
Proof.
  induction s as [| x s IH]; [reflexivity |].
  simpl rev. destruct s as [| y s]; [reflexivity |].
  change (last (x :: y :: s)) with (last (y :: s)). rewrite <- IH.
  destruct (rev (y :: s)) as [| h t] eqn:Hrev; [| reflexivity].
  apply (f_equal (@length ascii)) in Hrev. rewrite length_rev in Hrev. discriminate.
Qed.

Lemma last_rev (s : jsstring) : last (rev s) = head s.
Proof. rewrite <- (rev_involutive s) at 2. rewrite head_rev. reflexivity. Qed.

(** The stripped text is what is left between a prefix and a suffix of
    characters that satisfy [p]. *)
Lemma strip_both_split (s : jsstring) :
  exists pre post,
    s = pre ++ strip_both p s ++ post /\
    Forall (fun c => p c = true) pre /\ Forall (fun c => p c = true) post.
Proof.
  unfold strip_both.
  destruct (drop_while_split s) as (pre & Hs & Hpre).
  destruct (drop_while_split (rev (drop_while p s))) as (tsop & Hr & Hpost).
  exists pre, (rev tsop). split; [| split; [exact Hpre |]].
  - rewrite Hs at 1. f_equal.
    rewrite <- (rev_involutive (drop_while p s)), Hr at 1.
    rewrite rev_app_distr. reflexivity.
  - apply Forall_forall. intros c Hc. rewrite Forall_forall in Hpost.
    apply Hpost. apply list_elem_of_In, in_rev, list_elem_of_In. exact Hc.
Qed.

Lemma strip_both_clean (s : jsstring) : clean_ends p (strip_both p s).
Proof.
  unfold strip_both. split; intros c Hc.
  - rewrite head_rev in Hc.
    destruct (drop_while_split (rev (drop_while p s))) as (pre & Heq & Hpre).
    set (t := drop_while p (rev (drop_while p s))) in *.
    destruct (decide (t = [])) as [Ht | Ht]; [rewrite Ht in Hc; discriminate |].
    assert (Hlast : last (rev (drop_while p s)) = Some c).
    { rewrite Heq. destruct t as [| x t']; [contradiction |].
      rewrite last_app_cons. exact Hc. }
    rewrite last_rev in Hlast. exact (drop_while_head s c Hlast).
  - rewrite last_rev in Hc. exact (drop_while_head _ c Hc).
Qed.

Lemma strip_both_id (s : jsstring) : clean_ends p s -> strip_both p s = s.
Proof.
  intros [Hhead Hlast]. unfold strip_both.
  rewrite (drop_while_id s Hhead).
  rewrite (drop_while_id (rev s)); [apply rev_involutive |].
  intros c Hc. rewrite head_rev in Hc. exact (Hlast c Hc).
Qed.

Lemma strip_both_idempotent (s : jsstring) :
  strip_both p (strip_both p s) = strip_both p s.
Proof. apply strip_both_id, strip_both_clean. Qed.

Lemma no_double_app_inv (a b : jsstring) :
  no_double p (a ++ b) -> no_double p a /\ no_double p b.
Proof.
  induction a as [| x a IH]; intros H; [split; [exact I | exact H] |].
  destruct a as [| y a].
  - split; [exact I |]. destruct b; [exact I | exact (proj2 H)].
  - destruct H as [Hxy H]. destruct (IH H) as [Ha Hb].
    split; [split; assumption | exact Hb].
Qed.

End Strip.

Lemma strip_both_no_double (p q : ascii -> bool) (s : jsstring) :
  no_double q s -> no_double q (strip_both p s).
Proof.
  intros H. destruct (strip_both_split p s) as (pre & post & Heq & _ & _).
  rewrite Heq in H. apply no_double_app_inv in H as [_ H].
  apply no_double_app_inv in H as [H _]. exact H.
Qed.

(** ** Character classes *)

Ltac char_ranges :=
  unfold lower_alnum, is_lower, is_digit, is_space, is_upper, between in *;
  repeat match goal with
         | H : context [(?a <=? ?b)%N] |- _ => destruct (N.leb_spec a b)
         | H : context [(?a =? ?b)%N] |- _ => destruct (N.eqb_spec a b)
         | |- context [(?a <=? ?b)%N] => destruct (N.leb_spec a b)
         | |- context [(?a =? ?b)%N] => destruct (N.eqb_spec a b)
         end;
  simpl in *; try discriminate; try reflexivity; try lia.

Lemma lower_alnum_not_space (c : ascii) : lower_alnum c = true -> is_space c = false.
Proof. intros H. char_ranges. Qed.

Lemma lower_alnum_lower_char (c : ascii) : lower_alnum c = true -> lower_char c = c.
Proof. intros H. unfold lower_char. char_ranges. Qed.

Lemma lower_alnum_keep (c : ascii) : lower_alnum c = true -> keep_alnum_space c = c.
Proof.
  intros H. unfold keep_alnum_space. unfold lower_alnum in H.
  destruct (is_lower c || is_digit c); [reflexivity | discriminate].
Qed.

Lemma trimStart_drop_while (s : jsstring) : trimStart s = drop_while is_space s.
Proof.
  induction s as [| c s IH]; simpl; [reflexivity |].
  rewrite IH. reflexivity.
Qed.

Lemma trim_strip_both (s : jsstring) : trim s = strip_both is_space s.
Proof.
  unfold trim, trimEnd, strip_both. rewrite !trimStart_drop_while. reflexivity.
Qed.

(** ** Collapsing white space *)

Lemma collapse_spaces_shape (in_run : bool) (s : jsstring) :
  no_double is_space (collapse_spaces in_run s) /\
  (in_run = true ->
   forall c, head (collapse_spaces in_run s) = Some c -> is_space c = false).
Proof.
  revert in_run. induction s as [| x s IH]; intros in_run; simpl.
  - split; [exact I | discriminate].
  - destruct (is_space x) eqn:Hx.
    + destruct in_run.
      * exact (IH true).
      * destruct (IH true) as [Hnd Hhead]. split; [| discriminate].
        destruct (collapse_spaces true s) as [| y t] eqn:Hc; [exact I |].
        split; [| exact Hnd]. intros _. exact (Hhead eq_refl y eq_refl).
    + destruct (IH false) as [Hnd _]. split.
      * destruct (collapse_spaces false s) as [| y t] eqn:Hc; [exact I |].
        split; [| exact Hnd]. intros Hsp. rewrite Hx in Hsp. discriminate.
      * intros _ c [= <-]. exact Hx.
Qed.

Lemma collapse_spaces_id (in_run : bool) (s : jsstring) :
  Forall (fun c => is_space c = true -> c = space) s ->
  no_double is_space s ->
  (in_run = true -> forall c, head s = Some c -> is_space c = false) ->
  collapse_spaces in_run s = s.
Proof.
  revert in_run. induction s as [| x s IH]; intros in_run Hall Hnd Hhead; [reflexivity |].
  inversion Hall as [| ? ? Hx Hrest]; subst. simpl.
  assert (Htail : no_double is_space s) by (destruct s; [exact I | exact (proj2 Hnd)]).
  destruct (is_space x) eqn:Hsx.
  - destruct in_run; [rewrite (Hhead eq_refl x eq_refl) in Hsx; discriminate |].
    assert (Hspace : x = space) by (apply Hx; reflexivity).
    rewrite Hspace. f_equal.
    apply IH; [exact Hrest | exact Htail |].
    intros _ c Hc. destruct s as [| y t]; [discriminate |].
    injection Hc as <-. exact (proj1 Hnd Hsx).
  - f_equal. apply IH; [exact Hrest | exact Htail | discriminate].
Qed.

(** ** Normalized text *)

Lemma normalizeText_normalized (value : jsstring) : normalized (normalizeText value).
Proof.
  split; [| split].
  - apply Forall_forall. intros c Hc.
    destruct (normalizeText_elem c value Hc) as [H | H]; [right | left]; exact H.
  - unfold normalizeText. rewrite trim_strip_both. apply strip_both_clean.
  - unfold normalizeText. rewrite trim_strip_both. apply strip_both_no_double.
    apply collapse_spaces_shape.
Qed.

Lemma normalized_fixed (s : jsstring) : normalized s -> normalizeText s = s.
Proof.
  intros (Hall & Hends & Hnd). unfold normalizeText.
  assert (Hlow : toLowerCase s = s).
  { unfold toLowerCase. rewrite <- (map_id s) at 2. apply map_ext_Forall.
    apply (List.Forall_impl _ (P := fun c => lower_alnum c = true \/ c = space));
      [| exact Hall].
    intros c [H | ->]; [apply lower_alnum_lower_char; exact H | reflexivity]. }
  assert (Hkeep : map keep_alnum_space s = s).
  { rewrite <- (map_id s) at 2. apply map_ext_Forall.
    apply (List.Forall_impl _ (P := fun c => lower_alnum c = true \/ c = space));
      [| exact Hall].
    intros c [H | ->]; [apply lower_alnum_keep; exact H | reflexivity]. }
  rewrite Hlow, Hkeep, collapse_spaces_id.
  - rewrite trim_strip_both. apply strip_both_id. exact Hends.
  - apply (List.Forall_impl _ (P := fun c => lower_alnum c = true \/ c = space));
      [| exact Hall].
    intros c [H | ->] Hsp; [| reflexivity].
    rewrite (lower_alnum_not_space c H) in Hsp. discriminate.
  - exact Hnd.
  - discriminate.
Qed.

(** X1: the cache key is canonical: it consists of lower-case letters,
    digits and single spaces, with no space at either end, and
    normalizing it again changes nothing. *)
Theorem normalizeText_canonical (value : jsstring) :
  normalized (normalizeText value) /\
  normalizeText (normalizeText value) = normalizeText value.
Proof.
  split; [apply normalizeText_normalized |].
  apply normalized_fixed, normalizeText_normalized.
Qed.

(** ** The paths of the chat handler *)

Lemma not_in_range (question : jsstring) :
  ((length question <? 4)%nat || (800 <? length question)%nat) = true ->
  ~ in_range question.
Proof.
  intros H [H4 H8]. apply orb_true_iff in H as [H | H]; apply Nat.ltb_lt in H; lia.
Qed.

Lemma in_range_of_check (question : jsstring) :
  ((length question <? 4)%nat || (800 <? length question)%nat) = false ->
  in_range question.
Proof.
  intros H. apply orb_false_iff in H as [H4 H8].
  apply Nat.ltb_ge in H4. apply Nat.ltb_ge in H8. split; assumption.
Qed.

(** Every request follows one of the nine paths. *)
Lemma chat_follows_path (cfg : Config) (env : Env) (w : World) (q : jsstring) :
  chat_path cfg env w q (chat cfg env w q).
Proof.
  unfold chat. fold (cache_key q).
  destruct (CHATBOT_ENABLED cfg) eqn:Hen; cbn [negb]; [| apply path_disabled; exact Hen].
  destruct ((length (trim q) <? 4)%nat || (800 <? length (trim q))%nat) eqn:Hlen;
    [apply path_length; [exact Hen | apply not_in_range; exact Hlen] |].
  apply in_range_of_check in Hlen.
  destruct (isBlockedMedicalQuestion (trim q)) eqn:Hb;
    [apply path_blocked; assumption |].
  destruct (findFaqAnswer (ragFaqs cfg) (trim q)) as [faqHit |] eqn:Hf;
    [apply path_faq; assumption |].
  cbv zeta. fold (cache_key q).
  destruct (getCachedAnswer cfg env w (cache_key q)) as [[cached |] w1] eqn:Hc;
    [apply path_cached; assumption |].
  destruct (OPENAI_API_KEY cfg) as [| c key] eqn:Hkey;
    [apply path_not_configured; assumption |].
  rewrite <- Hkey in *.
  assert (Hk : OPENAI_API_KEY cfg <> []) by (rewrite Hkey; discriminate).
  assert (Ht : truthy (OPENAI_API_KEY cfg) = true) by (rewrite Hkey; reflexivity).
  rewrite Ht. cbn [negb].
  destruct (retrieveContext cfg env (trim q) (CHATBOT_CONTEXT_CHUNKS cfg))
    as [| item items] eqn:Hitems.
  - cbn [length Nat.eqb]. apply path_no_data; assumption.
  - cbn [length Nat.eqb]. rewrite <- Hitems.
    assert (Hne : retrieveContext cfg env (trim q) (CHATBOT_CONTEXT_CHUNKS cfg) <> [])
      by (rewrite Hitems; discriminate).
    destruct (generateChatAnswer env (trim q) _) as [answer |] eqn:Hgen.
    + apply path_generated; assumption.
    + apply path_generation_failed; assumption.
Qed.

(** ** Cache writes and reads *)

Lemma setCachedAnswer_cache (env : Env) (w : World) (key answer : jsstring)
      (sources : list Source) :
  chatCache (setCachedAnswer env w key answer sources)
  = <[key := stored_item env answer sources]> (chatCache w).
Proof. unfold setCachedAnswer. rewrite saveChatCache_cache. reflexivity. Qed.

Lemma setCachedAnswer_file (env : Env) (w : World) (key answer : jsstring)
      (sources : list Source) :
  cacheFile (setCachedAnswer env w key answer sources)
  = if fs_writable env
    then Some (<[key := stored_item env answer sources]> (chatCache w))
    else cacheFile w.
Proof. unfold setCachedAnswer. rewrite saveChatCache_file. reflexivity. Qed.

(** What a cache read can do to the state: nothing, or drop the key. *)
Lemma getCachedAnswer_state (cfg : Config) (env : Env) (w : World) (key : jsstring) :
  snd (getCachedAnswer cfg env w key) = w \/
  (fst (getCachedAnswer cfg env w key) = None /\
   chatCache (snd (getCachedAnswer cfg env w key)) = delete key (chatCache w) /\
   cacheFile (snd (getCachedAnswer cfg env w key))
   = if fs_writable env then Some (delete key (chatCache w)) else cacheFile w).
Proof.
  unfold getCachedAnswer.
  destruct (chatCache w !! key) as [item |]; [| left; reflexivity].
  destruct (_ <? _)%Z; [| left; reflexivity].
  right. cbn [fst snd]. rewrite saveChatCache_cache, saveChatCache_file.
  repeat split; reflexivity.
Qed.

Lemma getCachedAnswer_miss (cfg : Config) (env : Env) (w w1 : World) (key : jsstring) :
  getCachedAnswer cfg env w key = (None, w1) -> chatCache w1 !! key = None.
Proof.
  unfold getCachedAnswer.
  destruct (chatCache w !! key) as [item |] eqn:Hlook.
  - destruct (_ <? _)%Z; [| discriminate].
    intros [= <-]. rewrite saveChatCache_cache. apply lookup_delete_eq.
  - intros [= <-]. exact Hlook.
Qed.



(** What one request can do to the cache object: nothing, drop the key
    of the question, or store the fresh answer under that key. *)
Lemma chat_cache_effect (cfg : Config) (env : Env) (w : World) (q : jsstring) :
  (chatCache (snd (chat cfg env w q)) = chatCache w \/
   chatCache (snd (chat cfg env w q)) = delete (cache_key q) (chatCache w)) \/
  exists answer sources,
    chat cfg env w q = (Answer answer sources false, snd (chat cfg env w q)) /\
    isBlockedMedicalQuestion (trim q) = false /\
    findFaqAnswer (ragFaqs cfg) (trim q) = None /\
    chatCache (snd (chat cfg env w q))
    = <[cache_key q := stored_item env answer sources]> (chatCache w).
Proof.
  assert (Hread : forall r w1,
             getCachedAnswer cfg env w (cache_key q) = (r, w1) ->
             chatCache w1 = chatCache w \/
             chatCache w1 = delete (cache_key q) (chatCache w)).
  { intros r w1 Hc.
    destruct (getCachedAnswer_state cfg env w (cache_key q)) as [H | (_ & H & _)];
      rewrite Hc in H; cbn [snd] in H; [left; rewrite H; reflexivity | right; exact H]. }
  assert (Hstore : forall w1 answer sources,
             getCachedAnswer cfg env w (cache_key q) = (None, w1) ->
             chatCache (setCachedAnswer env w1 (cache_key q) answer sources)
             = <[cache_key q := stored_item env answer sources]> (chatCache w)).
  { intros w1 answer sources Hc. rewrite setCachedAnswer_cache.
    destruct (Hread _ _ Hc) as [H | H]; rewrite H; [reflexivity |].
    apply insert_delete_eq. }
  destruct (chat_follows_path cfg env w q)
    as [ | | | faqHit | cached w1 ? ? ? ? Hc | w1 ? ? ? ? Hc | w1 ? ? Hb Hf Hc
       | w1 ? ? ? ? Hc | w1 answer ? ? Hb Hf Hc ];
    cbn [snd]; try (left; left; reflexivity); try (left; exact (Hread _ _ Hc)).
  - right. exists noDataAnswer, []. rewrite (Hstore _ _ _ Hc). auto.
  - right. eexists _, _. rewrite (Hstore _ _ _ Hc). auto.
Qed.

(** X3: a request changes the cache at most under the key of its own
    question: every other entry is as before. *)
Theorem chat_touches_only_its_key (cfg : Config) (env : Env) (w : World)
        (q k : jsstring) :
  k <> cache_key q ->
  chatCache (snd (chat cfg env w q)) !! k = chatCache w !! k.
Proof.
  intros Hk.
  destruct (chat_cache_effect cfg env w q) as [[H | H] | (a & s & _ & _ & _ & H)];
    rewrite H.
  - reflexivity.
  - apply lookup_delete_ne. intros Heq. apply Hk. symmetry. exact Heq.
  - apply lookup_insert_ne. intros Heq. apply Hk. symmetry. exact Heq.
Qed.

(** X4: entries are inserted only for fresh answers that come from
    retrieval: a request answered with an error, with the refusal, with
    an FAQ answer or from the cache inserts nothing (it can only drop the
    stale entry of its own key), and a request that does insert stores
    exactly the answer and sources it returns, stamped with the write
    time. *)
Theorem chat_stores_only_fresh_answers (cfg : Config) (env : Env) (w : World)
        (q : jsstring) :
  let w' := snd (chat cfg env w q) in
  ((chatCache w' = chatCache w \/ chatCache w' = delete (cache_key q) (chatCache w)) \/
   exists answer sources,
     chat cfg env w q = (Answer answer sources false, w') /\
     isBlockedMedicalQuestion (trim q) = false /\
     findFaqAnswer (ragFaqs cfg) (trim q) = None /\
     chatCache w' = <[cache_key q := stored_item env answer sources]> (chatCache w)) /\
  (forall status error,
      fst (chat cfg env w q) = Failure status error ->
      chatCache w' = chatCache w \/ chatCache w' = delete (cache_key q) (chatCache w)) /\
  (forall answer sources,
      fst (chat cfg env w q) = Answer answer sources true ->
      chatCache w' = chatCache w \/ chatCache w' = delete (cache_key q) (chatCache w)) /\
  (isBlockedMedicalQuestion (trim q) = true \/
   findFaqAnswer (ragFaqs cfg) (trim q) <> None ->
   chatCache w' = chatCache w \/ chatCache w' = delete (cache_key q) (chatCache w)).
Proof.
  intros w'. subst w'.
  pose proof (chat_cache_effect cfg env w q) as Heffect.
  split; [exact Heffect |].
  split; [| split].
  - intros status error Hfail.
    destruct Heffect as [H | (a & s & Heq & _)]; [exact H |].
    rewrite Heq in Hfail. discriminate Hfail.
  - intros answer sources Hans.
    destruct Heffect as [H | (a & s & Heq & _)]; [exact H |].
    rewrite Heq in Hans. discriminate Hans.
  - intros Hguard.
    destruct Heffect as [H | (a & s & _ & Hb & Hf & _)]; [exact H |].
    destruct Hguard as [Hg | Hg]; [rewrite Hb in Hg; discriminate | contradiction].
Qed.

Lemma chat_touches_only_its_key_witness :
  chatCache (snd (chat cfg0 env0 world1 (js "Tell me about sleep!")))
    !! js "what is pcos" = Some week_old_item.
Proof.
  rewrite (chat_touches_only_its_key cfg0 env0 world1 (js "Tell me about sleep!")
             (js "what is pcos")).
  - vm_compute. reflexivity.
  - vm_compute. intros H. discriminate H.
Defined.

(** X5: once a question got a fresh answer from retrieval (an answer
    that is neither the refusal nor an FAQ entry), asking it again at
    most TTL after the write returns the same answer and sources, marked
    cached, and leaves the state as it is: the providers are not
    consulted. *)
Theorem repeated_question_served_from_cache (cfg : Config) (env env' : Env)
        (w w' : World) (q answer : jsstring) (sources : list Source) :
  chat cfg env w q = (Answer answer sources false, w') ->
  isBlockedMedicalQuestion (trim q) = false ->
  findFaqAnswer (ragFaqs cfg) (trim q) = None ->
  (now_at_read env' - now_at_write env <= ttlMs cfg)%Z ->
  chat cfg env' w' q = (Answer answer sources true, w').
Proof.
  intros Hchat Hb Hf Hage.
  assert (Hstored : CHATBOT_ENABLED cfg = true /\ in_range (trim q) /\
                    chatCache w' !! cache_key q = Some (stored_item env answer sources)).
  { pose proof (chat_follows_path cfg env w q) as Hpath. rewrite Hchat in Hpath.
    inversion Hpath as [ | | ? ? Hb' | faqHit ? ? ? Hf' | | | w1 Hen Hr ? ? Hc
                       | | w1 a Hen Hr ? ? Hc ]; subst.
    - rewrite Hb in Hb'. discriminate.
    - rewrite Hf in Hf'. discriminate.
    - repeat split; [exact Hen | apply Hr | apply Hr |].
      rewrite setCachedAnswer_cache. apply lookup_insert_eq.
    - repeat split; [exact Hen | apply Hr | apply Hr |].
      rewrite setCachedAnswer_cache. apply lookup_insert_eq. }
  destruct Hstored as (Hen & Hr & Hlook).
  apply (chat_cache_hit cfg env' w' w' q (stored_item env answer sources));
    try assumption.
  apply getCachedAnswer_fresh; assumption.
Qed.

Lemma repeated_question_served_from_cache_witness :
  chat cfg0 (env_at 5000) (snd (chat cfg0 (env_at 1000) world0 (js "Tell me about sleep!")))
       (js "Tell me about sleep!")
  = (Answer noDataAnswer [] true,
     snd (chat cfg0 (env_at 1000) world0 (js "Tell me about sleep!"))).
Proof.
  apply (repeated_question_served_from_cache cfg0 (env_at 1000) (env_at 5000) world0).
  - vm_compute. reflexivity.
  - vm_compute. reflexivity.
  - vm_compute. reflexivity.
  - vm_compute. discriminate.
Defined.

(** X6: when the cache file can be written, a request keeps the file in
    step with the cache object: if the file held the cache before the
    request, it holds the cache after it. *)
Theorem chat_keeps_cache_file_in_step (cfg : Config) (env : Env) (w : World)
        (q : jsstring) :
  fs_writable env = true ->
  cacheFile w = Some (chatCache w) ->
  cacheFile (snd (chat cfg env w q)) = Some (chatCache (snd (chat cfg env w q))).
Proof.
  intros Hfs Hsync.
  assert (Hread : forall r w1,
             getCachedAnswer cfg env w (cache_key q) = (r, w1) ->
             cacheFile w1 = Some (chatCache w1)).
  { intros r w1 Hc.
    destruct (getCachedAnswer_state cfg env w (cache_key q)) as [H | (_ & H1 & H2)];
      rewrite Hc in *; cbn [snd] in *.
    - rewrite H. exact Hsync.
    - rewrite H1, H2, Hfs. reflexivity. }
  assert (Hstore : forall w1 answer sources,
             cacheFile (setCachedAnswer env w1 (cache_key q) answer sources)
             = Some (chatCache (setCachedAnswer env w1 (cache_key q) answer sources))).
  { intros. rewrite setCachedAnswer_file, setCachedAnswer_cache, Hfs. reflexivity. }
  destruct (chat_follows_path cfg env w q)
    as [ | | | faqHit | cached w1 ? ? ? ? Hc | w1 ? ? ? ? Hc | w1 ? ? ? ? Hc
       | w1 ? ? ? ? Hc | w1 answer ? ? ? ? Hc ];
    cbn [snd]; try exact Hsync; try exact (Hread _ _ Hc); apply Hstore.
Qed.

Lemma chat_keeps_cache_file_in_step_witness :
  cacheFile (snd (chat cfg0 env0 {| chatCache := chatCache world1;
                                    cacheFile := Some (chatCache world1) |}
                       (js "Tell me about sleep!")))
  = Some (chatCache (snd (chat cfg0 env0 {| chatCache := chatCache world1;
                                            cacheFile := Some (chatCache world1) |}
                               (js "Tell me about sleep!")))).
Proof.
  apply (chat_keeps_cache_file_in_step cfg0 env0); reflexivity.
Defined.

(** ** Source lists *)

Lemma buildSourceList_from_spec (items : list (Doc * Score)) (seen : list jsstring) :
  NoDup (map src_url (buildSourceList_from seen items)) /\
  (forall source, source ∈ buildSourceList_from seen items ->
                  (src_url source ∉ seen) /\
                  exists doc score, (doc, score) ∈ items /\ source = source_of doc) /\
  (forall doc score, (doc, score) ∈ items ->
                     doc_url doc ∈ seen \/
                     doc_url doc ∈ map src_url (buildSourceList_from seen items)) /\
  (length (buildSourceList_from seen items) <= length items)%nat.
Proof.
  revert seen. induction items as [| [doc score] items IH]; intros seen.
  - simpl. split; [constructor |]. split; [intros s Hs; inversion Hs |].
    split; [intros d sc H; inversion H | lia].
  - cbn [buildSourceList_from].
    destruct (bool_decide (doc_url doc ∈ seen)) eqn:Hseen.
    + apply bool_decide_eq_true in Hseen.
      destruct (IH seen) as (Hnd & Hfrom & Hall & Hlen).
      split; [exact Hnd |]. split; [| split].
      * intros s Hs. destruct (Hfrom s Hs) as (Hout & d & sc & Hin & Heq).
        split; [exact Hout |]. exists d, sc. split; [right; exact Hin | exact Heq].
      * intros d sc Hin. apply elem_of_cons in Hin as [[= -> ->] | Hin];
          [left; exact Hseen | exact (Hall d sc Hin)].
      * simpl. lia.
    + apply bool_decide_eq_false in Hseen.
      destruct (IH (doc_url doc :: seen)) as (Hnd & Hfrom & Hall & Hlen).
      split; [| split; [| split]].
      * cbn [map src_url]. apply NoDup_cons. split; [| exact Hnd].
        intros Hin. apply list_elem_of_fmap in Hin as (s & Hurl & Hs).
        destruct (Hfrom s Hs) as (Hout & _). apply Hout. rewrite <- Hurl. left.
      * intros s Hs. apply elem_of_cons in Hs as [-> | Hs].
        -- split; [exact Hseen |]. exists doc, score. split; [left | reflexivity].
        -- destruct (Hfrom s Hs) as (Hout & d & sc & Hin & Heq).
           split; [intros H; apply Hout; right; exact H |].
           exists d, sc. split; [right; exact Hin | exact Heq].
      * intros d sc Hin. cbn [map src_url].
        apply elem_of_cons in Hin as [[= -> ->] | Hin]; [right; left |].
        destruct (Hall d sc Hin) as [H | H]; [| right; right; exact H].
        apply elem_of_cons in H as [Heq | H]; [right; rewrite Heq; left | left; exact H].
      * simpl. lia.
Qed.

(** X7: the source list of an answer has one entry per URL: the URLs are
    pairwise different, every entry is the title and URL of a retrieved
    document, every retrieved document's URL is listed, and there are no
    more entries than retrieved documents. *)
Theorem buildSourceList_unique_urls (items : list (Doc * Score)) :
  NoDup (map src_url (buildSourceList items)) /\
  (forall source, source ∈ buildSourceList items ->
                  exists doc score, (doc, score) ∈ items /\ source = source_of doc) /\
  (forall doc score, (doc, score) ∈ items ->
                     doc_url doc ∈ map src_url (buildSourceList items)) /\
  (length (buildSourceList items) <= length items)%nat.
Proof.
  unfold buildSourceList.
  destruct (buildSourceList_from_spec items []) as (Hnd & Hfrom & Hall & Hlen).
  split; [exact Hnd |]. split; [| split; [| exact Hlen]].
  - intros s Hs. exact (proj2 (Hfrom s Hs)).
  - intros d sc Hin. destruct (Hall d sc Hin) as [H | H]; [inversion H | exact H].
Qed.

(** ** What retrieval returns *)

Lemma sort_insert_elem {A : Type} (after : A -> A -> bool) (x y : A) (l : list A) :
  y ∈ sort_insert after x l <-> y = x \/ y ∈ l.
Proof.
  induction l as [| z l IH]; simpl.
  - rewrite list_elem_of_singleton. split; [auto | intros [H | H]; [exact H | inversion H]].
  - destruct (after x z).
    + rewrite !elem_of_cons, IH. tauto.
    + rewrite !elem_of_cons. tauto.
Qed.

Lemma js_sort_elem {A : Type} (after : A -> A -> bool) (y : A) (l : list A) :
  y ∈ js_sort after l <-> y ∈ l.
Proof.
  induction l as [| x l IH]; [reflexivity |].
  cbn [js_sort foldr]. fold (js_sort after l).
  rewrite sort_insert_elem, elem_of_cons, IH. reflexivity.
Qed.

Lemma retrieveByKeyword_elem (docs : list Doc) (q : jsstring) (limit : nat)
      (doc : Doc) (score : Q) :
  (doc, score) ∈ retrieveByKeyword docs q limit -> doc ∈ docs /\ (0 < score)%Q.
Proof.
  unfold retrieveByKeyword.
  destruct (size (tokenSet q) =? 0)%nat; [intros H; inversion H |].
  intros H. apply elem_of_take in H as (i & H & _).
  apply list_elem_of_lookup_2, js_sort_elem in H.
  unfold keyword_candidates in H.
  apply list_elem_of_In, filter_In in H as [H Hpos].
  apply in_map_iff in H as (d & [= -> _] & Hd).
  split; [apply list_elem_of_In; exact Hd | apply Qlt_bool_iff; exact Hpos].
Qed.

Lemma vector_scored_elem (docs : list Doc) (emb : gmap jsstring (list float))
      (qe : list float) (doc : Doc) (score : float) :
  (doc, score) ∈ vector_scored docs emb qe ->
  doc ∈ docs /\ PrimFloat.ltb 0 score = true.
Proof.
  unfold vector_scored. intros H.
  apply list_elem_of_In, in_flat_map in H as (d & Hd & H).
  destruct (emb !! doc_id d) as [vector |]; [| inversion H].
  destruct (PrimFloat.ltb 0 (cosineSimilarity qe vector)) eqn:Hpos; [| inversion H].
  destruct H as [[= <- <-] | []].
  split; [apply list_elem_of_In; exact Hd | exact Hpos].
Qed.

(** X8: whatever the mode, retrieval returns at most [limit] entries,
    each of them a document of the loaded index with a score above 0. *)
Theorem retrieveContext_bounded (cfg : Config) (env : Env) (q : jsstring) (limit : nat) :
  (length (retrieveContext cfg env q limit) <= limit)%nat /\
  forall doc score,
    (doc, score) ∈ retrieveContext cfg env q limit ->
    doc ∈ ragDocuments cfg /\ positive_score score.
Proof.
  assert (Hkw : (length (keyword_items (ragDocuments cfg) q limit) <= limit)%nat /\
                forall doc score,
                  (doc, score) ∈ keyword_items (ragDocuments cfg) q limit ->
                  doc ∈ ragDocuments cfg /\ positive_score score).
  { unfold keyword_items. split.
    - rewrite length_map. unfold retrieveByKeyword.
      destruct (size (tokenSet q) =? 0)%nat; [simpl; lia |].
      rewrite length_take. lia.
    - intros doc score H. apply list_elem_of_fmap in H as ([d s] & [= -> ->] & H).
      exact (retrieveByKeyword_elem _ _ _ _ _ H). }
  unfold retrieveContext.
  destruct (length (ragDocuments cfg) =? 0)%nat;
    [split; [simpl; lia | intros d s H; inversion H] |].
  destruct (vector_mode cfg) as [emb |]; [| exact Hkw].
  destruct (getEmbedding env q) as [qe |]; [| exact Hkw].
  destruct (length _ =? 0)%nat; [exact Hkw |].
  split.
  - rewrite length_map, length_take. lia.
  - intros doc score H. apply list_elem_of_fmap in H as ([d s] & [= -> ->] & H).
    apply elem_of_take in H as (i & H & _).
    apply list_elem_of_lookup_2, js_sort_elem, vector_scored_elem in H. exact H.
Qed.

(** ** FAQ prompts asked verbatim *)

Lemma ratio_self (n : nat) : (1 <= n)%nat -> (ratio n n == 1)%Q.
Proof.
  intros Hn. unfold ratio, Qeq. simpl.
  rewrite Z.mul_1_r, Z.mul_1_l.
  rewrite <- (Nat2Pos.id n) at 1 by lia. apply positive_nat_Z.
Qed.

Lemma tokenSet_nonempty (value : jsstring) :
  tokenize value <> [] -> (1 <= size (tokenSet value))%nat.
Proof.
  intros Hne. destruct (tokenize value) as [| t l] eqn:Ht; [contradiction |].
  destruct (size (tokenSet value)) eqn:Hsize; [| lia].
  apply size_empty_iff in Hsize. rewrite elem_of_equiv_empty in Hsize.
  exfalso. apply (Hsize t). unfold tokenSet. rewrite Ht.
  apply elem_of_list_to_set. left.
Qed.

(** X9: a question that is, word for word, one of the prompts of an FAQ
    entry (and has at least one token) always takes the FAQ shortcut:
    the matcher returns an entry of the list with a prompt of score 1. *)
Theorem faq_prompt_asked_verbatim (faqs : list Faq) (faq : Faq) (prompt : jsstring) :
  faq ∈ faqs -> prompt ∈ faq_prompts faq -> tokenize prompt <> [] ->
  exists best matching,
    findFaqAnswer faqs prompt = Some best /\ best ∈ faqs /\
    matching ∈ faq_prompts best /\ (1 <= spec_faq_score prompt matching)%Q.
Proof.
  intros Hfaq Hprompt Htokens.
  assert (Hself : (spec_faq_score prompt prompt == 1)%Q).
  { unfold spec_faq_score. rewrite intersection_idemp_L, Nat.max_id.
    apply ratio_self, tokenSet_nonempty, Htokens. }
  destruct (findFaqAnswer faqs prompt) as [best |] eqn:Hfind.
  - destruct (findFaqAnswer_some faqs prompt best Hfind) as (Hin & matching & Hm & _ & Hmax).
    exists best, matching. split; [reflexivity |]. split; [exact Hin |].
    split; [exact Hm |]. rewrite <- Hself. exact (Hmax faq prompt Hfaq Hprompt).
  - exfalso. pose proof (proj1 (findFaqAnswer_none faqs prompt) Hfind faq prompt
                           Hfaq Hprompt) as Hlt.
    rewrite Hself in Hlt. revert Hlt. compute. discriminate.
Qed.

Lemma faq_prompt_asked_verbatim_witness :
  exists best matching,
    findFaqAnswer [faq_two; faq_seven] (js "alpha bravo zulu") = Some best /\
    best ∈ [faq_two; faq_seven] /\
    matching ∈ faq_prompts best /\
    (1 <= spec_faq_score (js "alpha bravo zulu") matching)%Q.
Proof.
  apply (faq_prompt_asked_verbatim [faq_two; faq_seven] faq_two (js "alpha bravo zulu")).
  - left.
  - left.
  - vm_compute. intros H. discriminate H.
Defined.

(** ** HTML escaping *)

Lemma escape_char_cases (c : ascii) :
  (c = Contact.AMP /\ Contact.escape_char c = js "&amp;") \/
  (c = Contact.LT /\ Contact.escape_char c = js "&lt;") \/
  (c = Contact.GT /\ Contact.escape_char c = js "&gt;") \/
  (c = Contact.QUOT /\ Contact.escape_char c = js "&quot;") \/
  (c = Contact.APOS /\ Contact.escape_char c = js "&#039;") \/
  (html_special c = false /\ Contact.escape_char c = [c]).
Proof.
  unfold Contact.escape_char, html_special.
  destruct (Ascii.eqb_spec c Contact.AMP) as [-> | _]; [left; auto |].
  destruct (Ascii.eqb_spec c Contact.LT) as [-> | _]; [right; left; auto |].
  destruct (Ascii.eqb_spec c Contact.GT) as [-> | _]; [right; right; left; auto |].
  destruct (Ascii.eqb_spec c Contact.QUOT) as [-> | _];
    [right; right; right; left; auto |].
  destruct (Ascii.eqb_spec c Contact.APOS) as [-> | _];
    [right; right; right; right; left; auto |].
  right; right; right; right; right. auto.
Qed.

Lemma escape_char_markup_free (c : ascii) :
  Forall (fun x => html_markup x = false) (Contact.escape_char c).
Proof.
  destruct (escape_char_cases c)
    as [[_ ->] | [[_ ->] | [[_ ->] | [[_ ->] | [[_ ->] | [Hc ->]]]]]];
    try solve [vm_compute; repeat constructor].
  constructor; [| constructor].
  unfold html_special in Hc. unfold html_markup.
  destruct (Ascii.eqb c Contact.AMP); [discriminate | exact Hc].
Qed.

Lemma escapeHtml_plain (text : jsstring) :
  Forall (fun c => html_special c = false) text -> Contact.escapeHtml text = text.
Proof.
  induction 1 as [| c text Hc _ IH]; [reflexivity |].
  unfold Contact.escapeHtml in *. cbn [flat_map]. rewrite IH.
  destruct (escape_char_cases c)
    as [[-> _] | [[-> _] | [[-> _] | [[-> _] | [[-> _] | [_ ->]]]]]];
    try discriminate Hc.
  reflexivity.
Qed.

Lemma escapeHtml_injective (a b : jsstring) :
  Contact.escapeHtml a = Contact.escapeHtml b -> a = b.
Proof.
  unfold Contact.escapeHtml. revert b.
  induction a as [| x a IH]; intros [| y b] H; cbn [flat_map] in H.
  - reflexivity.
  - exfalso.
    destruct (escape_char_cases y)
      as [[_ E] | [[_ E] | [[_ E] | [[_ E] | [[_ E] | [_ E]]]]]];
      rewrite E in H; discriminate H.
  - exfalso.
    destruct (escape_char_cases x)
      as [[_ E] | [[_ E] | [[_ E] | [[_ E] | [[_ E] | [_ E]]]]]];
      rewrite E in H; discriminate H.
  - destruct (escape_char_cases x)
      as [[-> Ex] | [[-> Ex] | [[-> Ex] | [[-> Ex] | [[-> Ex] | [Hx Ex]]]]]];
      destruct (escape_char_cases y)
        as [[-> Ey] | [[-> Ey] | [[-> Ey] | [[-> Ey] | [[-> Ey] | [Hy Ey]]]]]];
      rewrite ?Ex, ?Ey in H;
      try discriminate H;
      try (f_equal; apply IH; apply (app_inv_head _ _ _ H));
      try (exfalso; injection H as Hh _;
           first [ rewrite <- Hh in Hy | rewrite Hh in Hx ]; discriminate).
    injection H as -> H. f_equal. apply IH. exact H.
Qed.

(** X10: [escapeHtml] leaves no angle bracket and no quote in its output
    (an ampersand only as the start of one of its five entities), it
    returns a text without these characters unchanged, and it is
    injective: the original text can be told from the escaped one. *)
Theorem escapeHtml_safe (text : jsstring) :
  Forall (fun c => html_markup c = false) (Contact.escapeHtml text) /\
  (Forall (fun c => html_special c = false) text -> Contact.escapeHtml text = text) /\
  (forall other, Contact.escapeHtml text = Contact.escapeHtml other -> text = other).
Proof.
  split; [| split; [apply escapeHtml_plain | apply escapeHtml_injective]].
  unfold Contact.escapeHtml. induction text as [| c text IH]; [constructor |].
  cbn [flat_map]. apply Forall_app. split; [apply escape_char_markup_free | exact IH].
Qed.

Example escapeHtml_example :
  Contact.escapeHtml (js "<b>Tom & 'Jerry'</b>")
  = js "&lt;b&gt;Tom &amp; &#039;Jerry&#039;&lt;/b&gt;".
Proof. vm_compute. reflexivity. Qed.

(** ** The e-mail pattern *)

Lemma plus_then_spec (cls : ascii -> bool) (k : jsstring -> bool) (s : jsstring) :
  Contact.plus_then cls k s = true <->
  exists a r, s = a ++ r /\ a <> [] /\ Forall (fun c => cls c = true) a /\ k r = true.
Proof.
  induction s as [| c s IH]; simpl.
  - split; [discriminate |].
    intros (a & r & Heq & Hne & _). destruct a; [contradiction | discriminate].
  - destruct (cls c) eqn:Hc.
    + destruct (k s) eqn:Hk.
      * split; [| reflexivity]. intros _. exists [c], s.
        repeat split; [discriminate | constructor; [exact Hc | constructor] | exact Hk].
      * rewrite IH. split.
        -- intros (a & r & -> & Hne & Ha & Hr). exists (c :: a), r.
           repeat split; [discriminate | constructor; assumption | exact Hr].
        -- intros (a & r & Heq & Hne & Ha & Hr).
           destruct a as [| x a]; [contradiction |]. injection Heq as <- ->.
           inversion Ha as [| ? ? _ Ha']; subst.
           destruct a as [| y a]; [simpl in Hk; congruence |].
           exists (y :: a), r. repeat split; [discriminate | exact Ha' | exact Hr].
    + split; [discriminate |].
      intros (a & r & Heq & Hne & Ha & _).
      destruct a as [| x a]; [contradiction |]. injection Heq as <- _.
      inversion Ha; subst. congruence.
Qed.

Lemma lit_then_spec (c : ascii) (k : jsstring -> bool) (s : jsstring) :
  Contact.lit_then c k s = true <-> exists r, s = c :: r /\ k r = true.
Proof.
  destruct s as [| x s]; simpl.
  - split; [discriminate | intros (r & H & _); discriminate].
  - destruct (Ascii.eqb_spec x c) as [-> | Hne].
    + split; [intros H; exists s; auto | intros (r & [= <-] & H); exact H].
    + split; [discriminate | intros (r & [= -> _] & _); contradiction].
Qed.

(** X11: the e-mail test accepts exactly the texts of the form
    [local@domain.tld] whose three parts are non-empty and contain neither
    white space nor an at sign; in particular an accepted address has no
    white space and exactly one at sign. *)
Theorem emailRegex_accepts (email : jsstring) :
  (Contact.emailRegex email = true <->
   exists local domain tld,
     email = local ++ [Contact.AT] ++ domain ++ [Contact.DOT] ++ tld /\
     local <> [] /\ domain <> [] /\ tld <> [] /\
     Forall (fun c => Contact.email_char c = true) (local ++ domain ++ tld)) /\
  (Contact.emailRegex email = true ->
   Forall (fun c => is_space c = false) email /\
   length (List.filter (fun c => Ascii.eqb c Contact.AT) email) = 1%nat).
Proof.
  assert (Hspec :
    Contact.emailRegex email = true <->
    exists local domain tld,
      email = local ++ [Contact.AT] ++ domain ++ [Contact.DOT] ++ tld /\
      local <> [] /\ domain <> [] /\ tld <> [] /\
      Forall (fun c => Contact.email_char c = true) (local ++ domain ++ tld)).
  { unfold Contact.emailRegex. rewrite plus_then_spec. split.
    - intros (local & r1 & -> & Hl & Hlc & H1).
      apply lit_then_spec in H1 as (r2 & -> & H2).
      apply plus_then_spec in H2 as (domain & r3 & -> & Hd & Hdc & H3).
      apply lit_then_spec in H3 as (r4 & -> & H4).
      apply plus_then_spec in H4 as (tld & r5 & -> & Ht & Htc & H5).
      destruct r5; [| discriminate H5]. rewrite app_nil_r.
      exists local, domain, tld. repeat split; try assumption.
      apply Forall_app. split; [exact Hlc |]. apply Forall_app. split; assumption.
    - intros (local & domain & tld & -> & Hl & Hd & Ht & Hall).
      apply Forall_app in Hall as [Hlc Hall]. apply Forall_app in Hall as [Hdc Htc].
      exists local, ([Contact.AT] ++ domain ++ [Contact.DOT] ++ tld).
      repeat split; try assumption.
      apply lit_then_spec. eexists. split; [reflexivity |].
      apply plus_then_spec. exists domain, ([Contact.DOT] ++ tld).
      repeat split; try assumption.
      apply lit_then_spec. eexists. split; [reflexivity |].
      apply plus_then_spec. exists tld, []. rewrite app_nil_r.
      repeat split; assumption. }
  split; [exact Hspec |].
  intros Hok. apply Hspec in Hok as (local & domain & tld & -> & _ & _ & _ & Hall).
  apply Forall_app in Hall as [Hlc Hall]. apply Forall_app in Hall as [Hdc Htc].
  assert (Hclass : forall part, Forall (fun c => Contact.email_char c = true) part ->
                     Forall (fun c => is_space c = false) part /\
                     List.filter (fun c => Ascii.eqb c Contact.AT) part = []).
  { induction 1 as [| c part Hc _ [IH1 IH2]]; [split; [constructor | reflexivity] |].
    unfold Contact.email_char in Hc. apply andb_true_iff in Hc as [Hs Ha].
    apply negb_true_iff in Hs. apply negb_true_iff in Ha.
    split; [constructor; assumption |]. cbn [List.filter]. rewrite Ha. exact IH2. }
  destruct (Hclass _ Hlc) as [Hl1 Hl2], (Hclass _ Hdc) as [Hd1 Hd2],
           (Hclass _ Htc) as [Ht1 Ht2].
  split.
  - repeat (apply Forall_app; split); try assumption;
      constructor; [reflexivity | constructor | reflexivity | constructor].
  - rewrite !List.filter_app, Hl2, Hd2, Ht2. reflexivity.
Qed.

Lemma emailRegex_accepts_witness :
  Forall (fun c => is_space c = false) (js "ana.li@example.co.uk") /\
  length (List.filter (fun c => Ascii.eqb c Contact.AT) (js "ana.li@example.co.uk")) = 1%nat.
Proof.
  apply (emailRegex_accepts (js "ana.li@example.co.uk")).
  vm_compute. reflexivity.
Defined.

Example emailRegex_examples :
  Contact.emailRegex (js "ana@example") = false /\
  Contact.emailRegex (js "ana@@example.org") = false /\
  Contact.emailRegex (js "ana li@example.org") = false /\
  Contact.emailRegex (js "ana@example.") = false /\
  Contact.emailRegex (js "a@b.c") = true.
Proof. repeat split; vm_compute; reflexivity. Qed.

(** ** Slugs *)

Lemma lower_alnum_not_dash (c : ascii) : lower_alnum c = true -> is_dash c = false.
Proof.
  intros H. unfold is_dash. destruct (Ascii.eqb_spec c DASH) as [-> | _];
    [vm_compute in H; discriminate H | reflexivity].
Qed.

Lemma strip_dashes_start_drop_while (s : jsstring) :
  Knowledge.strip_dashes_start s = drop_while is_dash s.
Proof.
  induction s as [| c s IH]; simpl; [reflexivity |].
  unfold is_dash, DASH. rewrite IH. reflexivity.
Qed.

Lemma strip_dashes_strip_both (s : jsstring) :
  Knowledge.strip_dashes s = strip_both is_dash s.
Proof.
  unfold Knowledge.strip_dashes, strip_both.
  rewrite !strip_dashes_start_drop_while. reflexivity.
Qed.

Lemma dash_runs_elem (in_run : bool) (c : ascii) (s : jsstring) :
  c ∈ Knowledge.dash_runs in_run s -> lower_alnum c = true \/ c = DASH.
Proof.
  revert in_run. induction s as [| x s IH]; intros in_run Hc; simpl in Hc.
  - inversion Hc.
  - destruct (is_lower x || is_digit x) eqn:Hx.
    + apply elem_of_cons in Hc as [-> | Hc]; [left; exact Hx | exact (IH _ Hc)].
    + destruct in_run; [exact (IH _ Hc) |].
      apply elem_of_cons in Hc as [-> | Hc]; [right; reflexivity | exact (IH _ Hc)].
Qed.

Lemma dash_runs_shape (in_run : bool) (s : jsstring) :
  no_double is_dash (Knowledge.dash_runs in_run s) /\
  (in_run = true ->
   forall c, head (Knowledge.dash_runs in_run s) = Some c -> is_dash c = false).
Proof.
  revert in_run. induction s as [| x s IH]; intros in_run; simpl.
  - split; [exact I | discriminate].
  - destruct (is_lower x || is_digit x) eqn:Hx.
    + destruct (IH false) as [Hnd _]. split.
      * destruct (Knowledge.dash_runs false s) as [| y t] eqn:Hc; [exact I |].
        split; [| exact Hnd]. intros Hd.
        rewrite (lower_alnum_not_dash x Hx) in Hd. discriminate.
      * intros _ c [= <-]. apply lower_alnum_not_dash. exact Hx.
    + destruct in_run; [exact (IH true) |].
      destruct (IH true) as [Hnd Hhead]. split; [| discriminate].
      destruct (Knowledge.dash_runs true s) as [| y t] eqn:Hc; [exact I |].
      split; [| exact Hnd]. intros _. exact (Hhead eq_refl y eq_refl).
Qed.

Lemma dash_runs_id (in_run : bool) (s : jsstring) :
  Forall (fun c => lower_alnum c = true \/ c = DASH) s ->
  no_double is_dash s ->
  (in_run = true -> forall c, head s = Some c -> is_dash c = false) ->
  Knowledge.dash_runs in_run s = s.
Proof.
  revert in_run. induction s as [| x s IH]; intros in_run Hall Hnd Hhead; [reflexivity |].
  inversion Hall as [| ? ? Hx Hrest]; subst. simpl.
  assert (Htail : no_double is_dash s) by (destruct s; [exact I | exact (proj2 Hnd)]).
  destruct Hx as [Hx | ->].
  - unfold lower_alnum in Hx. rewrite Hx. f_equal.
    apply IH; [exact Hrest | exact Htail | discriminate].
  - change (is_lower DASH || is_digit DASH) with false. cbv iota.
    destruct in_run; [discriminate (Hhead eq_refl DASH eq_refl) |].
    f_equal. apply IH; [exact Hrest | exact Htail |].
    intros _ c Hc. destruct s as [| y t]; [discriminate |].
    injection Hc as <-. exact (proj1 Hnd eq_refl).
Qed.

Lemma slugify_shaped (value : jsstring) : slug_shaped (Knowledge.slugify value).
Proof.
  unfold Knowledge.slugify. rewrite strip_dashes_strip_both. split; [| split].
  - apply Forall_forall. intros c Hc.
    destruct (strip_both_split is_dash (Knowledge.dash_runs false (toLowerCase value)))
      as (pre & post & Heq & _ & _).
    apply (dash_runs_elem false c (toLowerCase value)).
    rewrite Heq. apply elem_of_app. right. apply elem_of_app. left. exact Hc.
  - apply strip_both_clean.
  - apply strip_both_no_double. apply dash_runs_shape.
Qed.

Lemma slug_shaped_fixed (s : jsstring) : slug_shaped s -> Knowledge.slugify s = s.
Proof.
  intros (Hall & Hends & Hnd). unfold Knowledge.slugify.
  assert (Hlow : toLowerCase s = s).
  { unfold toLowerCase. rewrite <- (map_id s) at 2. apply map_ext_Forall.
    apply (List.Forall_impl _ (P := fun c => lower_alnum c = true \/ c = DASH));
      [| exact Hall].
    intros c [H | ->]; [apply lower_alnum_lower_char; exact H | reflexivity]. }
  rewrite Hlow, dash_runs_id; [| exact Hall | exact Hnd | discriminate].
  rewrite strip_dashes_strip_both. apply strip_both_id. exact Hends.
Qed.

(** X12: a slug consists of lower-case letters, digits and single
    dashes, with no dash at either end, and the slug of a slug is the
    slug itself. *)
Theorem slugify_canonical (value : jsstring) :
  slug_shaped (Knowledge.slugify value) /\
  Knowledge.slugify (Knowledge.slugify value) = Knowledge.slugify value.
Proof.
  split; [apply slugify_shaped | apply slug_shaped_fixed, slugify_shaped].
Qed.

Example slugify_example :
  Knowledge.slugify (js "  Metabolic_Risks (v2).final ") = js "metabolic-risks-v2-final".
Proof. vm_compute. reflexivity. Qed.

(** ** The overlap tail *)

Lemma indexOf_some (c : ascii) (s : jsstring) (i : nat) :
  indexOf c s = Some i ->
  s = take i s ++ c :: drop (S i) s /\ c ∉ take i s.
Proof.
  revert i. induction s as [| x s IH]; intros i Hi; simpl in Hi; [discriminate |].
  destruct (Ascii.eqb_spec x c) as [-> | Hne].
  - injection Hi as <-. simpl. split; [reflexivity | intros H; inversion H].
  - destruct (indexOf c s) as [j |] eqn:Hj; [| discriminate].
    injection Hi as <-. destruct (IH j eq_refl) as [Heq Hout].
    simpl. split; [f_equal; exact Heq |].
    intros H. apply elem_of_cons in H as [H | H]; [congruence | contradiction].
Qed.

Lemma indexOf_none (c : ascii) (s : jsstring) : indexOf c s = None -> c ∉ s.
Proof.
  induction s as [| x s IH]; simpl; intros Hi H; [inversion H |].
  destruct (Ascii.eqb_spec x c) as [-> | Hne]; [discriminate |].
  destruct (indexOf c s); [discriminate |].
  apply elem_of_cons in H as [H | H]; [congruence | exact (IH eq_refl H)].
Qed.

(** X13: the overlap tail is a suffix of the previous chunk of at most
    [maxChars] characters; a chunk that fits is taken whole; otherwise,
    when the last [maxChars] characters contain a space, the tail starts
    right after the first of these spaces, and when they contain none it
    is exactly these characters. *)
Theorem getTailAtWordBoundary_suffix (text : jsstring) (maxChars : nat) :
  let tail := Chunker.getTailAtWordBoundary text maxChars in
  let window := drop (length text - maxChars) text in
  (exists before, text = before ++ tail) /\
  (length tail <= maxChars)%nat /\
  ((length text <= maxChars)%nat -> tail = text) /\
  ((maxChars < length text)%nat -> space ∈ window ->
   exists before skipped,
     text = before ++ skipped ++ [space] ++ tail /\
     length (skipped ++ [space] ++ tail) = maxChars /\ space ∉ skipped) /\
  ((maxChars < length text)%nat -> space ∉ window -> tail = window).
Proof.
  intros tail window. subst tail window.
  split; [| split; [apply length_getTailAtWordBoundary |]];
    unfold Chunker.getTailAtWordBoundary.
  - destruct (length text <=? maxChars)%nat; [exists []; reflexivity |].
    destruct (indexOf space _) as [i |].
    + exists (take (length text - maxChars + (i + 1)) text).
      rewrite drop_drop, take_drop. reflexivity.
    + exists (take (length text - maxChars) text). rewrite take_drop. reflexivity.
  - split; [| split].
    + intros Hfit. apply Nat.leb_le in Hfit. rewrite Hfit. reflexivity.
    + intros Hcut Hin. apply Nat.leb_gt in Hcut as Hcut'. rewrite Hcut'.
      destruct (indexOf space _) as [i |] eqn:Hi;
        [| exfalso; exact (indexOf_none _ _ Hi Hin)].
      destruct (indexOf_some _ _ _ Hi) as [Heq Hout].
      exists (take (length text - maxChars) text),
             (take i (drop (length text - maxChars) text)).
      replace (i + 1)%nat with (S i) by lia.
      split; [| split; [| exact Hout]].
      * rewrite <- (take_drop (length text - maxChars) text) at 1. f_equal.
        exact Heq.
      * change (?a ++ [space] ++ ?b) with (a ++ space :: b). rewrite <- Heq.
        rewrite length_drop. lia.
    + intros Hcut Hout. apply Nat.leb_gt in Hcut as Hcut'. rewrite Hcut'.
      destruct (indexOf space _) as [i |] eqn:Hi; [| reflexivity].
      destruct (indexOf_some _ _ _ Hi) as [Heq _].
      exfalso. apply Hout. rewrite Heq. apply elem_of_app. right. left.
Qed.

Lemma getTailAtWordBoundary_suffix_witness :
  exists before skipped,
    js "insulin resistance matters" = before ++ skipped ++ [space] ++ js "matters" /\
    length (skipped ++ [space] ++ js "matters") = 10%nat /\ space ∉ skipped.
Proof.
  destruct (getTailAtWordBoundary_suffix (js "insulin resistance matters") 10)
    as (_ & _ & _ & Hcut & _).
  apply Hcut.
  - vm_compute. lia.
  - vm_compute. apply list_elem_of_In. simpl. tauto.
Defined.

(** ** Chunk sizes *)

Section ChunkBound.
Variables maxChars overlapChars bound : nat.
Hypothesis bound_window : (maxChars <= bound)%nat.
Hypothesis bound_seeded :
  forall tail paragraph : jsstring,
    tail <> [] -> (length tail <= overlapChars)%nat ->
    (length paragraph <= maxChars)%nat ->
    (length tail + 2 + length paragraph <= bound)%nat.

Lemma chunk_step_within (chunks chunks' : list jsstring)
      (current current' paragraph : jsstring) :
  Forall (within bound) chunks -> within bound current ->
  Chunker.chunk_step maxChars overlapChars (chunks, current) paragraph
  = Some (chunks', current') ->
  Forall (within bound) chunks' /\ within bound current'.
Proof.
  intros Hchunks Hcurrent. unfold Chunker.chunk_step.
  set (candidate := if Chunker.nonempty current
                    then current ++ Chunker.blank_line ++ paragraph else paragraph).
  set (chunks1 := if Chunker.nonempty current then chunks ++ [current] else chunks).
  set (overlap := match last chunks1 with
                  | Some previous => Chunker.getTailAtWordBoundary previous overlapChars
                  | None => []
                  end).
  set (seeded := if Chunker.nonempty overlap
                 then overlap ++ Chunker.blank_line ++ paragraph else paragraph).
  assert (Hpushed : Forall (within bound) chunks1)
    by (apply Forall_snoc_if; auto).
  assert (Hoverlap : (length overlap <= overlapChars)%nat).
  { subst overlap. destruct (last chunks1) as [previous |]; [| simpl; lia].
    apply length_getTailAtWordBoundary. }
  destruct (length candidate <=? maxChars)%nat eqn:Hfit.
  { apply Nat.leb_le in Hfit. intros Heq.
    assert (chunks' = chunks /\ current' = candidate) as [-> ->]
      by (split; congruence).
    split; [exact Hchunks | unfold within; lia]. }
  destruct (maxChars <? length paragraph)%nat eqn:Hbig.
  - destruct (Chunker.slice_loop _ _ _ _ _ _) as [chunks2 |] eqn:Hslice; [| discriminate].
    intros Heq.
    assert (chunks' = chunks2 /\ current' = []) as [-> ->] by (split; congruence).
    apply slice_loop_windows in Hslice as (windows & -> & Hwin).
    split; [| unfold within; simpl; lia].
    apply Forall_app. split; [exact Hpushed |].
    apply (within_weaken maxChars); [exact bound_window | exact Hwin].
  - apply Nat.ltb_ge in Hbig. intros Heq.
    assert (chunks' = chunks1 /\ current' = seeded) as [-> ->] by (split; congruence).
    split; [exact Hpushed |].
    unfold within. subst seeded.
    destruct overlap as [| c overlap'] eqn:Ho; [simpl; lia |].
    cbn [Chunker.nonempty length Nat.eqb negb].
    rewrite length_blank_line_join. apply bound_seeded; [discriminate | exact Hoverlap | exact Hbig].
Qed.

Lemma chunk_loop_within (paragraphs : list jsstring)
      (chunks chunks' : list jsstring) (current current' : jsstring) :
  Forall (within bound) chunks -> within bound current ->
  Chunker.chunk_loop maxChars overlapChars (chunks, current) paragraphs
  = Some (chunks', current') ->
  Forall (within bound) chunks' /\ within bound current'.
Proof.
  revert chunks current.
  induction paragraphs as [| paragraph rest IH]; intros chunks current Hc Hcur Hrun;
    cbn [Chunker.chunk_loop] in Hrun.
  - injection Hrun as <- <-. auto.
  - destruct (Chunker.chunk_step _ _ _ _) as [[chunks1 current1] |] eqn:Hstep;
      [| discriminate].
    destruct (chunk_step_within _ _ _ _ _ Hc Hcur Hstep) as [Hc1 Hcur1].
    exact (IH _ _ Hc1 Hcur1 Hrun).
Qed.

Lemma chunkText_within (text : jsstring) (chunks : list jsstring) :
  Chunker.chunkText text maxChars overlapChars = Some chunks ->
  Forall (within bound) chunks.
Proof.
  unfold Chunker.chunkText.
  destruct (Chunker.chunk_loop _ _ _ _) as [[chunks1 current] |] eqn:Hloop;
    [| discriminate].
  intros [= <-].
  assert (Hnil : within bound []) by (unfold within; simpl; lia).
  destruct (chunk_loop_within _ [] _ [] _ (List.Forall_nil _) Hnil Hloop) as [Hc Hcur].
  apply List.Forall_forall. intros chunk Hin.
  apply filter_In in Hin as [Hin _]. apply in_map_iff in Hin as (raw & <- & Hraw).
  assert (Hall : Forall (within bound)
                   (if Chunker.nonempty current then chunks1 ++ [current] else chunks1))
    by (apply Forall_snoc_if; auto).
  rewrite List.Forall_forall in Hall. specialize (Hall raw Hraw).
  unfold within in *. pose proof (length_trim raw). lia.
Qed.

End ChunkBound.

(** X14: every chunk has at most [maxChars + overlapChars + 2]
    characters, and with an overlap of 0 every chunk has at most
    [maxChars] characters. *)
Theorem chunk_sizes (text : jsstring) (maxChars overlapChars : nat)
        (chunks : list jsstring) :
  Chunker.chunkText text maxChars overlapChars = Some chunks ->
  Forall (within (maxChars + overlapChars + 2)) chunks /\
  (overlapChars = 0%nat -> Forall (within maxChars) chunks).
Proof.
  intros Hrun. split.
  - apply (chunkText_within maxChars overlapChars) with (text := text);
      [lia | intros; lia | exact Hrun].
  - intros ->. apply (chunkText_within maxChars 0) with (text := text);
      [lia | | exact Hrun].
    intros tail paragraph Hne Hlen _. destruct tail; [contradiction | simpl in Hlen; lia].
Qed.

Lemma chunk_sizes_witness :
  Forall (within (1800 + 260 + 2))
         [first_paragraph;
          repeat "b"%char 260 ++ Chunker.blank_line ++ second_paragraph].
Proof.
  apply (chunk_sizes two_paragraphs 1800 260). vm_compute. reflexivity.
Defined.

(** X15: every window the slicing loop cuts from an oversized paragraph
    has at most [maxChars] characters, and the windows are appended to
    the chunks already made. *)
Theorem hard_slice_windows_bounded (fuel : nat) (paragraph : jsstring)
        (maxChars overlapChars start : nat) (chunks result : list jsstring) :
  Chunker.slice_loop fuel paragraph maxChars overlapChars start chunks = Some result ->
  exists windows,
    result = chunks ++ windows /\ Forall (within maxChars) windows.
Proof. apply slice_loop_windows. Qed.

Lemma hard_slice_windows_bounded_witness :
  exists windows,
    [js "abcdefghij"; js "fghijklmno"; js "klmnopqrst"; js "pqrstuvwx"]
    = [] ++ windows /\
    Forall (within 10) windows.
Proof.
  apply (hard_slice_windows_bounded 25 (js "abcdefghijklmnopqrstuvwx") 10 5 0 []).
  vm_compute. reflexivity.
Defined.

(** X16: with an overlap smaller than the window size, [chunkText]
    returns for every text. *)
Theorem chunking_terminates (text : jsstring) (maxChars overlapChars : nat) :
  (overlapChars < maxChars)%nat ->
  exists chunks, Chunker.chunkText text maxChars overlapChars = Some chunks.
Proof. apply chunkText_terminates. Qed.

Lemma chunking_terminates_witness :
  exists chunks, Chunker.chunkText two_paragraphs 1800 260 = Some chunks.
Proof. apply (chunking_terminates two_paragraphs 1800 260). lia. Defined.

(** X17: with an overlap at least as large as the window size, the
    slicing loop of a paragraph longer than the window never ends: the
    start index is 0 again after every window, whatever the number of
    iterations allowed. *)
Theorem hard_slice_never_ends (paragraph : jsstring) (maxChars overlapChars : nat) :
  (maxChars <= overlapChars)%nat ->
  (maxChars < length paragraph)%nat ->
  forall fuel chunks,
    Chunker.slice_loop fuel paragraph maxChars overlapChars 0 chunks = None.
Proof.
  intros Hoverlap Hbig fuel.
  induction fuel as [| fuel IH]; intros chunks; [reflexivity |].
  cbn [Chunker.slice_loop].
  assert (Hstart : (0 <? length paragraph)%nat = true) by (apply Nat.ltb_lt; lia).
  rewrite Hstart. cbn [negb].
  assert (Hstop : Nat.min (0 + maxChars) (length paragraph) = maxChars) by lia.
  rewrite Hstop.
  assert (Hmore : (length paragraph <=? maxChars)%nat = false)
    by (apply Nat.leb_gt; exact Hbig).
  rewrite Hmore.
  assert (Hback : (maxChars - overlapChars = 0)%nat) by lia.
  rewrite Hback. apply IH.
Qed.

Lemma hard_slice_never_ends_witness :
  Chunker.slice_loop 1000 (js "abcdefghijklmnopqrstuvwx") 5 5 0 [] = None.
Proof.
  apply (hard_slice_never_ends (js "abcdefghijklmnopqrstuvwx") 5 5).
  - lia.
  - vm_compute. lia.
Defined.

(** X18: every chunk is non-empty and has no white space at either end. *)
Theorem chunks_trimmed_nonempty (text : jsstring) (maxChars overlapChars : nat)
        (chunks : list jsstring) :
  Chunker.chunkText text maxChars overlapChars = Some chunks ->
  Forall (fun chunk => chunk <> [] /\ clean_ends is_space chunk) chunks.
Proof.
  unfold Chunker.chunkText.
  destruct (Chunker.chunk_loop _ _ _ _) as [[chunks1 current] |]; [| discriminate].
  intros [= <-]. apply List.Forall_forall. intros chunk Hin.
  apply filter_In in Hin as [Hin Hne]. apply in_map_iff in Hin as (raw & <- & _).
  split.
  - intros Hnil. rewrite Hnil in Hne. discriminate.
  - rewrite trim_strip_both. apply strip_both_clean.
Qed.

Lemma chunks_trimmed_nonempty_witness :
  Forall (fun chunk => chunk <> [] /\ clean_ends is_space chunk)
         [js "aaaa bbbb"; js "bbbb" ++ Chunker.blank_line ++ js "cccccccccc"].
Proof.
  apply (chunks_trimmed_nonempty
           (js "aaaa bbbb" ++ Chunker.blank_line ++ js "cccccccccc") 10 5).
  vm_compute. reflexivity.
Defined.

(** ** Texts that fit in one chunk *)

Lemma paragraphs_of_clean (text : jsstring) :
  Forall (fun p => p <> [] /\ clean_ends is_space p) (Chunker.paragraphs_of text).
Proof.
  unfold Chunker.paragraphs_of. apply List.Forall_forall. intros p Hin.
  apply filter_In in Hin as [Hin Hne]. apply in_map_iff in Hin as (raw & <- & _).
  split.
  - intros Hnil. rewrite Hnil in Hne. discriminate.
  - unfold Chunker.normalizeWhitespace. rewrite trim_strip_both. apply strip_both_clean.
Qed.

Lemma nonempty_true (s : jsstring) : s <> [] -> Chunker.nonempty s = true.
Proof. destruct s; [contradiction | reflexivity]. Qed.

Lemma clean_ends_join (p : ascii -> bool) (a b c : jsstring) :
  a <> [] -> c <> [] -> clean_ends p a -> clean_ends p c -> clean_ends p (a ++ b ++ c).
Proof.
  intros Ha Hc [Hhead _] [_ Hlast]. split; intros x Hx.
  - destruct a as [| y a]; [contradiction |]. apply Hhead. exact Hx.
  - apply Hlast. rewrite app_assoc in Hx.
    destruct c as [| y c]; [contradiction |].
    rewrite last_app_cons in Hx. exact Hx.
Qed.

Lemma length_join_grows (rest : list jsstring) (buffer : jsstring) :
  (length buffer
   <= length (foldl (fun b q => b ++ Chunker.blank_line ++ q) buffer rest))%nat.
Proof.
  revert buffer. induction rest as [| q rest IH]; intros buffer; simpl; [lia |].
  etransitivity; [| apply IH]. rewrite !length_app. lia.
Qed.

Lemma chunk_loop_fits (maxChars overlapChars : nat) (rest : list jsstring)
      (buffer : jsstring) :
  buffer <> [] ->
  (length (foldl (fun b q => b ++ Chunker.blank_line ++ q) buffer rest)
   <= maxChars)%nat ->
  Chunker.chunk_loop maxChars overlapChars ([], buffer) rest
  = Some ([], foldl (fun b q => b ++ Chunker.blank_line ++ q) buffer rest).
Proof.
  revert buffer. induction rest as [| q rest IH]; intros buffer Hne Hlen; [reflexivity |].
  cbn [Chunker.chunk_loop foldl] in *.
  unfold Chunker.chunk_step. rewrite (nonempty_true buffer Hne).
  pose proof (length_join_grows rest (buffer ++ Chunker.blank_line ++ q)) as Hgrow.
  assert (Hfit : (length (buffer ++ Chunker.blank_line ++ q) <=? maxChars)%nat = true)
    by (apply Nat.leb_le; lia).
  rewrite Hfit. apply IH; [| exact Hlen].
  destruct buffer; [contradiction | discriminate].
Qed.

Lemma join_clean (rest : list jsstring) (buffer : jsstring) :
  buffer <> [] -> clean_ends is_space buffer ->
  Forall (fun p => p <> [] /\ clean_ends is_space p) rest ->
  let joined := foldl (fun b q => b ++ Chunker.blank_line ++ q) buffer rest in
  joined <> [] /\ clean_ends is_space joined.
Proof.
  revert buffer. induction rest as [| q rest IH]; intros buffer Hne Hclean Hall; simpl.
  - auto.
  - inversion Hall as [| ? ? [Hq Hqc] Hrest]; subst. apply IH; [| | exact Hrest].
    + destruct buffer; [contradiction | discriminate].
    + apply (clean_ends_join is_space buffer Chunker.blank_line q); assumption.
Qed.

(** X19: a text whose paragraphs, joined by blank lines, have at most
    [maxChars] characters is not split: it yields exactly one chunk, the
    joined paragraphs; a text without any paragraph yields no chunk. *)
Theorem text_that_fits_is_one_chunk (text : jsstring) (maxChars overlapChars : nat) :
  (length (join_paragraphs (Chunker.paragraphs_of text)) <= maxChars)%nat ->
  Chunker.chunkText text maxChars overlapChars
  = Some match Chunker.paragraphs_of text with
         | [] => []
         | _ :: _ => [join_paragraphs (Chunker.paragraphs_of text)]
         end.
Proof.
  intros Hlen. unfold Chunker.chunkText.
  pose proof (paragraphs_of_clean text) as Hclean.
  destruct (Chunker.paragraphs_of text) as [| first rest]; [reflexivity |].
  inversion Hclean as [| ? ? [Hne Hfirst] Hrest]; subst.
  cbn [join_paragraphs] in *. cbn [Chunker.chunk_loop].
  pose proof (length_join_grows rest first) as Hgrow.
  unfold Chunker.chunk_step. cbn [Chunker.nonempty length Nat.eqb negb].
  assert (Hfit : (length first <=? maxChars)%nat = true) by (apply Nat.leb_le; lia).
  rewrite Hfit, (chunk_loop_fits _ _ _ _ Hne Hlen).
  destruct (join_clean rest first Hne Hfirst Hrest) as [Hjne Hjclean].
  rewrite (nonempty_true _ Hjne). cbn [app map].
  rewrite trim_strip_both, (strip_both_id _ _ Hjclean).
  cbn [List.filter]. rewrite (nonempty_true _ Hjne). reflexivity.
Qed.

Lemma text_that_fits_is_one_chunk_witness :
  Chunker.chunkText (js "PCOS  is common." ++ [LF; LF; LF] ++ js " It varies. ") 1800 260
  = Some [js "PCOS is common." ++ Chunker.blank_line ++ js "It varies."].
Proof.
  rewrite (text_that_fits_is_one_chunk
             (js "PCOS  is common." ++ [LF; LF; LF] ++ js " It varies. ") 1800 260).
  - vm_compute. reflexivity.
  - vm_compute. lia.
Defined.

(** ** Rebuilding the embedding index *)

Section Rebuild.
Import EmbeddingBuilder.

Variable contentHash : jsstring -> jsstring.
Variable API_KEY : jsstring.
Variable MODEL : jsstring.
Variable KB_EMBED_BATCH_SIZE : nat.

Local Abbreviation B := (BATCH_SIZE KB_EMBED_BATCH_SIZE).
Local Abbreviation belongs := (record_of contentHash).
Local Abbreviation queued_for := (queued_as contentHash).

Lemma split_cached_origin (existingMap : gmap jsstring Item) (docs : list Doc) :
  let '(reused, pendingDocs) := split_cached contentHash existingMap docs in
  Forall (fun item => exists doc, doc ∈ docs /\ belongs doc item) reused /\
  Forall (fun p => exists doc, doc ∈ docs /\ queued_for doc p) pendingDocs /\
  map item_id reused ++ map p_id pendingDocs ≡ₚ map id docs.
Proof.
  induction docs as [| d docs IH]; [repeat split; constructor |].
  cbn [split_cached].
  destruct (split_cached contentHash existingMap docs) as [reused pendingDocs].
  destruct IH as (Hr & Hp & Hperm).
  assert (Hr' : Forall (fun item => exists doc, doc ∈ d :: docs /\ belongs doc item) reused).
  { apply (List.Forall_impl _ (P := fun item => exists doc, doc ∈ docs /\ belongs doc item));
      [| exact Hr].
    intros item (doc & Hin & Hb). exists doc. split; [right; exact Hin | exact Hb]. }
  assert (Hp' : Forall (fun p => exists doc, doc ∈ d :: docs /\ queued_for doc p) pendingDocs).
  { apply (List.Forall_impl _ (P := fun p => exists doc, doc ∈ docs /\ queued_for doc p));
      [| exact Hp].
    intros p (doc & Hin & Hb). exists doc. split; [right; exact Hin | exact Hb]. }
  assert (Hqueue :
    Forall (fun item => exists doc, doc ∈ d :: docs /\ belongs doc item) reused /\
    Forall (fun p => exists doc, doc ∈ d :: docs /\ queued_for doc p)
           ({| p_id := id d; p_inputText := inputText d;
               p_hash := contentHash (inputText d) |} :: pendingDocs) /\
    map item_id reused
      ++ map p_id ({| p_id := id d; p_inputText := inputText d;
                      p_hash := contentHash (inputText d) |} :: pendingDocs)
    ≡ₚ map id (d :: docs)).
  { split; [exact Hr' |]. split.
    - constructor; [| exact Hp']. exists d. split; [left | split; reflexivity].
    - cbn [map p_id]. rewrite <- Permutation_middle. constructor. exact Hperm. }
  destruct (existingMap !! id d) as [cached |]; [| exact Hqueue].
  destruct (bool_decide _); [| exact Hqueue].
  split; [| split; [exact Hp' |]].
  - constructor; [| exact Hr']. exists d. split; [left | split; reflexivity].
  - cbn [map item_id app]. constructor. exact Hperm.
Qed.

Lemma collect_records (batch : list Pending) (entries : list (option (list float)))
      (l : list Item) :
  collect batch entries = inr l ->
  Forall2 (fun p item => item_id item = p_id p /\ item_hash item = p_hash p) batch l.
Proof.
  revert entries l. induction batch as [| d batch IH]; intros entries l Hc; simpl in Hc.
  - injection Hc as <-. constructor.
  - destruct entries as [| [embedding |] entries]; try discriminate Hc.
    destruct (collect batch entries) as [e | l'] eqn:Hrec; [discriminate Hc |].
    injection Hc as <-. constructor; [split; reflexivity | exact (IH entries l' Hrec)].
Qed.

Lemma embed_all_records (getEmbeddings : nat -> list jsstring -> ApiResult)
      (fuel call : nat) (pendingDocs : list Pending) (acc all : list Item) :
  (length pendingDocs <= fuel)%nat ->
  embed_all KB_EMBED_BATCH_SIZE getEmbeddings fuel call pendingDocs acc = inr all ->
  exists embedded,
    all = acc ++ embedded /\
    Forall2 (fun p item => item_id item = p_id p /\ item_hash item = p_hash p)
            pendingDocs embedded.
Proof.
  revert call pendingDocs acc.
  induction fuel as [| fuel IH]; intros call pendingDocs acc Hfuel Hrun.
  - destruct pendingDocs; [| simpl in Hfuel; lia].
    simpl in Hrun. injection Hrun as <-. exists []. rewrite app_nil_r.
    split; [reflexivity | constructor].
  - destruct pendingDocs as [| d rest].
    { simpl in Hrun. injection Hrun as <-. exists []. rewrite app_nil_r.
      split; [reflexivity | constructor]. }
    cbn [embed_all] in Hrun.
    destruct (embed_batch _ _) as [e | embedded] eqn:Hbatch; [discriminate Hrun |].
    apply IH in Hrun as (more & -> & Hmore).
    + exists (embedded ++ more). rewrite app_assoc. split; [reflexivity |].
      rewrite <- (take_drop B (d :: rest)). apply Forall2_app; [| exact Hmore].
      destruct (getEmbeddings _ _) as [| | entries]; simpl in Hbatch; try discriminate.
      destruct (length entries =? _)%nat; simpl in Hbatch; [| discriminate].
      exact (collect_records _ _ _ Hbatch).
    + apply length_drop_batch; [discriminate | exact Hfuel].
Qed.

Lemma foldl_insert_other (l : list Item) (m : gmap jsstring Item) (i : jsstring) :
  i ∉ map item_id l ->
  foldl (fun m item => <[item_id item := item]> m) m l !! i = m !! i.
Proof.
  revert m. induction l as [| x l IH]; intros m Hout; [reflexivity |].
  simpl. rewrite IH.
  - apply lookup_insert_ne. intros Heq. apply Hout. rewrite <- Heq. left.
  - intros Hin. apply Hout. right. exact Hin.
Qed.

(** With pairwise different ids, the map by id returns each record. *)
Lemma index_by_id_nodup (l : list Item) (item : Item) :
  NoDup (map item_id l) -> item ∈ l -> index_by_id l !! item_id item = Some item.
Proof.
  unfold index_by_id. generalize (∅ : gmap jsstring Item).
  induction l as [| x l IH]; intros m Hnd Hin; [inversion Hin |].
  apply NoDup_cons in Hnd as [Hx Hnd]. simpl.
  apply elem_of_cons in Hin as [-> | Hin].
  - rewrite foldl_insert_other by exact Hx. apply lookup_insert_eq.
  - apply IH; assumption.
Qed.

Lemma same_id_same_doc (docs : list Doc) (d d' : Doc) :
  NoDup (map id docs) -> d ∈ docs -> d' ∈ docs -> id d = id d' -> d = d'.
Proof.
  induction docs as [| x docs IH]; intros Hnd Hd Hd' Hid; [inversion Hd |].
  apply NoDup_cons in Hnd as [Hx Hnd].
  apply elem_of_cons in Hd as [-> | Hd]; apply elem_of_cons in Hd' as [-> | Hd'].
  - reflexivity.
  - exfalso. apply Hx. rewrite Hid. apply list_elem_of_fmap. eauto.
  - exfalso. apply Hx. rewrite <- Hid. apply list_elem_of_fmap. eauto.
  - apply IH; assumption.
Qed.

Lemma ordered_records (byId : gmap jsstring Item) (docs part : list Doc) :
  (forall doc, doc ∈ part -> exists item, byId !! id doc = Some item /\ belongs doc item) ->
  up_to_date contentHash part (omap (fun doc => byId !! id doc) part).
Proof.
  induction part as [| d part IH]; intros Hall; [constructor |].
  destruct (Hall d) as (item & Hlook & Hb); [left |].
  simpl. rewrite Hlook. constructor; [exact Hb |].
  apply IH. intros doc Hdoc. apply Hall. right. exact Hdoc.
Qed.

Lemma main_saved_records (getEmbeddings : nat -> list jsstring -> ApiResult)
        (disk disk' : Disk) (docs : list Doc) :
  docsFile disk = Some docs ->
  NoDup (map id docs) ->
  main contentHash API_KEY MODEL KB_EMBED_BATCH_SIZE getEmbeddings disk = (Saved, disk') ->
  exists records,
    disk' = {| docsFile := Some docs;
               outFile := Some {| model := MODEL; items := records |} |} /\
    up_to_date contentHash docs records.
Proof.
  intros Hdocs Hnd. unfold main. rewrite Hdocs.
  destruct (length API_KEY =? 0)%nat; [discriminate |].
  destruct docs as [| d0 docs0]; [discriminate |].
  cbv beta iota. set (docs := d0 :: docs0) in *.
  cbv zeta.
  pose proof (split_cached_origin
                (index_by_id (items match outFile disk with
                                    | Some payload => payload
                                    | None => {| model := MODEL; items := [] |}
                                    end)) docs) as Horigin.
  destruct (split_cached _ _ _) as [reused pendingDocs].
  destruct Horigin as (Hr & Hp & Hperm).
  destruct (embed_all _ _ _ _ _ _) as [e | all] eqn:Hrun; [discriminate |].
  intros [= <-]. eexists. split; [reflexivity |].
  apply embed_all_records in Hrun as (embedded & -> & Hemb); [| lia].
  assert (Hids : map item_id embedded = map p_id pendingDocs).
  { clear -Hemb. induction Hemb as [| p item ps its [Hi _] _ IH]; [reflexivity |].
    simpl. rewrite Hi, IH. reflexivity. }
  assert (Hall : Forall (fun item => exists doc, doc ∈ docs /\ belongs doc item)
                        (reused ++ embedded)).
  { apply Forall_app. split; [exact Hr |].
    clear -Hemb Hp. induction Hemb as [| p item ps its [Hi Hh] _ IH]; [constructor |].
    inversion Hp as [| ? ? (doc & Hin & Hq1 & Hq2) Hp']; subst.
    constructor; [| exact (IH Hp')].
    exists doc. split; [exact Hin |]. split; congruence. }
  assert (Hnd' : NoDup (map item_id (reused ++ embedded))).
  { rewrite map_app, Hids. rewrite Hperm. exact Hnd. }
  apply (ordered_records (index_by_id (reused ++ embedded)) docs docs).
  intros doc Hdoc.
  assert (Hin : id doc ∈ map item_id (reused ++ embedded)).
  { rewrite map_app, Hids, Hperm. apply list_elem_of_fmap. eauto. }
  apply list_elem_of_fmap in Hin as (item & Hid & Hitem).
  exists item. split; [rewrite Hid; apply index_by_id_nodup; assumption |].
  rewrite List.Forall_forall in Hall.
  destruct (Hall item (proj1 (list_elem_of_In _ _) Hitem)) as (doc' & Hdoc' & Hb).
  assert (doc' = doc) as ->; [| exact Hb].
  apply (same_id_same_doc docs); try assumption.
  destruct Hb as [Hb _]. congruence.
Qed.


(** X20: when the ids of the documents are pairwise different, the index
    a successful run writes is up to date: it has exactly one record per
    document, in the order of the documents file, each with the id of its
    document and the hash of that document's current title and content. *)
Theorem saved_index_up_to_date (getEmbeddings : nat -> list jsstring -> ApiResult)
        (disk disk' : Disk) (docs : list Doc) :
  docsFile disk = Some docs ->
  NoDup (map id docs) ->
  main contentHash API_KEY MODEL KB_EMBED_BATCH_SIZE getEmbeddings disk = (Saved, disk') ->
  exists records,
    disk' = {| docsFile := Some docs;
               outFile := Some {| model := MODEL; items := records |} |} /\
    up_to_date contentHash docs records.
Proof. apply main_saved_records. Qed.

Lemma up_to_date_ids (docs : list Doc) (records : list Item) :
  up_to_date contentHash docs records -> map item_id records = map id docs.
Proof.
  induction 1 as [| doc item docs records [Hid _] _ IH]; [reflexivity |].
  simpl. rewrite Hid, IH. reflexivity.
Qed.

Lemma belongs_rebuilt (doc : Doc) (cached : Item) :
  belongs doc cached ->
  {| item_id := id doc; item_hash := contentHash (inputText doc);
     item_embedding := item_embedding cached |} = cached.
Proof. intros [Hid Hhash]. destruct cached. simpl in *. subst. reflexivity. Qed.

Lemma split_cached_all_reused (existingMap : gmap jsstring Item)
      (docs : list Doc) (records : list Item) :
  up_to_date contentHash docs records ->
  (forall item, item ∈ records -> existingMap !! item_id item = Some item) ->
  split_cached contentHash existingMap docs = (records, []).
Proof.
  induction 1 as [| doc item docs records Hb _ IH]; intros Hlook; [reflexivity |].
  cbn [split_cached]. rewrite IH by (intros it Hit; apply Hlook; right; exact Hit).
  pose proof (Hlook item ltac:(left)) as Hitem.
  destruct Hb as [Hid Hhash]. rewrite Hid in Hitem. rewrite Hitem.
  rewrite bool_decide_eq_true_2 by exact Hhash.
  rewrite (belongs_rebuilt doc item (conj Hid Hhash)). reflexivity.
Qed.

Lemma omap_all_found (byId : gmap jsstring Item) (docs : list Doc) (records : list Item) :
  up_to_date contentHash docs records ->
  (forall item, item ∈ records -> byId !! item_id item = Some item) ->
  omap (fun doc => byId !! id doc) docs = records.
Proof.
  induction 1 as [| doc item docs records [Hid _] _ IH]; intros Hlook; [reflexivity |].
  pose proof (Hlook item ltac:(left)) as Hitem. rewrite Hid in Hitem.
  simpl. rewrite Hitem. f_equal.
  apply IH. intros it Hit. apply Hlook. right. exact Hit.
Qed.

Lemma main_reuses (getEmbeddings : nat -> list jsstring -> ApiResult)
      (docs : list Doc) (records : list Item) (oldModel : jsstring) :
  API_KEY <> [] -> docs <> [] -> NoDup (map id docs) ->
  up_to_date contentHash docs records ->
  main contentHash API_KEY MODEL KB_EMBED_BATCH_SIZE getEmbeddings
       {| docsFile := Some docs;
          outFile := Some {| model := oldModel; items := records |} |}
  = (Saved, {| docsFile := Some docs;
               outFile := Some {| model := MODEL; items := records |} |}).
Proof.
  intros Hkey Hdocs Hnd Hup. unfold main. cbn [docsFile outFile items].
  destruct API_KEY as [| c key]; [contradiction |]. cbn [length Nat.eqb].
  destruct docs as [| d0 docs0]; [contradiction |].
  set (docs := d0 :: docs0) in *.
  assert (Hlook : forall item, item ∈ records ->
                               index_by_id records !! item_id item = Some item).
  { intros item Hin. apply index_by_id_nodup; [| exact Hin].
    rewrite (up_to_date_ids _ _ Hup). exact Hnd. }
  rewrite (split_cached_all_reused _ _ _ Hup Hlook).
  cbn [length embed_all]. rewrite (omap_all_found _ _ _ Hup Hlook). reflexivity.
Qed.

(** X21: when every document already has a record with its current hash
    (and the ids are pairwise different), a run succeeds whatever the
    provider would answer (no request is made) and writes the same
    records again, under the current model name. *)
Theorem unchanged_documents_not_reembedded
        (getEmbeddings : nat -> list jsstring -> ApiResult)
        (docs : list Doc) (records : list Item) (oldModel : jsstring) :
  API_KEY <> [] -> docs <> [] -> NoDup (map id docs) ->
  up_to_date contentHash docs records ->
  main contentHash API_KEY MODEL KB_EMBED_BATCH_SIZE getEmbeddings
       {| docsFile := Some docs;
          outFile := Some {| model := oldModel; items := records |} |}
  = (Saved, {| docsFile := Some docs;
               outFile := Some {| model := MODEL; items := records |} |}).
Proof. apply main_reuses. Qed.

(** X22: building twice is the same as building once: after a
    successful run on documents with pairwise different ids, a second
    run, whatever the provider answers, succeeds and leaves both files as
    the first run left them. *)
Theorem rebuild_is_idempotent (first second : nat -> list jsstring -> ApiResult)
        (disk disk' : Disk) (docs : list Doc) :
  docsFile disk = Some docs ->
  NoDup (map id docs) ->
  main contentHash API_KEY MODEL KB_EMBED_BATCH_SIZE first disk = (Saved, disk') ->
  main contentHash API_KEY MODEL KB_EMBED_BATCH_SIZE second disk' = (Saved, disk').
Proof.
  intros Hdocs Hnd Hrun.
  assert (Hkey : API_KEY <> [] /\ docs <> []).
  { revert Hrun. unfold main. rewrite Hdocs.
    destruct API_KEY; [discriminate |]. destruct docs; [discriminate |].
    intros _. split; discriminate. }
  destruct (main_saved_records first disk disk' docs Hdocs Hnd Hrun)
    as (records & -> & Hup).
  apply main_reuses; tauto.
Qed.

End Rebuild.

Lemma build_docs_distinct : NoDup (map EmbeddingBuilder.id build_docs).
Proof. apply (bool_decide_unpack _). vm_compute. exact I. Qed.

Lemma built_records_up_to_date : up_to_date (fun text => text) build_docs built_records.
Proof. repeat constructor. Qed.

Lemma saved_index_up_to_date_witness :
  exists records,
    built_disk
    = {| EmbeddingBuilder.docsFile := Some build_docs;
         EmbeddingBuilder.outFile :=
           Some {| EmbeddingBuilder.model := js "text-embedding-3-small";
                   EmbeddingBuilder.items := records |} |} /\
    up_to_date (fun text => text) build_docs records.
Proof.
  apply (saved_index_up_to_date (fun text => text) (js "sk-test")
           (js "text-embedding-3-small") 1 full_provider build_disk built_disk build_docs).
  - reflexivity.
  - exact build_docs_distinct.
  - vm_compute. reflexivity.
Defined.

Lemma unchanged_documents_not_reembedded_witness :
  EmbeddingBuilder.main (fun text => text) (js "sk-test") (js "text-embedding-3-large") 1
    short_provider
    {| EmbeddingBuilder.docsFile := Some build_docs;
       EmbeddingBuilder.outFile :=
         Some {| EmbeddingBuilder.model := js "text-embedding-3-small";
                 EmbeddingBuilder.items := built_records |} |}
  = (EmbeddingBuilder.Saved,
     {| EmbeddingBuilder.docsFile := Some build_docs;
        EmbeddingBuilder.outFile :=
          Some {| EmbeddingBuilder.model := js "text-embedding-3-large";
                  EmbeddingBuilder.items := built_records |} |}).
Proof.
  apply (unchanged_documents_not_reembedded (fun text => text) (js "sk-test")
           (js "text-embedding-3-large") 1 short_provider build_docs built_records).
  - intros H. discriminate H.
  - intros H. discriminate H.
  - exact build_docs_distinct.
  - exact built_records_up_to_date.
Defined.

Lemma rebuild_is_idempotent_witness :
  EmbeddingBuilder.main (fun text => text) (js "sk-test") (js "text-embedding-3-small") 1
    short_provider built_disk
  = (EmbeddingBuilder.Saved, built_disk).
Proof.
  apply (rebuild_is_idempotent (fun text => text) (js "sk-test")
           (js "text-embedding-3-small") 1 full_provider short_provider
           build_disk built_disk build_docs).
  - reflexivity.
  - exact build_docs_distinct.
  - vm_compute. reflexivity.
Defined.

(** ** Top-K and score range *)

(** X23: the result for a smaller limit is a prefix of the result for a
    larger one, in every retrieval mode. *)
Theorem retrieveContext_prefix (cfg : Config) (env : Env) (q : jsstring) (k n : nat) :
  retrieveContext cfg env q k = take k (retrieveContext cfg env q (k + n)).
Proof.
  assert (Hkw : keyword_items (ragDocuments cfg) q k
                = take k (keyword_items (ragDocuments cfg) q (k + n))).
  { unfold keyword_items, retrieveByKeyword.
    destruct (size (tokenSet q) =? 0)%nat; [destruct k; reflexivity |].
    rewrite <- fmap_take, take_take. f_equal. f_equal. lia. }
  unfold retrieveContext.
  destruct (length (ragDocuments cfg) =? 0)%nat; [destruct k; reflexivity |].
  destruct (vector_mode cfg) as [emb |]; [| exact Hkw].
  destruct (getEmbedding env q) as [qe |]; [| exact Hkw].
  destruct (length _ =? 0)%nat; [exact Hkw |].
  rewrite <- fmap_take, take_take. f_equal. f_equal. lia.
Qed.

Lemma ratio_le_one (num den : nat) : (num <= den)%nat -> (ratio num den <= 1)%Q.
Proof.
  intros Hle. unfold ratio, Qle. simpl. rewrite Z.mul_1_r, Z.mul_1_l.
  destruct den as [| den]; [replace num with 0%nat by lia; simpl; lia |].
  rewrite <- positive_nat_Z, Nat2Pos.id by lia. lia.
Qed.

(** X24: keyword and FAQ scores lie between 0 and 1. *)
Theorem overlap_scores_in_unit_interval (query other : jsstring) (doc : Doc) :
  (0 <= keyword_score (tokenSet query) doc <= 1)%Q /\
  (0 <= faq_score (tokenSet query) (tokenSet other) <= 1)%Q.
Proof.
  assert (Hcount : forall a b : gset jsstring, (count_overlap a b <= size a)%nat).
  { intros a b. rewrite count_overlap_size.
    apply subseteq_size, intersection_subseteq_l. }
  split; split; try apply ratio_nonneg; apply ratio_le_one.
  - specialize (Hcount (tokenSet query) (tokenSet (sourceText doc))). lia.
  - specialize (Hcount (tokenSet query) (tokenSet other)). lia.
Qed.

(** ** The two guardrail patterns *)

Lemma unit_before_cons (prev : option ascii) (c : ascii) (skipped : jsstring) :
  unit_before (Some c) skipped = unit_before prev (c :: skipped).
Proof.
  unfold unit_before. destruct skipped as [| d skipped]; [reflexivity |].
  rewrite (last_cons_cons c d skipped).
  destruct (last (d :: skipped)) eqn:Hl; [reflexivity |].
  apply last_None in Hl. discriminate Hl.
Qed.

Lemma unit_before_app (prev : option ascii) (a b : jsstring) :
  unit_before (unit_before prev a) b = unit_before prev (a ++ b).
Proof.
  revert prev. induction a as [| c a IH]; intros prev; [reflexivity |].
  rewrite <- unit_before_cons, IH. simpl. rewrite <- unit_before_cons. reflexivity.
Qed.

Lemma occurs_cons (p : option ascii -> jsstring -> bool)
      (prev : option ascii) (c : ascii) (s : jsstring) :
  occurs p (Some c) s -> occurs p prev (c :: s).
Proof.
  intros (skipped & rest & -> & Hp). exists (c :: skipped), rest.
  split; [reflexivity |]. rewrite <- unit_before_cons. exact Hp.
Qed.

Lemma occurs_app (p : option ascii -> jsstring -> bool)
      (prev : option ascii) (a s : jsstring) :
  occurs p (unit_before prev a) s -> occurs p prev (a ++ s).
Proof.
  intros (skipped & rest & -> & Hp). exists (a ++ skipped), rest.
  split; [apply app_assoc |]. rewrite <- unit_before_app. exact Hp.
Qed.

Lemma occurs_weaken (p q : option ascii -> jsstring -> bool)
      (prev : option ascii) (s : jsstring) :
  (forall u r, p u r = true -> q u r = true) -> occurs p prev s -> occurs q prev s.
Proof.
  intros Hpq (skipped & rest & -> & Hp). exists skipped, rest. auto.
Qed.

Lemma search_occurs (p : option ascii -> jsstring -> bool)
      (prev : option ascii) (s : jsstring) :
  search p prev s = true <-> occurs p prev s.
Proof.
  split.
  - revert prev. induction s as [| c s IH]; intros prev; simpl.
    + destruct (p prev []) eqn:Hp; [| discriminate].
      intros _. exists [], []. split; [reflexivity | exact Hp].
    + destruct (p prev (c :: s)) eqn:Hp.
      * intros _. exists [], (c :: s). split; [reflexivity | exact Hp].
      * intros H. apply occurs_cons, IH, H.
  - intros (skipped & rest & -> & Hp). revert prev Hp.
    induction skipped as [| c skipped IH]; intros prev Hp.
    + simpl in *. unfold unit_before in Hp. simpl in Hp.
      destruct rest; simpl; rewrite Hp; reflexivity.
    + simpl. destruct (p prev (c :: skipped ++ rest)); [reflexivity |].
      apply IH. rewrite unit_before_cons with (prev := prev). exact Hp.
Qed.

Lemma dot_star_occurs (p : option ascii -> jsstring -> bool)
      (prev : option ascii) (s : jsstring) :
  dot_star p prev s = true -> occurs p prev s.
Proof.
  revert prev. induction s as [| c s IH]; intros prev; simpl.
  - destruct (p prev []) eqn:Hp; [| discriminate].
    intros _. exists [], []. split; [reflexivity | exact Hp].
  - destruct (p prev (c :: s)) eqn:Hp.
    + intros _. exists [], (c :: s). split; [reflexivity | exact Hp].
    + destruct (is_line_terminator c); [discriminate |].
      intros H. apply occurs_cons, IH, H.
Qed.

Lemma alt_at_more_words (kws kws' : list jsstring) (prev : option ascii) (s : jsstring) :
  (forall k, In k kws -> In k kws') ->
  alt_at kws prev s = true -> alt_at kws' prev s = true.
Proof.
  intros Hsub. unfold alt_at. destruct (boundary prev (head s)); [| discriminate].
  rewrite !existsb_exists. intros (k & Hin & Hk). exists k. auto.
Qed.

Lemma how_much_at_occurs (prev : option ascii) (s : jsstring) :
  how_much_at prev s = true -> occurs (alt_at pattern1_words) prev s.
Proof.
  unfold how_much_at. set (k := js "how much").
  destruct (boundary prev (head s) && ci_prefix k s && _) eqn:Hhead; [| discriminate].
  intros Hrest. apply dot_star_occurs in Hrest.
  rewrite <- (take_drop (length k) s). apply occurs_app.
  assert (Hlast : unit_before prev (take (length k) s) = last (take (length k) s)).
  { unfold unit_before. destruct (last (take (length k) s)) eqn:Hl; [reflexivity |].
    apply last_None in Hl.
    apply andb_true_iff in Hhead as [Hhead _]. apply andb_true_iff in Hhead as [_ Hci].
    destruct s; [discriminate Hci | discriminate Hl]. }
  rewrite Hlast. revert Hrest. apply occurs_weaken.
  intros u r. apply alt_at_more_words.
  intros w [<- | [<- | []]]; vm_compute; tauto.
Qed.

Lemma pattern2_within_pattern1 (question : jsstring) :
  pattern2 question = true -> pattern1 question = true.
Proof.
  unfold pattern2, pattern1. rewrite !search_occurs.
  intros (skipped & rest & -> & Hp). apply occurs_app.
  apply how_much_at_occurs, Hp.
Qed.

(** X25: the guardrail blocks exactly the questions its first pattern
    matches; the second pattern never adds one. *)
Theorem guardrail_is_first_pattern (question : jsstring) :
  isBlockedMedicalQuestion question = pattern1 question.
Proof.
  unfold isBlockedMedicalQuestion, blockedMedicalPatterns. simpl.
  pose proof (pattern2_within_pattern1 question) as H.
  destruct (pattern1 question), (pattern2 question); try reflexivity.
  discriminate H. reflexivity.
Qed.

(** ** The contact form handler *)

Section ContactHandler.
Import Contact.
Variables (cfg : Settings) (svc : Services) (clientIp : jsstring) (form : Form).

Lemma contact_well_formed_cases :
  well_formed form = false ->
  negb (blank (form_hp_contact form)) = true \/
  blank (form_name form) || blank (form_email form) || blank (form_message form) = true \/
  negb (emailRegex (form_email form)) = true \/
  (N.of_nat (length (trim (form_message form))) <? 10)%N
  || (5000 <? N.of_nat (length (trim (form_message form))))%N = true \/
  blank (form_captchaToken form) = true.
Proof.
  unfold well_formed.
  destruct (blank (form_hp_contact form)); [| auto].
  destruct (blank (form_name form)); [auto |].
  destruct (blank (form_email form)); [auto |].
  destruct (blank (form_message form)); [auto |].
  destruct (emailRegex (form_email form)); [| auto].
  destruct (N.leb_spec 10 (N.of_nat (length (trim (form_message form))))) as [Hlo | Hlo].
  - destruct (N.leb_spec (N.of_nat (length (trim (form_message form)))) 5000) as [Hhi | Hhi].
    + destruct (blank (form_captchaToken form)); [auto | discriminate].
    + intros _. do 3 right. left. apply orb_true_iff. right. apply N.ltb_lt. exact Hhi.
  - intros _. do 3 right. left. apply orb_true_iff. left. apply N.ltb_lt. exact Hlo.
Qed.

Lemma contact_well_formed_true :
  well_formed form = true ->
  negb (blank (form_hp_contact form)) = false /\
  blank (form_name form) || blank (form_email form) || blank (form_message form) = false /\
  negb (emailRegex (form_email form)) = false /\
  (N.of_nat (length (trim (form_message form))) <? 10)%N
  || (5000 <? N.of_nat (length (trim (form_message form))))%N = false /\
  blank (form_captchaToken form) = false.
Proof.
  unfold well_formed. rewrite !andb_true_iff, !negb_true_iff.
  intros [[[[[[[-> ->] ->] ->] ->] Hlo] Hhi] ->].
  apply N.leb_le in Hlo, Hhi. repeat split; try reflexivity.
  apply orb_false_iff. split; apply N.ltb_ge; lia.
Qed.

Lemma contact_malformed :
  well_formed form = false ->
  exists error, contact cfg svc clientIp form = (Error 400 error, []).
Proof.
  intros H. apply contact_well_formed_cases in H. unfold contact.
  destruct (negb (blank (form_hp_contact form))); [eauto |].
  destruct (blank (form_name form) || blank (form_email form)
            || blank (form_message form)); [eauto |].
  destruct (negb (emailRegex (form_email form))); [eauto |].
  destruct ((N.of_nat (length (trim (form_message form))) <? 10)%N
            || (5000 <? N.of_nat (length (trim (form_message form))))%N); [eauto |].
  destruct (blank (form_captchaToken form)); [eauto |].
  destruct H as [H | [H | [H | [H | H]]]]; discriminate H.
Qed.

Lemma passed_iff (a : Assessment) :
  negb (token_valid a) || hasActionMismatch a || hasLowScore a = false -> passed a.
Proof.
  rewrite !orb_false_iff, negb_false_iff. intros [[Hv Ha] Hs].
  unfold hasActionMismatch in Ha. unfold hasLowScore in Hs.
  split; [exact Hv |]. split.
  - intros action E. rewrite E in Ha. apply negb_false_iff in Ha.
    apply bool_decide_eq_true in Ha. exact Ha.
  - intros score E. rewrite E in Hs. exact Hs.
Qed.

(** The requests of a submission that reached the mail provider. *)
Lemma contact_mailed (m : Mail) :
  In (SendMail m) (snd (contact cfg svc clientIp form)) ->
  well_formed form = true /\
  (exists a, createAssessment svc (assessmentRequest cfg clientIp form) = Some a /\
             passed a) /\
  emailRegex (normalizedMailFrom cfg) = true /\
  (m = mailOptions cfg svc clientIp (normalizedMailFrom cfg) form \/
   SEND_CONFIRMATION_EMAIL cfg = true /\
   sendMail svc (mailOptions cfg svc clientIp (normalizedMailFrom cfg) form) = true /\
   m = confirmationMailOptions (normalizedMailFrom cfg) form).
Proof.
  destruct (well_formed form) eqn:Hwf.
  2: { destruct (contact_malformed Hwf) as [e ->]. intros []. }
  destruct (contact_well_formed_true Hwf) as (H1 & H2 & H3 & H4 & H5).
  unfold contact. rewrite H1, H2, H3, H4, H5.
  destruct (blank (RECAPTCHA_PROJECT_ID cfg) || blank (RECAPTCHA_API_KEY cfg)
            || blank (RECAPTCHA_SITE_KEY cfg)); [intros [] |].
  cbv zeta.
  destruct (createAssessment svc (assessmentRequest cfg clientIp form)) as [a |];
    [| simpl; intros [[=] | []]].
  destruct (negb (token_valid a) || hasActionMismatch a || hasLowScore a) eqn:Hpass;
    [simpl; intros [[=] | []] |].
  apply passed_iff in Hpass.
  destruct (blank (normalizedMailFrom cfg) || negb (emailRegex (normalizedMailFrom cfg)))
    eqn:Hfrom; [simpl; intros [[=] | []] |].
  apply orb_false_iff in Hfrom as [_ Hfrom]. apply negb_false_iff in Hfrom.
  destruct (sendMail svc _) eqn:Hsent.
  - destruct (SEND_CONFIRMATION_EMAIL cfg) eqn:Hconf; simpl.
    + intros [[=] | [[= <-] | [[= <-] | []]]]; eauto 10.
    + intros [[=] | [[= <-] | []]]; eauto 10.
  - simpl. intros [[=] | [[= <-] | []]]; eauto 10.
Qed.

(** The four ways a submission can end. *)
Lemma contact_cases :
  let request := assessmentRequest cfg clientIp form in
  let admin := mailOptions cfg svc clientIp (normalizedMailFrom cfg) form in
  let confirmation := confirmationMailOptions (normalizedMailFrom cfg) form in
  (exists status error,
      contact cfg svc clientIp form = (Error status error, [])) \/
  (exists status error,
      contact cfg svc clientIp form = (Error status error, [Assess request])) \/
  (sendMail svc admin = false /\
   contact cfg svc clientIp form
   = (Error 500 genericError, [Assess request; SendMail admin])) \/
  (sendMail svc admin = true /\
   contact cfg svc clientIp form
   = (Success sentMessage,
      if SEND_CONFIRMATION_EMAIL cfg
      then [Assess request; SendMail admin; SendMail confirmation]
      else [Assess request; SendMail admin])).
Proof.
  intros request admin confirmation. unfold contact.
  destruct (negb (blank (form_hp_contact form))); [left; eauto |].
  destruct (blank (form_name form) || blank (form_email form)
            || blank (form_message form)); [left; eauto |].
  destruct (negb (emailRegex (form_email form))); [left; eauto |].
  destruct ((N.of_nat (length (trim (form_message form))) <? 10)%N
            || (5000 <? N.of_nat (length (trim (form_message form))))%N); [left; eauto |].
  destruct (blank (form_captchaToken form)); [left; eauto |].
  destruct (blank (RECAPTCHA_PROJECT_ID cfg) || blank (RECAPTCHA_API_KEY cfg)
            || blank (RECAPTCHA_SITE_KEY cfg)); [left; eauto |].
  cbv zeta. fold request.
  destruct (createAssessment svc request) as [a |]; [| right; left; eauto].
  destruct (negb (token_valid a) || hasActionMismatch a || hasLowScore a);
    [right; left; eauto |].
  destruct (blank (normalizedMailFrom cfg) || negb (emailRegex (normalizedMailFrom cfg)));
    [right; left; eauto |].
  fold admin. fold confirmation.
  destruct (sendMail svc admin) eqn:Hsent; [do 3 right | do 2 right; left];
    (split; [reflexivity |]); reflexivity.
Qed.

End ContactHandler.

(** X26: a submission that fails one of the form checks is answered
    with status 400 before any request leaves the server. *)
Theorem contact_rejects_malformed_without_requests
        (cfg : Contact.Settings) (svc : Contact.Services)
        (clientIp : jsstring) (form : Contact.Form) :
  well_formed form = false ->
  exists error,
    Contact.contact cfg svc clientIp form = (Contact.Error 400 error, []).
Proof. apply contact_malformed. Qed.

Lemma contact_rejects_malformed_without_requests_witness :
  exists error,
    Contact.contact contact_settings contact_services (js "203.0.113.7") contact_form_bot
    = (Contact.Error 400 error, []).
Proof.
  apply (contact_rejects_malformed_without_requests
           contact_settings contact_services (js "203.0.113.7") contact_form_bot).
  vm_compute. reflexivity.
Defined.

(** X27: a mail is handed to the mail provider only for a well-formed
    submission whose assessment passed, from the configured sender, and
    it goes to the administrators or, as a confirmation, to the
    visitor. *)
Theorem contact_mail_requires_passed_assessment
        (cfg : Contact.Settings) (svc : Contact.Services)
        (clientIp : jsstring) (form : Contact.Form) (m : Contact.Mail) :
  In (Contact.SendMail m) (snd (Contact.contact cfg svc clientIp form)) ->
  well_formed form = true /\
  (exists a, Contact.createAssessment svc (Contact.assessmentRequest cfg clientIp form)
             = Some a /\ passed a) /\
  Contact.envelope_from m = Contact.normalizedMailFrom cfg /\
  Contact.emailRegex (Contact.envelope_from m) = true /\
  (Contact.envelope_to m = Contact.or_else (Contact.MAIL_TO cfg) Contact.defaultMailTo \/
   Contact.SEND_CONFIRMATION_EMAIL cfg = true /\
   Contact.envelope_to m = Contact.form_email form).
Proof.
  intros H. apply contact_mailed in H as (Hwf & Ha & Hfrom & Hm).
  split; [exact Hwf |]. split; [exact Ha |].
  destruct Hm as [-> | (Hconf & _ & ->)]; simpl; auto.
Qed.

Lemma contact_mail_requires_passed_assessment_witness :
  well_formed contact_form = true /\
  Contact.envelope_from (Contact.confirmationMailOptions
                           (js "noreply@projectcystem.org") contact_form)
  = Contact.normalizedMailFrom contact_settings.
Proof.
  destruct (contact_mail_requires_passed_assessment
              contact_settings contact_services (js "203.0.113.7") contact_form
              (Contact.confirmationMailOptions (js "noreply@projectcystem.org")
                                               contact_form))
    as (Hwf & _ & Hfrom & _).
  - vm_compute. tauto.
  - split; [exact Hwf | exact Hfrom].
Defined.

(** X28: the visitor is told that the message was sent exactly when the
    mail provider accepted the mail to the administrators; what happens
    to the confirmation mail changes nothing. *)
Theorem contact_success_iff_admin_mail_accepted
        (cfg : Contact.Settings) (svc : Contact.Services)
        (clientIp : jsstring) (form : Contact.Form) :
  fst (Contact.contact cfg svc clientIp form) = Contact.Success Contact.sentMessage <->
  exists m, In (Contact.SendMail m) (snd (Contact.contact cfg svc clientIp form)) /\
            Contact.mail_replyTo m = Some (Contact.form_email form) /\
            Contact.sendMail svc m = true.
Proof.
  destruct (contact_cases cfg svc clientIp form)
    as [(st & e & ->) | [(st & e & ->) | [(Hsent & ->) | (Hsent & ->)]]]; simpl.
  - split; [discriminate | intros (m & [] & _)].
  - split; [discriminate | intros (m & [[=] | []] & _)].
  - split; [discriminate |].
    intros (m & [[=] | [[= <-] | []]] & _ & Hm). congruence.
  - split; [intros _ | reflexivity].
    eexists. split; [| split; [| exact Hsent]]; [| reflexivity].
    destruct (Contact.SEND_CONFIRMATION_EMAIL cfg); simpl; auto.
Qed.
